(** * A growable array over raw memory: RawMemory<T> and Vector<T>

    Shallow embedding of [advanced-vector/vector.h] and verification of its
    specification.

    Raw storage is a heap of blocks of slots; a slot is either unconstructed
    or holds a live element.  Every function of the source is a function in a
    state monad with three outcomes: normal return, a propagating C++
    exception, or a fault (failed [assert] or undefined behaviour).  The
    element type [T] is a parameter: its operations may throw and its move
    operations leave the source in a moved-from state.

    Layout: the model (size_t, elements, monad, heap, the algorithms of the
    standard library, RawMemory, Vector), the element types and states of the
    examples, facts about the model, the claims of the specification, and
    further properties of the code. *)

From Stdlib Require Import NArith Lia.
From stdpp Require Import base numbers option list gmap.

Set Default Proof Using "Type".
Open Scope N_scope.

(** ** size_t *)

Definition size_max : N := 2 ^ 64.

(** Arithmetic on [size_t] is modulo [2^64]. *)
Definition wrap (n : N) : N := n mod size_max.

(** [a - b] on [size_t]. *)
Definition sub_sz (a b : N) : N := wrap (a + size_max - wrap b).

(** ** The element type [T]

    What the container asks of its template parameter: its size, the two type
    traits consulted by [if constexpr], and its special member functions.
    Copying yields an equal value; moving yields an equal value in the
    destination and leaves the source in the state [moved_from]; each
    operation may throw, depending on the values involved.  The default
    constructor has no argument: whether it throws depends on how many
    elements the running algorithm has value-constructed before
    ([value_init_throws k] for the element after [k] others). *)
Class Element (T : Type) := {
  sizeof_T : positive;
  is_nothrow_move_constructible : bool;
  is_copy_constructible : bool;
  value_init : T;
  value_init_throws : nat -> bool;
  copy_ctor_throws : T -> bool;
  move_ctor_throws : T -> bool;
  copy_assign_throws : T -> T -> bool;
  move_assign_throws : T -> T -> bool;
  moved_from : T -> T
}.

(** ** Outcomes and the state monad *)

Inductive exn := bad_alloc | element_error.

Inductive outcome (S A : Type) :=
| Ok (a : A) (s : S)
| Throw (e : exn) (s : S)
| Fault.
Arguments Ok {S A} a s.
Arguments Throw {S A} e s.
Arguments Fault {S A}.

Definition M (S A : Type) : Type := S -> outcome S A.

Definition ret {S A} (a : A) : M S A := fun s => Ok a s.

Definition bind {S A B} (m : M S A) (f : A -> M S B) : M S B :=
  fun s =>
    match m s with
    | Ok a s' => f a s'
    | Throw e s' => Throw e s'
    | Fault => Fault
    end.

Definition throw {S A} (e : exn) : M S A := fun s => Throw e s.

Definition fault {S A} : M S A := fun _ => Fault.

(** [assert(c)] *)
Definition assert {S} (c : bool) : M S unit := if c then ret tt else fault.

(** [try { m } catch (...) { handler; throw; }]; also the unwinding of a scope
    whose local object has destructor [handler]. *)
Definition try_catch {S A} (m : M S A) (handler : M S unit) : M S A :=
  fun s =>
    match m s with
    | Throw e s' =>
        match handler s' with
        | Ok _ s'' => Throw e s''
        | Throw e' s'' => Throw e' s''
        | Fault => Fault
        end
    | r => r
    end.

Declare Scope cpp_scope.
Delimit Scope cpp_scope with cpp.
Notation "x <- m ;; k" := (bind m (fun x => k))
  (at level 100, m at next level, right associativity) : cpp_scope.
Notation "m ;;; k" := (bind m (fun _ => k))
  (at level 100, right associativity) : cpp_scope.
Open Scope cpp_scope.

(** ** Raw memory: pointers, blocks and the heap *)

(** A [T*]: the block it points into ([0] for the null pointer) and the slot
    offset inside that block. *)
Record ptr := Ptr { base : nat; off : N }.

Definition nullptr : ptr := Ptr 0 0.

Definition ptr_eqb (p q : ptr) : bool :=
  Nat.eqb (base p) (base q) && N.eqb (off p) (off q).

(** [p + k] and [p - 1] *)
Definition ptr_add (p : ptr) (k : N) : ptr := Ptr (base p) (off p + k).
Definition ptr_pred (p : ptr) : ptr := Ptr (base p) (off p - 1).

(** [p <= q] and [p < q] on pointers into one array; comparing pointers into
    different blocks makes the assertion fail. *)
Definition ptr_leb (p q : ptr) : bool :=
  Nat.eqb (base p) (base q) && N.leb (off p) (off q).
Definition ptr_ltb (p q : ptr) : bool :=
  Nat.eqb (base p) (base q) && N.ltb (off p) (off q).

(** [q - p] converted to [size_t] *)
Definition ptr_diff (q p : ptr) : N := sub_sz (off q) (off p).

(** A block of storage: one slot per element; [None] is unconstructed
    storage, [Some x] a live element of value [x]. *)
Abbreviation block T := (list (option T)) (only parsing).

Section Memory.
Context {T : Type} {ET : Element T}.

(** [blocks]: the regions handed out by [operator new] and not yet released.
    [leaked]: elements whose storage was released or reused without their
    destructor having run.  [limit]: the largest request, in bytes, the
    allocator grants. *)
Record heap := Heap {
  blocks : gmap nat (block T);
  leaked : list T;
  limit : N
}.

Definition get_slot (p : ptr) (h : heap) : option (option T) :=
  match blocks h !! base p with
  | Some b => b !! N.to_nat (off p)
  | None => None
  end.

(** Replacing the contents of block [r]. *)
Definition upd_block (r : nat) (b : block T) (h : heap) : heap :=
  Heap (<[r := b]> (blocks h)) (leaked h) (limit h).

Definition set_slot (p : ptr) (s : option T) (h : heap) : heap :=
  match blocks h !! base p with
  | Some b => upd_block (base p) (<[N.to_nat (off p) := s]> b) h
  | None => h
  end.

Definition live (b : block T) : list T := omap id b.

(** The address the allocator hands out next: not null and not in use. *)
Definition fresh_block (h : heap) : nat := fresh ({[0%nat]} ∪ dom (blocks h)).

(** [operator new(bytes)]: a fresh block of uninitialised storage. *)
Definition operator_new (bytes : N) : M heap ptr :=
  fun h =>
    if bytes <=? limit h then
      let r := fresh_block h in
      let slots := N.to_nat (bytes / N.pos sizeof_T) in
      Ok (Ptr r 0) (Heap (<[r := replicate slots None]> (blocks h)) (leaked h) (limit h))
    else Throw bad_alloc h.

(** [operator delete(p)]: nothing for the null pointer; releasing an address
    that is not the start of a block still allocated is undefined. *)
Definition operator_delete (p : ptr) : M heap unit :=
  fun h =>
    if ptr_eqb p nullptr then Ok tt h
    else if negb (off p =? 0) then Fault
    else match blocks h !! base p with
         | Some b => Ok tt (Heap (delete (base p) (blocks h)) (live b ++ leaked h) (limit h))
         | None => Fault
         end.

(** Reading the object at [p]. *)
Definition load (p : ptr) : M heap T :=
  fun h => match get_slot p h with Some (Some x) => Ok x h | _ => Fault end.

(** Overwriting the value of the live object at [p]. *)
Definition store (p : ptr) (x : T) : M heap unit :=
  fun h => match get_slot p h with Some (Some _) => Ok tt (set_slot p (Some x) h) | _ => Fault end.

(** Placement new at [p] with resulting value [x]. *)
Definition construct_at (p : ptr) (x : T) : M heap unit :=
  fun h =>
    match get_slot p h with
    | Some None => Ok tt (set_slot p (Some x) h)
    | Some (Some y) =>
        let h' := set_slot p (Some x) h in
        Ok tt (Heap (blocks h') (y :: leaked h') (limit h'))
    | None => Fault
    end.

(** [std::destroy_at(p)] *)
Definition destroy_at (p : ptr) : M heap unit :=
  fun h => match get_slot p h with Some (Some _) => Ok tt (set_slot p None h) | _ => Fault end.

(** *** Element operations in place *)

(** [new (dst) T()] *)
Definition value_construct_at (dst : ptr) (k : nat) : M heap unit :=
  if value_init_throws k then throw element_error else construct_at dst value_init.

(** Copy construction at [dst] from the object at [src]. *)
Definition copy_construct_at (dst src : ptr) : M heap unit :=
  x <- load src ;;
  if copy_ctor_throws x then throw element_error else construct_at dst x.

(** Move construction at [dst] from the object at [src]; an exception
    leaving a [noexcept] move constructor terminates the program. *)
Definition move_construct_at (dst src : ptr) : M heap unit :=
  x <- load src ;;
  if move_ctor_throws x then
    if is_nothrow_move_constructible then fault else throw element_error
  else construct_at dst x ;;; store src (moved_from x).

(** Copy assignment of the object at [src] to the object at [dst]. *)
Definition copy_assign_at (dst src : ptr) : M heap unit :=
  x <- load src ;;
  d <- load dst ;;
  if copy_assign_throws d x then throw element_error else store dst x.

(** Move assignment of the object at [src] to the object at [dst]. *)
Definition move_assign_at (dst src : ptr) : M heap unit :=
  x <- load src ;;
  d <- load dst ;;
  if move_assign_throws d x then throw element_error
  else store dst x ;;; store src (moved_from x).

(** The arguments forwarded to [T]'s constructor by [Emplace]: a [const T&]
    (copy construction) or a [T&&] (move construction) designating an object
    of value [x] that lives outside the vector's buffer.  A reference to an
    element of the vector itself, which the code would read only after it
    has shifted the elements, is not covered. *)
Inductive ctor_args := by_copy (x : T) | by_move (x : T).

(** [new (dst) T(std::forward<Args>(args)...)] *)
Definition emplace_construct_at (dst : ptr) (a : ctor_args) : M heap unit :=
  match a with
  | by_copy x => if copy_ctor_throws x then throw element_error else construct_at dst x
  | by_move x =>
      if move_ctor_throws x then
        if is_nothrow_move_constructible then fault else throw element_error
      else construct_at dst x
  end.

(** The value of the element the constructor makes from [a], and whether it
    throws instead. *)
Definition args_value (a : ctor_args) : T :=
  match a with by_copy x | by_move x => x end.

Definition args_throws (a : ctor_args) : bool :=
  match a with
  | by_copy x => copy_ctor_throws x
  | by_move x => move_ctor_throws x
  end.

(** No operation of the element type throws. *)
Definition never_throws : Prop :=
  (∀ x, copy_ctor_throws x = false) ∧ (∀ x, move_ctor_throws x = false) ∧
  (∀ d x, copy_assign_throws d x = false) ∧ (∀ d x, move_assign_throws d x = false).

(** *** The algorithms of <memory> and <algorithm> used by the source *)

(** [std::destroy_n(first, n)] *)
Fixpoint destroy_loop (k : nat) (first : ptr) : M heap unit :=
  match k with
  | O => ret tt
  | S k' => destroy_at first ;;; destroy_loop k' (ptr_add first 1)
  end.

Definition destroy_n (first : ptr) (n : N) : M heap unit :=
  destroy_loop (N.to_nat n) first.

(** [std::destroy(result, cur)], the clean-up of the uninitialized
    algorithms. *)
Definition destroy_range (result cur : ptr) : M heap unit :=
  destroy_n result (ptr_diff cur result).

(** [std::uninitialized_value_construct_n(first, n)]; [j] counts the
    elements constructed so far. *)
Fixpoint uninitialized_value_construct_loop (k j : nat) (cur result : ptr) : M heap unit :=
  match k with
  | O => ret tt
  | S k' =>
      try_catch (value_construct_at cur j) (destroy_range result cur) ;;;
      uninitialized_value_construct_loop k' (S j) (ptr_add cur 1) result
  end.

Definition uninitialized_value_construct_n (first : ptr) (n : N) : M heap unit :=
  uninitialized_value_construct_loop (N.to_nat n) 0 first first.

(** [std::uninitialized_copy_n(first, n, result)] *)
Fixpoint uninitialized_copy_loop (k : nat) (first cur result : ptr) : M heap unit :=
  match k with
  | O => ret tt
  | S k' =>
      try_catch (copy_construct_at cur first) (destroy_range result cur) ;;;
      uninitialized_copy_loop k' (ptr_add first 1) (ptr_add cur 1) result
  end.

Definition uninitialized_copy_n (first : ptr) (n : N) (result : ptr) : M heap unit :=
  uninitialized_copy_loop (N.to_nat n) first result result.

(** [std::uninitialized_move_n(first, n, result)] *)
Fixpoint uninitialized_move_loop (k : nat) (first cur result : ptr) : M heap unit :=
  match k with
  | O => ret tt
  | S k' =>
      try_catch (move_construct_at cur first) (destroy_range result cur) ;;;
      uninitialized_move_loop k' (ptr_add first 1) (ptr_add cur 1) result
  end.

Definition uninitialized_move_n (first : ptr) (n : N) (result : ptr) : M heap unit :=
  uninitialized_move_loop (N.to_nat n) first result result.

(** [std::copy(first, last, d_first)] *)
Fixpoint copy_loop (k : nat) (first d_first : ptr) : M heap unit :=
  match k with
  | O => ret tt
  | S k' =>
      copy_assign_at d_first first ;;;
      copy_loop k' (ptr_add first 1) (ptr_add d_first 1)
  end.

Definition std_copy (first last d_first : ptr) : M heap unit :=
  assert (ptr_leb first last) ;;;
  copy_loop (N.to_nat (ptr_diff last first)) first d_first.

(** [std::move(first, last, d_first)] *)
Fixpoint move_loop (k : nat) (first d_first : ptr) : M heap unit :=
  match k with
  | O => ret tt
  | S k' =>
      move_assign_at d_first first ;;;
      move_loop k' (ptr_add first 1) (ptr_add d_first 1)
  end.

Definition std_move (first last d_first : ptr) : M heap unit :=
  assert (ptr_leb first last) ;;;
  move_loop (N.to_nat (ptr_diff last first)) first d_first.

(** [std::move_backward(first, last, d_last)] *)
Fixpoint move_backward_loop (k : nat) (last d_last : ptr) : M heap unit :=
  match k with
  | O => ret tt
  | S k' =>
      move_assign_at (ptr_pred d_last) (ptr_pred last) ;;;
      move_backward_loop k' (ptr_pred last) (ptr_pred d_last)
  end.

Definition std_move_backward (first last d_last : ptr) : M heap unit :=
  assert (ptr_leb first last) ;;;
  move_backward_loop (N.to_nat (ptr_diff last first)) last d_last.

End Memory.

Arguments heap T : clear implicits.
Arguments ctor_args T : clear implicits.

(** The right-hand side of an assignment [a = b]: [b] is either the object
    [a] itself ([this == &rhs]) or another object, given by its state. *)
Inductive operand (A : Type) :=
| same_object
| other_object (rhs : A).
Arguments same_object {A}.
Arguments other_object {A} rhs.

(** ** RawMemory<T> *)

Module RawMemory.

Record t := Make { buffer_ : ptr; capacity_ : N }.

Section Methods.
Context {T : Type} {ET : Element T}.

Definition Allocate (n : N) : M (heap T) ptr :=
  if negb (n =? 0) then operator_new (wrap (n * N.pos sizeof_T)) else ret nullptr.

Definition Deallocate (buf : ptr) : M (heap T) unit := operator_delete buf.

(** [RawMemory() = default] *)
Definition default : t := Make nullptr 0.

(** [explicit RawMemory(size_t capacity)] *)
Definition ctor (capacity : N) : M (heap T) t :=
  buf <- Allocate capacity ;;
  ret (Make buf capacity).

(** [~RawMemory()] *)
Definition dtor (this : t) : M (heap T) unit := Deallocate (buffer_ this).

(** [void Swap(RawMemory& other)]: the states of [*this] and [other]
    afterwards. *)
Definition Swap (this other : t) : t * t :=
  let '(b, ob) := (buffer_ other, buffer_ this) in
  let '(c, oc) := (capacity_ other, capacity_ this) in
  (Make b c, Make ob oc).

(** [RawMemory(RawMemory&& other)]: the new object and [other]. *)
Definition move_ctor (other : t) : t * t :=
  let this := Make nullptr 0 in
  let '(b, ob) := (buffer_ other, buffer_ this) in
  let '(c, oc) := (capacity_ other, capacity_ this) in
  (Make b c, Make ob oc).

(** [RawMemory& operator=(RawMemory&& rhs)]: [*this] and [rhs]
    afterwards. *)
Definition move_assign (this : t) (rhs : operand t) : M (heap T) (t * operand t) :=
  match rhs with
  | same_object => ret (this, same_object)
  | other_object r =>
      Deallocate (buffer_ this) ;;;
      let this := Make (buffer_ this) 0 in
      let '(this, r) := Swap this r in
      ret (this, other_object r)
  end.

(** [T* operator+(size_t offset)] *)
Definition plus {S} (this : t) (offset : N) : M S ptr :=
  assert (offset <=? capacity_ this) ;;;
  ret (ptr_add (buffer_ this) offset).

(** [T& operator[](size_t index)]: the address of the slot referred to. *)
Definition index {S} (this : t) (i : N) : M S ptr :=
  assert (i <? capacity_ this) ;;;
  ret (ptr_add (buffer_ this) i).

Definition GetAddress (this : t) : ptr := buffer_ this.

Definition Capacity (this : t) : N := capacity_ this.

End Methods.

End RawMemory.

(** ** Vector<T> *)

Module Vector.

Record t := Make { data_ : RawMemory.t; size_ : N }.

Section Methods.
Context {T : Type} {ET : Element T}.

(** A member function runs on the object [*this] and the heap. *)
Record state := State { self : t; mem : heap T }.

Definition lift {A} (m : M (heap T) A) : M state A :=
  fun st =>
    match m (mem st) with
    | Ok a h => Ok a (State (self st) h)
    | Throw e h => Throw e (State (self st) h)
    | Fault => Fault
    end.

Definition this : M state t := fun st => Ok (self st) st.

Definition set_self (v : t) : M state unit := fun st => Ok tt (State v (mem st)).

Definition set_data (d : RawMemory.t) : M state unit :=
  fun st => Ok tt (State (Make d (size_ (self st))) (mem st)).

Definition set_size (n : N) : M state unit :=
  fun st => Ok tt (State (Make (data_ (self st)) n) (mem st)).

(** [Vector() = default] *)
Definition default : t := Make RawMemory.default 0.

(** [explicit Vector(size_t size)]; when the body throws, the member
    [data_] is destroyed and no object comes into being. *)
Definition ctor_size (size : N) : M (heap T) t :=
  data <- RawMemory.ctor size ;;
  try_catch
    (uninitialized_value_construct_n (RawMemory.GetAddress data) size)
    (RawMemory.dtor data) ;;;
  ret (Make data size).

(** [Vector(const Vector& other)] *)
Definition ctor_copy (other : t) : M (heap T) t :=
  data <- RawMemory.ctor (size_ other) ;;
  try_catch
    (uninitialized_copy_n (RawMemory.GetAddress (data_ other)) (size_ other)
       (RawMemory.GetAddress data))
    (RawMemory.dtor data) ;;;
  ret (Make data (size_ other)).

(** [void Swap(Vector& other)] on the two states. *)
Definition swap_states (v other : t) : t * t :=
  let '(d, od) := RawMemory.Swap (data_ v) (data_ other) in
  (Make d (size_ other), Make od (size_ v)).

(** [void Swap(Vector& other)]: returns the state of [other] afterwards. *)
Definition Swap (other : t) : M state t :=
  v <- this ;;
  let '(v, other) := swap_states v other in
  set_self v ;;;
  ret other.

(** [Vector(Vector&& other)]: the new object and [other]. *)
Definition ctor_move (other : t) : t * t := swap_states default other.

(** [~Vector()] *)
Definition dtor (v : t) : M (heap T) unit :=
  destroy_n (RawMemory.GetAddress (data_ v)) (size_ v) ;;;
  RawMemory.dtor (data_ v).

Definition begin (v : t) : ptr := RawMemory.GetAddress (data_ v).

Definition end_ (v : t) : ptr := ptr_add (RawMemory.GetAddress (data_ v)) (size_ v).

Definition Size (v : t) : N := size_ v.

Definition Capacity (v : t) : N := RawMemory.Capacity (data_ v).

(** [Vector& operator=(const Vector& rhs)] *)
Definition copy_assign (rhs : operand t) : M state unit :=
  match rhs with
  | same_object => ret tt
  | other_object rhs =>
      v <- this ;;
      if RawMemory.Capacity (data_ v) <? size_ rhs then
        rhs_copy <- lift (ctor_copy rhs) ;;
        rhs_copy <- Swap rhs_copy ;;
        lift (dtor rhs_copy)
      else
        (if size_ rhs <? size_ v then
           lift (std_copy (RawMemory.GetAddress (data_ rhs))
                   (ptr_add (RawMemory.GetAddress (data_ rhs)) (size_ rhs))
                   (RawMemory.GetAddress (data_ v))) ;;;
           lift (destroy_n (ptr_add (RawMemory.GetAddress (data_ v)) (size_ rhs))
                   (sub_sz (size_ v) (size_ rhs)))
         else
           lift (std_copy (RawMemory.GetAddress (data_ rhs))
                   (ptr_add (RawMemory.GetAddress (data_ rhs)) (size_ v))
                   (RawMemory.GetAddress (data_ v))) ;;;
           lift (uninitialized_copy_n
                   (ptr_add (RawMemory.GetAddress (data_ rhs)) (size_ v))
                   (sub_sz (size_ rhs) (size_ v))
                   (ptr_add (RawMemory.GetAddress (data_ v)) (size_ v)))) ;;;
        set_size (size_ rhs)
  end.

(** [Vector& operator=(Vector&& rhs)]: returns [rhs] afterwards. *)
Definition move_assign (rhs : operand t) : M state (operand t) :=
  match rhs with
  | same_object => ret same_object
  | other_object rhs =>
      rhs <- Swap rhs ;;
      ret (other_object rhs)
  end.

(** [T& operator[](size_t index)] *)
Definition index (i : N) : M state ptr :=
  v <- this ;;
  assert (i <? size_ v) ;;;
  RawMemory.index (data_ v) i.

(** [void Reserve(size_t new_capacity)] *)
Definition Reserve (new_capacity : N) : M state unit :=
  v <- this ;;
  if new_capacity <=? RawMemory.Capacity (data_ v) then ret tt
  else
    new_data <- lift (RawMemory.ctor new_capacity) ;;
    try_catch
      (if is_nothrow_move_constructible || negb is_copy_constructible then
         lift (uninitialized_move_n (RawMemory.GetAddress (data_ v)) (size_ v)
                 (RawMemory.GetAddress new_data))
       else
         lift (uninitialized_copy_n (RawMemory.GetAddress (data_ v)) (size_ v)
                 (RawMemory.GetAddress new_data)))
      (lift (RawMemory.dtor new_data)) ;;;
    lift (destroy_n (RawMemory.GetAddress (data_ v)) (size_ v)) ;;;
    let '(d, new_data) := RawMemory.Swap (data_ v) new_data in
    set_data d ;;;
    lift (RawMemory.dtor new_data).

(** [void Resize(size_t new_size)] *)
Definition Resize (new_size : N) : M state unit :=
  v <- this ;;
  (if new_size <=? size_ v then
     lift (destroy_n (ptr_add (RawMemory.GetAddress (data_ v)) new_size)
             (sub_sz (size_ v) new_size))
   else
     Reserve new_size ;;;
     v <- this ;;
     lift (uninitialized_value_construct_n
             (ptr_add (RawMemory.GetAddress (data_ v)) (size_ v))
             (sub_sz new_size (size_ v)))) ;;;
  set_size new_size.

(** [void PopBack()] *)
Definition PopBack : M state unit :=
  v <- this ;;
  if 0 <? size_ v then
    set_size (sub_sz (size_ v) 1) ;;;
    v <- this ;;
    lift (destroy_at (ptr_add (RawMemory.GetAddress (data_ v)) (size_ v)))
  else ret tt.

(** [void ReAllocate(size_t pos_num, RawMemory<T>& new_data)] *)
Definition ReAllocate (pos_num : N) (new_data : RawMemory.t) : M state unit :=
  v <- this ;;
  if is_nothrow_move_constructible || negb is_copy_constructible then
    lift (uninitialized_move_n (begin v) pos_num (RawMemory.GetAddress new_data)) ;;;
    lift (uninitialized_move_n (ptr_add (begin v) pos_num) (sub_sz (size_ v) pos_num)
            (ptr_add (ptr_add (RawMemory.GetAddress new_data) pos_num) 1))
  else
    try_catch
      (lift (uninitialized_copy_n (begin v) pos_num (RawMemory.GetAddress new_data)) ;;;
       lift (uninitialized_copy_n (ptr_add (begin v) pos_num) (sub_sz (size_ v) pos_num)
               (ptr_add (ptr_add (RawMemory.GetAddress new_data) pos_num) 1)))
      (lift (destroy_at (ptr_add (RawMemory.GetAddress new_data) pos_num))).

(** [iterator Emplace(const_iterator pos, Args&&... args)] *)
Definition Emplace (pos : ptr) (args : ctor_args T) : M state ptr :=
  v <- this ;;
  assert (ptr_leb (begin v) pos && ptr_leb pos (end_ v)) ;;;
  let new_capacity := if size_ v =? 0 then 1 else wrap (size_ v * 2) in
  let pos_num := ptr_diff pos (begin v) in
  value <-
    (if size_ v =? Capacity v then
       new_data <- lift (RawMemory.ctor new_capacity) ;;
       value <-
         try_catch
           (value <- RawMemory.plus new_data pos_num ;;
            lift (emplace_construct_at value args) ;;;
            ReAllocate pos_num new_data ;;;
            lift (destroy_n (begin v) (size_ v)) ;;;
            ret value)
           (lift (RawMemory.dtor new_data)) ;;
       let '(d, new_data) := RawMemory.Swap (data_ v) new_data in
       set_data d ;;;
       lift (RawMemory.dtor new_data) ;;;
       ret value
     else
       (if negb (size_ v =? 0) then
          p <- RawMemory.plus (data_ v) (size_ v) ;;
          lift (move_construct_at p (ptr_pred (end_ v))) ;;;
          try_catch
            (lift (std_move_backward (ptr_add (begin v) pos_num) (end_ v)
                     (ptr_add (end_ v) 1)))
            (lift (destroy_at (end_ v))) ;;;
          lift (destroy_at (ptr_add (begin v) pos_num))
        else ret tt) ;;;
       value <- RawMemory.plus (data_ v) pos_num ;;
       lift (emplace_construct_at value args) ;;;
       ret value) ;;
  v <- this ;;
  set_size (wrap (size_ v + 1)) ;;;
  ret value.

(** [T& EmplaceBack(Args&&... args)] *)
Definition EmplaceBack (args : ctor_args T) : M state ptr :=
  v <- this ;;
  Emplace (end_ v) args.

(** [void PushBack(Type&& value)] and [void PushBack(const T& value)] *)
Definition PushBack (value : ctor_args T) : M state unit :=
  EmplaceBack value ;;;
  ret tt.

(** [iterator Erase(const_iterator pos)] *)
Definition Erase (pos : ptr) : M state ptr :=
  v <- this ;;
  assert (ptr_leb (begin v) pos && ptr_ltb pos (end_ v)) ;;;
  let pos_num := ptr_diff pos (begin v) in
  lift (std_move (ptr_add (ptr_add (begin v) pos_num) 1) (end_ v)
          (ptr_add (begin v) pos_num)) ;;;
  PopBack ;;;
  v <- this ;;
  ret (ptr_add (begin v) pos_num).

(** [iterator Insert(const_iterator pos, T&& value)] and
    [iterator Insert(const_iterator pos, const T& value)] *)
Definition Insert (pos : ptr) (value : ctor_args T) : M state ptr :=
  Emplace pos value.

(** The class invariant, with the sequence [l] of element values the
    vector holds: [size_ <= capacity_]; the buffer fits the address
    space; a vector of capacity 0 has the null buffer; otherwise the
    buffer is a block of [capacity_] slots of which the first [size_] hold
    the live elements [l] and the others are unconstructed. *)
Definition repr (v : t) (h : heap T) (l : list T) : Prop :=
  let d := data_ v in
  size_ v = N.of_nat (length l) ∧
  size_ v ≤ RawMemory.capacity_ d ∧
  RawMemory.capacity_ d * N.pos sizeof_T < size_max ∧
  if RawMemory.capacity_ d =? 0 then RawMemory.buffer_ d = nullptr
  else
    off (RawMemory.buffer_ d) = 0 ∧
    base (RawMemory.buffer_ d) ≠ 0%nat ∧
    blocks h !! base (RawMemory.buffer_ d)
    = Some (map Some l ++ replicate (N.to_nat (RawMemory.capacity_ d) - length l) None).

(** Two vectors own different buffers. *)
Definition separate (v w : t) : Prop :=
  RawMemory.capacity_ (data_ v) ≠ 0 → RawMemory.capacity_ (data_ w) ≠ 0 →
  base (RawMemory.buffer_ (data_ v)) ≠ base (RawMemory.buffer_ (data_ w)).

(** The allocator grants a request for [n] elements. *)
Definition grants (h : heap T) (n : N) : Prop :=
  n * N.pos sizeof_T < size_max ∧ n * N.pos sizeof_T ≤ limit h.

(** The relocation chosen by [if constexpr] (transfer of ownership when
    the move constructor is [noexcept] or there is no copy constructor,
    copying otherwise) throws for none of the elements [l]. *)
Definition relocation_succeeds (l : list T) : Prop :=
  if is_nothrow_move_constructible || negb is_copy_constructible
  then Forall (fun x => move_ctor_throws x = false) l
  else Forall (fun x => copy_ctor_throws x = false) l.

(** Shifting the elements [xs] one slot down onto an element of value
    [d] by move assignment ([std::move] in [Erase]) throws: the first
    assignment has target [d], each later one a moved-from target. *)
Fixpoint shift_down_throws (d : T) (xs : list T) : bool :=
  match xs with
  | [] => false
  | x :: xs' => move_assign_throws d x || shift_down_throws (moved_from x) xs'
  end.

(** [l] with the element [x] inserted at index [i]. *)
Definition inserted (i : nat) (x : T) (l : list T) : list T :=
  take i l ++ x :: drop i l.

(** [l] with its last element, if any, in the moved-from state. *)
Definition last_moved_from (l : list T) : list T :=
  match reverse l with
  | [] => []
  | z :: r => reverse r ++ [moved_from z]
  end.

(** The capacity [Emplace] asks for when the vector is full. *)
Definition grown (size : N) : N := if size =? 0 then 1 else size * 2.



(** The same blocks are allocated, with the same number of slots. *)
Definition same_blocks (h h' : heap T) : Prop :=
  ∀ r, length <$> blocks h' !! r = length <$> blocks h !! r.

(** The slots [0 .. size_) of the buffer, as the heap has them. *)
Definition contents (st : state) : list (option T) :=
  match blocks (mem st) !! base (begin (self st)) with
  | Some b => take (N.to_nat (size_ (self st))) b
  | None => []
  end.

End Methods.

Arguments state T : clear implicits.

End Vector.

(** ** Element types and states used in the examples *)

(** [int]: no operation throws and a move is a copy. *)
Definition int_element : Element N := {|
  sizeof_T := 4;
  is_nothrow_move_constructible := true;
  is_copy_constructible := true;
  value_init := 0;
  value_init_throws := fun _ => false;
  copy_ctor_throws := fun _ => false;
  move_ctor_throws := fun _ => false;
  copy_assign_throws := fun _ _ => false;
  move_assign_throws := fun _ _ => false;
  moved_from := fun x => x
|}.

(** An owning pointer in the manner of [std::unique_ptr<int>]: [Some n] owns
    the value [n], [None] is the null pointer.  It cannot be copied, its move
    operations are [noexcept] and leave the source null. *)
Definition unique_ptr_element : Element (option N) := {|
  sizeof_T := 8;
  is_nothrow_move_constructible := true;
  is_copy_constructible := false;
  value_init := None;
  value_init_throws := fun _ => false;
  copy_ctor_throws := fun _ => false;
  move_ctor_throws := fun _ => false;
  copy_assign_throws := fun _ _ => false;
  move_assign_throws := fun _ _ => false;
  moved_from := fun _ => None
|}.

(** A copyable element type whose copy constructor throws when the source
    has the value 13 and whose move constructor is not [noexcept], so that
    relocation copies. *)
Definition throwing_copy_element : Element N := {|
  sizeof_T := 4;
  is_nothrow_move_constructible := false;
  is_copy_constructible := true;
  value_init := 0;
  value_init_throws := fun _ => false;
  copy_ctor_throws := fun x => x =? 13;
  move_ctor_throws := fun _ => false;
  copy_assign_throws := fun _ _ => false;
  move_assign_throws := fun _ _ => false;
  moved_from := fun x => x
|}.

(** The heap with nothing allocated. *)
Definition empty_heap (T : Type) : heap T := Heap ∅ [] 1024.

(** A heap whose only block, at address 1, has the slots [b]. *)
Definition one_block {T : Type} (b : block T) : heap T := Heap {[1%nat := b]} [] 1024.

(** A vector of size [size] and capacity [cap] whose buffer is block 1. *)
Definition vector_at_1 (cap size : N) : Vector.t :=
  Vector.Make (RawMemory.Make (Ptr 1 0) cap) size.

(** Two [RawMemory<int>] of capacity 1 each, then [a = std::move(b)]. *)
Definition move_assign_two_buffers : M (heap N) (RawMemory.t * operand RawMemory.t) :=
  a <- RawMemory.ctor (ET := int_element) 1 ;;
  b <- RawMemory.ctor (ET := int_element) 1 ;;
  RawMemory.move_assign a (other_object b).

(** The vector of owning pointers [[1; 2]] with capacity 4. *)
Definition two_owners : Vector.state (option N) :=
  Vector.State (vector_at_1 4 2) (one_block [Some (Some 1); Some (Some 2); None; None]).

(** The full vector [[1; 13]] of elements whose copy of 13 throws. *)
Definition full_1_13 : Vector.state N :=
  Vector.State (vector_at_1 2 2) (one_block [Some 1; Some 13]).

(** The vector [[1]] with capacity 2. *)
Definition one_of_two : Vector.state N :=
  Vector.State (vector_at_1 2 1) (one_block [Some 1; None]).

(** Sequencing of a list of operations. *)
Definition sequence {S} (ms : list (M S unit)) : M S unit :=
  foldr (fun m k => m ;;; k) (ret tt) ms.

(** [push_back] of the owning pointers to 1, 2, 3 and 4 in turn. *)
Definition push_back_four : M (Vector.state (option N)) unit :=
  sequence (map (fun n => Vector.PushBack (ET := unique_ptr_element) (by_move (Some n)))
              [1; 2; 3; 4]).

(** The vectors [[7]] (capacity 1, block 1) and [[1; 2]] (capacity 2,
    block 2) of [int]. *)
Definition two_vectors_heap : heap N :=
  Heap (<[2%nat := [Some 1; Some 2]]> {[1%nat := [Some 7]]}) [] 1024.
Definition vector_7 : Vector.t := Vector.Make (RawMemory.Make (Ptr 1 0) 1) 1.
Definition vector_1_2 : Vector.t := Vector.Make (RawMemory.Make (Ptr 2 0) 2) 2.

(** An element type whose default constructor throws when it is to construct
    the second element of a range. *)
Definition throwing_default_element : Element N := {|
  sizeof_T := 4;
  is_nothrow_move_constructible := true;
  is_copy_constructible := true;
  value_init := 0;
  value_init_throws := fun k => Nat.eqb k 1;
  copy_ctor_throws := fun _ => false;
  move_ctor_throws := fun _ => false;
  copy_assign_throws := fun _ _ => false;
  move_assign_throws := fun _ _ => false;
  moved_from := fun x => x
|}.

(** The vector [[1; 2; 3]] of capacity 4 in block 1. *)
Definition heap_1_2_3 : heap N := one_block [Some 1; Some 2; Some 3; None].
Definition vector_1_2_3 : Vector.t := vector_at_1 4 3.

(** A count of [int]s whose size in bytes does not fit [size_t]. *)
Definition huge_count : N := 2 ^ 62.

(** A [RawMemory<int>] of capacity 2 whose buffer is block 1, and the heap
    with that block, unconstructed. *)
Definition raw_at_1 : RawMemory.t := RawMemory.Make (Ptr 1 0) 2.
Definition raw_heap : heap N := one_block [None; None].

(** The full vector [[1; 2]] in block 1. *)
Definition heap_1_2 : heap N := one_block [Some 1; Some 2].
Definition full_1_2 : Vector.t := vector_at_1 2 2.

(** A heap whose allocator grants nothing. *)
Definition exhausted_heap : heap N := Heap {[1%nat := [Some 1; Some 2]]} [] 0.

(** * Facts about the model *)

(** Unfolding of the accessors and of pointer arithmetic on concrete objects. *)
Ltac vsimpl :=
  unfold Vector.begin, Vector.end_, Vector.Capacity, Vector.Size,
    RawMemory.GetAddress, RawMemory.Capacity;
  cbn [Vector.self Vector.mem Vector.data_ Vector.size_ RawMemory.buffer_
       RawMemory.capacity_ base off ptr_add ptr_pred fst snd].

Tactic Notation "vsimpl" "in" hyp(H) :=
  unfold Vector.begin, Vector.end_, Vector.Capacity, Vector.Size,
    RawMemory.GetAddress, RawMemory.Capacity in H;
  cbn [Vector.self Vector.mem Vector.data_ Vector.size_ RawMemory.buffer_
       RawMemory.capacity_ base off ptr_add ptr_pred fst snd] in H.

Ltac psimpl := vsimpl; unfold ptr_add, ptr_pred; vsimpl; rewrite ?N.add_0_l.

(** ** size_t and pointer arithmetic *)

Section Arithmetic.
Context {T : Type} {ET : Element T}.
Implicit Types (h : heap T) (b pre suf : block T) (x y : T) (l xs : list T).
Implicit Types (p q : ptr) (s : option T) (v : Vector.t).

Lemma wrap_small n : n < size_max → wrap n = n.
Proof. intros. unfold wrap. by apply N.mod_small. Qed.

Lemma sub_sz_small (a c : N) : c ≤ a → a < size_max → sub_sz a c = a - c.
Proof.
  intros Hle Hlt. unfold sub_sz. rewrite (wrap_small c) by lia.
  unfold wrap. replace (a + size_max - c) with ((a - c) + 1 * size_max) by lia.
  rewrite N.Div0.mod_add. apply N.mod_small. lia.
Qed.

Lemma ptr_diff_add p (n : N) : off p + n < size_max → ptr_diff (ptr_add p n) p = n.
Proof. intros. unfold ptr_diff. simpl. rewrite sub_sz_small by lia. lia. Qed.

Lemma ptr_leb_add p (n : N) : ptr_leb p (ptr_add p n) = true.
Proof.
  unfold ptr_leb. simpl. rewrite Nat.eqb_refl. simpl. apply N.leb_le. lia.
Qed.

Lemma ptr_leb_same r (a b : N) : ptr_leb (Ptr r a) (Ptr r b) = (a <=? b).
Proof. unfold ptr_leb. simpl. by rewrite Nat.eqb_refl. Qed.

Lemma ptr_ltb_same r (a b : N) : ptr_ltb (Ptr r a) (Ptr r b) = (a <? b).
Proof. unfold ptr_ltb. simpl. by rewrite Nat.eqb_refl. Qed.

Lemma ptr_diff_same r (a b : N) : b ≤ a → a < size_max → ptr_diff (Ptr r a) (Ptr r b) = a - b.
Proof. intros. unfold ptr_diff. simpl. by apply sub_sz_small. Qed.

End Arithmetic.

(** ** The monad *)

Section MonadFacts.
Context {S A B : Type}.

Lemma bind_ok (m : M S A) (f : A → M S B) s a s' :
  m s = Ok a s' → bind m f s = f a s'.
Proof. intros E. unfold bind. by rewrite E. Qed.

Lemma bind_throw (m : M S A) (f : A → M S B) s e s' :
  m s = Throw e s' → bind m f s = Throw e s'.
Proof. intros E. unfold bind. by rewrite E. Qed.

Lemma try_catch_ok (m : M S A) hd s a s' :
  m s = Ok a s' → try_catch m hd s = Ok a s'.
Proof. intros E. unfold try_catch. by rewrite E. Qed.

Lemma try_catch_throw (m : M S A) hd s e s' s'' :
  m s = Throw e s' → hd s' = Ok tt s'' → try_catch m hd s = Throw e s''.
Proof. intros E E'. unfold try_catch. by rewrite E, E'. Qed.

End MonadFacts.

(** ** The heap *)

Section HeapFacts.
Context {T : Type} {ET : Element T}.
Implicit Types (h : heap T) (b pre suf : block T) (x y : T) (l xs : list T).
Implicit Types (p q : ptr) (s : option T) (v : Vector.t).

Lemma blocks_upd_block_eq r b h : blocks (upd_block r b h) !! r = Some b.
Proof. apply lookup_insert_eq. Qed.

Lemma blocks_upd_block_ne r r' b h : r ≠ r' → blocks (upd_block r b h) !! r' = blocks h !! r'.
Proof. intros. by apply lookup_insert_ne. Qed.

Lemma upd_block_same r b h : blocks h !! r = Some b → upd_block r b h = h.
Proof. intros Hb. destruct h as [m lk lim]. unfold upd_block; simpl in *. by rewrite insert_id. Qed.

Lemma upd_block_twice r b b' h : upd_block r b (upd_block r b' h) = upd_block r b h.
Proof. unfold upd_block; simpl. by rewrite insert_insert_eq. Qed.

Lemma upd_block_comm r r' b b' h :
  r ≠ r' → upd_block r b (upd_block r' b' h) = upd_block r' b' (upd_block r b h).
Proof. intros. unfold upd_block; simpl. by rewrite insert_insert_ne. Qed.

Lemma get_slot_mid p h pre s suf :
  blocks h !! base p = Some (pre ++ s :: suf) → N.to_nat (off p) = length pre →
  get_slot p h = Some s.
Proof. intros Hb Ho. unfold get_slot. rewrite Hb, Ho. apply list_lookup_middle. done. Qed.

Lemma set_slot_mid p h pre s s' suf :
  blocks h !! base p = Some (pre ++ s :: suf) → N.to_nat (off p) = length pre →
  set_slot p s' h = upd_block (base p) (pre ++ s' :: suf) h.
Proof.
  intros Hb Ho. unfold set_slot. rewrite Hb, Ho. f_equal.
  replace (length pre) with (length pre + 0)%nat by lia.
  by rewrite insert_app_r.
Qed.

Lemma load_mid p h pre x suf :
  blocks h !! base p = Some (pre ++ Some x :: suf) → N.to_nat (off p) = length pre →
  load p h = Ok x h.
Proof. intros Hb Ho. unfold load. by rewrite (get_slot_mid _ _ _ _ _ Hb Ho). Qed.

Lemma store_mid p h pre x y suf :
  blocks h !! base p = Some (pre ++ Some x :: suf) → N.to_nat (off p) = length pre →
  store p y h = Ok tt (upd_block (base p) (pre ++ Some y :: suf) h).
Proof.
  intros Hb Ho. unfold store.
  by rewrite (get_slot_mid _ _ _ _ _ Hb Ho), (set_slot_mid _ _ _ _ _ _ Hb Ho).
Qed.

Lemma construct_at_mid p h pre x suf :
  blocks h !! base p = Some (pre ++ None :: suf) → N.to_nat (off p) = length pre →
  construct_at p x h = Ok tt (upd_block (base p) (pre ++ Some x :: suf) h).
Proof.
  intros Hb Ho. unfold construct_at.
  by rewrite (get_slot_mid _ _ _ _ _ Hb Ho), (set_slot_mid _ _ _ _ _ _ Hb Ho).
Qed.

Lemma destroy_at_mid p h pre x suf :
  blocks h !! base p = Some (pre ++ Some x :: suf) → N.to_nat (off p) = length pre →
  destroy_at p h = Ok tt (upd_block (base p) (pre ++ None :: suf) h).
Proof.
  intros Hb Ho. unfold destroy_at.
  by rewrite (get_slot_mid _ _ _ _ _ Hb Ho), (set_slot_mid _ _ _ _ _ _ Hb Ho).
Qed.

Lemma live_replicate_None k : live (replicate k (@None T)) = [].
Proof. induction k; simpl; auto. Qed.

Lemma live_app (b1 b2 : block T) : live (b1 ++ b2) = live b1 ++ live b2.
Proof. unfold live. apply omap_app. Qed.


Lemma operator_delete_ok r h (b : block T) :
  r ≠ 0%nat → blocks h !! r = Some b →
  operator_delete (Ptr r 0) h
  = Ok tt (Heap (delete r (blocks h)) (live b ++ leaked h) (limit h)).
Proof.
  intros Hr Hb. unfold operator_delete, ptr_eqb. simpl.
  destruct (Nat.eqb_spec r 0) as [|_]; [done|]. simpl. by rewrite Hb.
Qed.

Lemma operator_delete_null h : operator_delete nullptr h = Ok tt h.
Proof. reflexivity. Qed.

Lemma fresh_block_nonzero h : fresh_block h ≠ 0%nat.
Proof.
  unfold fresh_block. intros E.
  pose proof (is_fresh ({[0%nat]} ∪ dom (blocks h))) as Hf. rewrite E in Hf.
  set_solver.
Qed.

Lemma fresh_block_unused h : blocks h !! fresh_block h = None.
Proof.
  unfold fresh_block.
  pose proof (is_fresh ({[0%nat]} ∪ dom (blocks h))) as Hf.
  apply not_elem_of_dom. set_solver.
Qed.


Lemma same_blocks_upd r (b b' : block T) h :
  blocks h !! r = Some b → length b' = length b → Vector.same_blocks h (upd_block r b' h).
Proof.
  intros Hb Hlen r'. destruct (decide (r = r')) as [<-|Hne].
  - rewrite blocks_upd_block_eq, Hb. simpl. by rewrite Hlen.
  - by rewrite blocks_upd_block_ne.
Qed.

Lemma same_blocks_trans h1 h2 h3 :
  Vector.same_blocks h1 h2 → Vector.same_blocks h2 h3 → Vector.same_blocks h1 h3.
Proof. intros H12 H23 r. by rewrite H23, H12. Qed.

End HeapFacts.

(** Lookups in a heap after updates of blocks. *)
Ltac blk :=
  repeat first
    [ rewrite blocks_upd_block_eq
    | rewrite blocks_upd_block_ne by congruence ].

(** ** Element operations in place *)

Section ElementFacts.
Context {T : Type} {ET : Element T}.
Implicit Types (h : heap T) (b pre suf : block T) (x y : T) (l xs : list T).
Implicit Types (p q : ptr) (s : option T) (v : Vector.t).

Lemma copy_construct_at_ok dst src h sp x ss dp ds :
  base src ≠ base dst →
  blocks h !! base src = Some (sp ++ Some x :: ss) → N.to_nat (off src) = length sp →
  blocks h !! base dst = Some (dp ++ None :: ds) → N.to_nat (off dst) = length dp →
  copy_ctor_throws x = false →
  copy_construct_at dst src h = Ok tt (upd_block (base dst) (dp ++ Some x :: ds) h).
Proof.
  intros Hne Hs Hso Hd Hdo Hx. unfold copy_construct_at.
  erewrite bind_ok by (eapply load_mid; eauto). rewrite Hx.
  eapply construct_at_mid; eauto.
Qed.

Lemma copy_construct_at_throw dst src h sp x ss :
  blocks h !! base src = Some (sp ++ Some x :: ss) → N.to_nat (off src) = length sp →
  copy_ctor_throws x = true →
  copy_construct_at dst src h = Throw element_error h.
Proof.
  intros Hs Hso Hx. unfold copy_construct_at.
  erewrite bind_ok by (eapply load_mid; eauto). by rewrite Hx.
Qed.

Lemma move_construct_at_ok dst src h sp x ss dp ds :
  base src ≠ base dst →
  blocks h !! base src = Some (sp ++ Some x :: ss) → N.to_nat (off src) = length sp →
  blocks h !! base dst = Some (dp ++ None :: ds) → N.to_nat (off dst) = length dp →
  move_ctor_throws x = false →
  move_construct_at dst src h
  = Ok tt (upd_block (base src) (sp ++ Some (moved_from x) :: ss)
             (upd_block (base dst) (dp ++ Some x :: ds) h)).
Proof.
  intros Hne Hs Hso Hd Hdo Hx. unfold move_construct_at.
  erewrite bind_ok by (eapply load_mid; eauto). rewrite Hx.
  erewrite bind_ok by (eapply construct_at_mid; eauto).
  eapply store_mid; eauto. by rewrite blocks_upd_block_ne.
Qed.

Lemma move_construct_at_up dst src h pre z suf :
  base dst = base src →
  blocks h !! base src = Some (pre ++ Some z :: None :: suf) →
  N.to_nat (off src) = length pre → N.to_nat (off dst) = S (length pre) →
  move_ctor_throws z = false →
  move_construct_at dst src h
  = Ok tt (upd_block (base src) (pre ++ Some (moved_from z) :: Some z :: suf) h).
Proof.
  intros Hbase Hb Hs Hd Hz. unfold move_construct_at.
  erewrite bind_ok by (eapply load_mid; eauto). rewrite Hz.
  erewrite bind_ok; last first.
  { eapply (construct_at_mid dst h (pre ++ [Some z]) z suf).
    - rewrite Hbase, Hb. by rewrite <- (assoc_L (++)).
    - rewrite length_app. simpl. lia. }
  rewrite Hbase, <- (assoc_L (++)). simpl.
  erewrite (store_mid src _ pre z (moved_from z)); [|by blk|done].
  by rewrite upd_block_twice.
Qed.

Lemma copy_assign_at_ok dst src h sp x ss dp d ds :
  base src ≠ base dst →
  blocks h !! base src = Some (sp ++ Some x :: ss) → N.to_nat (off src) = length sp →
  blocks h !! base dst = Some (dp ++ Some d :: ds) → N.to_nat (off dst) = length dp →
  copy_assign_throws d x = false →
  copy_assign_at dst src h = Ok tt (upd_block (base dst) (dp ++ Some x :: ds) h).
Proof.
  intros Hne Hs Hso Hd Hdo Hx. unfold copy_assign_at.
  erewrite bind_ok by (eapply load_mid; eauto).
  erewrite bind_ok by (eapply load_mid; eauto). rewrite Hx.
  eapply store_mid; eauto.
Qed.

Lemma move_assign_at_adjacent p h pre d x suf :
  blocks h !! base p = Some (pre ++ Some d :: Some x :: suf) →
  N.to_nat (off p) = length pre →
  move_assign_at p (ptr_add p 1) h
  = if move_assign_throws d x then Throw element_error h
    else Ok tt (upd_block (base p) (pre ++ Some x :: Some (moved_from x) :: suf) h).
Proof.
  intros Hb Ho. unfold move_assign_at.
  erewrite bind_ok; last first.
  { eapply (load_mid (ptr_add p 1) h (pre ++ [Some d]) x suf); cbn [base off ptr_add].
    - by rewrite <- (assoc_L (++)).
    - rewrite length_app. simpl. lia. }
  erewrite bind_ok by (eapply load_mid; eauto).
  destruct (move_assign_throws d x); [done|].
  erewrite bind_ok by (eapply store_mid; eauto).
  erewrite (store_mid (ptr_add p 1) _ (pre ++ [Some x]) x (moved_from x) suf);
    cbn [base off ptr_add].
  - rewrite upd_block_twice. by rewrite <- (assoc_L (++)).
  - rewrite blocks_upd_block_eq. by rewrite <- (assoc_L (++)).
  - rewrite length_app. simpl. lia.
Qed.

Lemma move_assign_at_up dst src h pre y d suf :
  base dst = base src →
  blocks h !! base src = Some (pre ++ Some y :: Some d :: suf) →
  N.to_nat (off src) = length pre → N.to_nat (off dst) = S (length pre) →
  move_assign_throws d y = false →
  move_assign_at dst src h
  = Ok tt (upd_block (base src) (pre ++ Some (moved_from y) :: Some y :: suf) h).
Proof.
  intros Hbase Hb Hs Hd Hy. unfold move_assign_at.
  erewrite bind_ok by (eapply load_mid; eauto).
  erewrite bind_ok; last first.
  { eapply (load_mid dst h (pre ++ [Some y]) d suf).
    - rewrite Hbase, Hb. by rewrite <- (assoc_L (++)).
    - rewrite length_app. simpl. lia. }
  rewrite Hy.
  erewrite bind_ok; last first.
  { eapply (store_mid dst h (pre ++ [Some y]) d y suf).
    - rewrite Hbase, Hb. by rewrite <- (assoc_L (++)).
    - rewrite length_app. simpl. lia. }
  rewrite Hbase, <- (assoc_L (++)). simpl.
  erewrite (store_mid src _ pre y (moved_from y)); [|by blk|done].
  by rewrite upd_block_twice.
Qed.

Lemma emplace_construct_at_ok p h pre suf (a : ctor_args T) :
  blocks h !! base p = Some (pre ++ None :: suf) → N.to_nat (off p) = length pre →
  args_throws a = false →
  emplace_construct_at p a h = Ok tt (upd_block (base p) (pre ++ Some (args_value a) :: suf) h).
Proof.
  intros Hb Ho Ha. unfold emplace_construct_at.
  destruct a as [x|x]; simpl in Ha; rewrite Ha; simpl; by eapply construct_at_mid.
Qed.

Lemma emplace_construct_at_throw p h (a : ctor_args T) :
  args_throws a = true →
  emplace_construct_at p a h = Fault ∨ emplace_construct_at p a h = Throw element_error h.
Proof.
  intros Ha. unfold emplace_construct_at.
  destruct a as [x|x]; simpl in Ha; rewrite Ha; [by right|].
  destruct is_nothrow_move_constructible; [by left|by right].
Qed.

End ElementFacts.

(** ** The algorithms *)

Section AlgorithmFacts.
Context {T : Type} {ET : Element T}.
Implicit Types (h : heap T) (b pre suf : block T) (x y : T) (l xs : list T).
Implicit Types (p q : ptr) (s : option T) (v : Vector.t).

Lemma first_throw (f : T → bool) l :
  Forall (λ x, f x = false) l ∨
  ∃ xs1 x xs2, l = xs1 ++ x :: xs2 ∧ Forall (λ x, f x = false) xs1 ∧ f x = true.
Proof.
  induction l as [|a l [IH|(xs1 & x & xs2 & -> & Hok & Hx)]].
  - by left.
  - destruct (f a) eqn:Ha.
    + right. by exists [], a, l.
    + left. by constructor.
  - destruct (f a) eqn:Ha.
    + right. by exists [], a, (xs1 ++ x :: xs2).
    + right. exists (a :: xs1), x, xs2. split; [done|]. split; [by constructor|done].
Qed.

Lemma destroy_loop_ok xs : ∀ p h pre suf,
  blocks h !! base p = Some (pre ++ map Some xs ++ suf) →
  N.to_nat (off p) = length pre →
  destroy_loop (length xs) p h
  = Ok tt (upd_block (base p) (pre ++ replicate (length xs) None ++ suf) h).
Proof.
  induction xs as [|x xs IH]; intros p h pre suf Hb Ho; simpl.
  - unfold ret. by rewrite upd_block_same.
  - simpl in Hb. erewrite bind_ok by (eapply destroy_at_mid; eauto).
    erewrite (IH _ _ (pre ++ [None]) suf).
    + cbn [base ptr_add]. rewrite upd_block_twice. by rewrite <- !(assoc_L (++)).
    + cbn [base ptr_add]. rewrite blocks_upd_block_eq. by rewrite <- !(assoc_L (++)).
    + cbn [off ptr_add]. rewrite length_app. simpl. lia.
Qed.

Lemma destroy_n_ok r (o n : N) h xs pre suf :
  n = N.of_nat (length xs) →
  blocks h !! r = Some (pre ++ map Some xs ++ suf) → N.to_nat o = length pre →
  destroy_n (Ptr r o) n h = Ok tt (upd_block r (pre ++ replicate (length xs) None ++ suf) h).
Proof.
  intros -> Hb Ho. unfold destroy_n. rewrite Nat2N.id.
  by eapply (destroy_loop_ok xs (Ptr r o)).
Qed.

Lemma uninitialized_copy_loop_ok xs : ∀ first cur result h sp ss dp ds,
  base first ≠ base cur →
  blocks h !! base first = Some (sp ++ map Some xs ++ ss) →
  N.to_nat (off first) = length sp →
  blocks h !! base cur = Some (dp ++ replicate (length xs) None ++ ds) →
  N.to_nat (off cur) = length dp →
  Forall (λ x, copy_ctor_throws x = false) xs →
  uninitialized_copy_loop (length xs) first cur result h
  = Ok tt (upd_block (base cur) (dp ++ map Some xs ++ ds) h).
Proof.
  induction xs as [|x xs IH]; intros first cur result h sp ss dp ds Hne Hs Hso Hd Hdo Hok; simpl.
  - unfold ret. by rewrite upd_block_same.
  - simpl in Hs, Hd. inversion Hok as [|? ? Hx Hok']; subst.
    erewrite bind_ok; last first.
    { apply try_catch_ok. eapply copy_construct_at_ok; eauto. }
    erewrite (IH _ _ _ _ (sp ++ [Some x]) ss (dp ++ [Some x]) ds); cbn [base off ptr_add]; eauto.
    + rewrite upd_block_twice. by rewrite <- !(assoc_L (++)).
    + rewrite blocks_upd_block_ne by done. by rewrite <- !(assoc_L (++)).
    + rewrite length_app. simpl. lia.
    + rewrite blocks_upd_block_eq. by rewrite <- !(assoc_L (++)).
    + rewrite length_app. simpl. lia.
Qed.

Lemma uninitialized_copy_loop_throw xs1 : ∀ k x first cur result h sp ss dp done ds,
  base first ≠ base cur → base result = base cur →
  blocks h !! base first = Some (sp ++ map Some (xs1 ++ [x]) ++ ss) →
  N.to_nat (off first) = length sp →
  blocks h !! base cur = Some (dp ++ map Some done ++ replicate (length xs1) None ++ ds) →
  N.to_nat (off result) = length dp →
  off cur = off result + N.of_nat (length done) →
  off result + N.of_nat (length done + length xs1) < size_max →
  Forall (λ x, copy_ctor_throws x = false) xs1 → copy_ctor_throws x = true →
  uninitialized_copy_loop (length xs1 + S k) first cur result h
  = Throw element_error
      (upd_block (base cur) (dp ++ replicate (length done + length xs1) None ++ ds) h).
Proof.
  induction xs1 as [|y xs1 IH];
    intros k x first cur result h sp ss dp done ds Hne Hres Hs Hso Hd Hro Hco Hmax Hok Hx; simpl.
  - simpl in Hs, Hd. erewrite bind_throw; [done|].
    eapply try_catch_throw.
    + eapply copy_construct_at_throw; eauto.
    + unfold destroy_range, destroy_n, ptr_diff.
      rewrite sub_sz_small by lia.
      replace (N.to_nat (off cur - off result)) with (length done) by lia.
      rewrite Nat.add_0_r. rewrite <- Hres.
      eapply destroy_loop_ok; [|done]. by rewrite Hres.
  - simpl in Hs, Hd. inversion Hok as [|? ? Hy Hok']; subst.
    erewrite bind_ok; last first.
    { apply try_catch_ok.
      eapply (copy_construct_at_ok cur first h sp y _ (dp ++ map Some done)); eauto.
      - by rewrite <- (assoc_L (++)).
      - rewrite length_app, length_map. lia. }
    simpl in Hmax.
    erewrite (IH k x _ _ result _ (sp ++ [Some y]) ss dp (done ++ [y]) ds);
      cbn [base off ptr_add]; eauto.
    + rewrite upd_block_twice. rewrite length_app. simpl.
      by replace (length done + 1 + length xs1)%nat
        with (length done + S (length xs1))%nat by lia.
    + rewrite blocks_upd_block_ne by done. by rewrite <- !(assoc_L (++)).
    + rewrite length_app. simpl. lia.
    + rewrite blocks_upd_block_eq. rewrite map_app. simpl.
      by rewrite <- !(assoc_L (++)).
    + rewrite length_app. simpl. lia.
    + rewrite length_app. simpl. lia.
Qed.

Lemma uninitialized_copy_n_ok rr rv (os od n : N) h xs sp ss dp ds :
  n = N.of_nat (length xs) →
  (xs ≠ [] → rr ≠ rv ∧ blocks h !! rr = Some (sp ++ map Some xs ++ ss)
             ∧ N.to_nat os = length sp) →
  blocks h !! rv = Some (dp ++ replicate (length xs) None ++ ds) →
  N.to_nat od = length dp →
  Forall (λ x, copy_ctor_throws x = false) xs →
  uninitialized_copy_n (Ptr rr os) n (Ptr rv od) h
  = Ok tt (upd_block rv (dp ++ map Some xs ++ ds) h).
Proof.
  intros -> Hsrc Hdst Hod Hok. unfold uninitialized_copy_n. rewrite Nat2N.id.
  destruct xs as [|x xs].
  - simpl. unfold ret. by rewrite upd_block_same.
  - destruct Hsrc as (Hne & Hs & Hos); [done|].
    eapply (uninitialized_copy_loop_ok (x :: xs) (Ptr rr os) (Ptr rv od)); eauto.
Qed.

Lemma uninitialized_move_loop_ok xs : ∀ first cur result h sp ss dp ds,
  base first ≠ base cur →
  blocks h !! base first = Some (sp ++ map Some xs ++ ss) →
  N.to_nat (off first) = length sp →
  blocks h !! base cur = Some (dp ++ replicate (length xs) None ++ ds) →
  N.to_nat (off cur) = length dp →
  Forall (λ x, move_ctor_throws x = false) xs →
  uninitialized_move_loop (length xs) first cur result h
  = Ok tt (upd_block (base first) (sp ++ map (Some ∘ moved_from) xs ++ ss)
             (upd_block (base cur) (dp ++ map Some xs ++ ds) h)).
Proof.
  induction xs as [|x xs IH]; intros first cur result h sp ss dp ds Hne Hs Hso Hd Hdo Hok; simpl.
  - unfold ret. simpl in *. rewrite (upd_block_same (base cur)) by done.
    by rewrite upd_block_same.
  - simpl in Hs, Hd. inversion Hok as [|? ? Hx Hok']; subst.
    erewrite bind_ok; last first.
    { apply try_catch_ok. eapply move_construct_at_ok; eauto. }
    erewrite (IH _ _ _ _ (sp ++ [Some (moved_from x)]) ss (dp ++ [Some x]) ds);
      cbn [base off ptr_add]; eauto.
    + assert (base cur ≠ base first) as Hne' by congruence.
      rewrite (upd_block_comm (base cur) (base first)) by done.
      rewrite !upd_block_twice.
      by rewrite <- !(assoc_L (++)).
    + rewrite blocks_upd_block_eq. by rewrite <- !(assoc_L (++)).
    + rewrite length_app. simpl. lia.
    + rewrite blocks_upd_block_ne, blocks_upd_block_eq by done. by rewrite <- !(assoc_L (++)).
    + rewrite length_app. simpl. lia.
Qed.

Lemma copy_loop_ok xs : ∀ olds first d_first h sp ss dp ds,
  base first ≠ base d_first →
  blocks h !! base first = Some (sp ++ map Some xs ++ ss) →
  N.to_nat (off first) = length sp →
  blocks h !! base d_first = Some (dp ++ map Some olds ++ ds) →
  N.to_nat (off d_first) = length dp →
  Forall2 (λ d x, copy_assign_throws d x = false) olds xs →
  copy_loop (length xs) first d_first h
  = Ok tt (upd_block (base d_first) (dp ++ map Some xs ++ ds) h).
Proof.
  induction xs as [|x xs IH]; intros olds first d_first h sp ss dp ds Hne Hs Hso Hd Hdo Hok; simpl.
  - inversion Hok; subst. unfold ret. by rewrite upd_block_same.
  - inversion Hok as [|d ? olds' ? Hx Hok']; subst. simpl in Hs, Hd.
    erewrite bind_ok by (eapply copy_assign_at_ok; eauto).
    erewrite (IH olds' _ _ _ (sp ++ [Some x]) ss (dp ++ [Some x]) ds);
      cbn [base off ptr_add]; eauto.
    + rewrite upd_block_twice. by rewrite <- !(assoc_L (++)).
    + rewrite blocks_upd_block_ne by done. by rewrite <- !(assoc_L (++)).
    + rewrite length_app. simpl. lia.
    + rewrite blocks_upd_block_eq. by rewrite <- !(assoc_L (++)).
    + rewrite length_app. simpl. lia.
Qed.

Lemma std_copy_ok rr rv h olds xs ss rest (n : N) :
  n = N.of_nat (length xs) → n < size_max →
  (xs ≠ [] → rr ≠ rv ∧ blocks h !! rr = Some (map Some xs ++ ss)) →
  blocks h !! rv = Some (map Some olds ++ rest) →
  Forall2 (λ d x, copy_assign_throws d x = false) olds xs →
  std_copy (Ptr rr 0) (ptr_add (Ptr rr 0) n) (Ptr rv 0) h
  = Ok tt (upd_block rv (map Some xs ++ rest) h).
Proof.
  intros -> Hmax Hsrc Hdst Hok. unfold std_copy.
  rewrite ptr_leb_add. erewrite bind_ok by reflexivity.
  rewrite ptr_diff_add by (simpl; lia). rewrite Nat2N.id.
  destruct xs as [|x xs].
  - inversion Hok; subst. simpl. unfold ret. by rewrite upd_block_same.
  - destruct Hsrc as [Hne Hs]; [done|].
    eapply (copy_loop_ok (x :: xs) olds (Ptr rr 0) (Ptr rv 0) h [] ss [] rest); eauto.
Qed.

Lemma std_copy_nil p q h : off p < size_max → std_copy p (ptr_add p 0) q h = Ok tt h.
Proof.
  intros Hp. unfold std_copy. rewrite ptr_leb_add. erewrite bind_ok by reflexivity.
  rewrite ptr_diff_add by lia. done.
Qed.

Lemma move_loop_down xs : ∀ d pre suf p h,
  blocks h !! base p = Some (pre ++ Some d :: map Some xs ++ suf) →
  N.to_nat (off p) = length pre →
  ∃ ys, length ys = S (length xs) ∧
    ((Vector.shift_down_throws d xs = false ∧ (∃ z, ys = xs ++ [z]) ∧
      move_loop (length xs) (ptr_add p 1) p h
      = Ok tt (upd_block (base p) (pre ++ map Some ys ++ suf) h))
     ∨ (Vector.shift_down_throws d xs = true ∧
        move_loop (length xs) (ptr_add p 1) p h
        = Throw element_error (upd_block (base p) (pre ++ map Some ys ++ suf) h))).
Proof.
  induction xs as [|x xs IH]; intros d pre suf p h Hb Ho.
  - exists [d]. split; [done|]. left. split; [done|]. split; [by exists d|].
    simpl. unfold ret. by rewrite upd_block_same.
  - simpl in Hb. cbn [length Vector.shift_down_throws].
    set (h1 := upd_block (base p)
                 (pre ++ Some x :: Some (moved_from x) :: map Some xs ++ suf) h).
    assert (move_loop (S (length xs)) (ptr_add p 1) p h
            = if move_assign_throws d x then Throw element_error h
              else move_loop (length xs) (ptr_add (ptr_add p 1) 1) (ptr_add p 1) h1) as ->.
    { cbn [move_loop]. unfold bind.
      rewrite (move_assign_at_adjacent p h pre d x _ Hb Ho).
      by destruct (move_assign_throws d x). }
    destruct (move_assign_throws d x) eqn:Hthrow.
    + exists (d :: x :: xs). split; [simpl; done|]. right. split; [done|].
      simpl. by rewrite upd_block_same.
    + subst h1. destruct (IH (moved_from x) (pre ++ [Some x]) suf (ptr_add p 1)
                  (upd_block (base p) (pre ++ Some x :: Some (moved_from x) :: map Some xs ++ suf) h))
        as (ys & Hlen & Hcases).
      { cbn [base ptr_add]. rewrite blocks_upd_block_eq. by rewrite <- (assoc_L (++)). }
      { cbn [off ptr_add]. rewrite length_app. simpl. lia. }
      cbn [base ptr_add] in Hcases. rewrite upd_block_twice in Hcases.
      rewrite <- (assoc_L (++)) in Hcases. simpl in Hcases.
      exists (x :: ys). split; [simpl; lia|]. simpl.
      destruct Hcases as [(Hno & [z ->] & Heq)|(Hyes & Heq)].
      * left. split; [done|]. split; [by exists z|]. done.
      * right. split; [done|]. done.
Qed.

Lemma std_move_down p last h d xs pre suf :
  blocks h !! base p = Some (pre ++ Some d :: map Some xs ++ suf) →
  N.to_nat (off p) = length pre →
  base last = base p → off last = off p + 1 + N.of_nat (length xs) → off last < size_max →
  ∃ ys, length ys = S (length xs) ∧
    ((Vector.shift_down_throws d xs = false ∧ (∃ z, ys = xs ++ [z]) ∧
      std_move (ptr_add p 1) last p h
      = Ok tt (upd_block (base p) (pre ++ map Some ys ++ suf) h))
     ∨ (Vector.shift_down_throws d xs = true ∧
        std_move (ptr_add p 1) last p h
        = Throw element_error (upd_block (base p) (pre ++ map Some ys ++ suf) h))).
Proof.
  intros Hb Ho Hbase Hoff Hmax.
  assert (∀ m, std_move (ptr_add p 1) last p h = m →
               move_loop (length xs) (ptr_add p 1) p h = m) as Heq.
  { intros m <-. unfold std_move, ptr_leb. cbn [base off ptr_add]. rewrite Hbase, Nat.eqb_refl.
    destruct (N.leb_spec (off p + 1) (off last)) as [_|]; [|lia]. simpl.
    erewrite bind_ok by reflexivity.
    unfold ptr_diff. cbn [base off ptr_add]. rewrite sub_sz_small by lia.
    by replace (N.to_nat (off last - (off p + 1))) with (length xs) by lia. }
  destruct (move_loop_down xs d pre suf p h Hb Ho) as (ys & Hlen & Hcases).
  exists ys. split; [done|].
  assert (std_move (ptr_add p 1) last p h = move_loop (length xs) (ptr_add p 1) p h) as ->.
  { symmetry. by apply Heq. }
  done.
Qed.

Lemma move_backward_loop_up xs : ∀ d pre suf r (o o' : N) h,
  (∀ d y, move_assign_throws d y = false) →
  blocks h !! r = Some (pre ++ map Some xs ++ Some d :: suf) →
  N.to_nat o = (length pre + length xs)%nat → o' = o + 1 →
  ∃ w, move_backward_loop (length xs) (Ptr r o) (Ptr r o') h
       = Ok tt (upd_block r (pre ++ Some w :: map Some xs ++ suf) h).
Proof.
  induction xs as [|y xs IH] using rev_ind; intros d pre suf r o o' h Hnt Hb Ho Ho'.
  - exists d. simpl. unfold ret. by rewrite upd_block_same.
  - rewrite length_app in *. simpl length in *.
    replace (length xs + 1)%nat with (S (length xs)) by lia.
    rewrite map_app, <- (assoc_L (++)) in Hb. simpl in Hb.
    cbn [move_backward_loop].
    erewrite bind_ok; last first.
    { eapply (move_assign_at_up _ _ h (pre ++ map Some xs) y d suf);
        unfold ptr_pred; cbn [base off]; try done.
      - by rewrite <- (assoc_L (++)).
      - rewrite length_app, length_map. lia.
      - rewrite length_app, length_map. lia. }
    unfold ptr_pred. cbn [base off].
    destruct (IH (moved_from y) pre (Some y :: suf) r (o - 1) (o' - 1)
                (upd_block r ((pre ++ map Some xs) ++ Some (moved_from y) :: Some y :: suf) h))
      as (w & Heq); try done.
    + blk. by rewrite <- (assoc_L (++)).
    + lia.
    + lia.
    + exists w. rewrite Heq. rewrite upd_block_twice.
      by rewrite map_app, <- !(assoc_L (++)).
Qed.

Lemma std_move_backward_up r (i size : N) h xs d pre suf :
  (∀ d y, move_assign_throws d y = false) →
  blocks h !! r = Some (pre ++ map Some xs ++ Some d :: suf) →
  N.to_nat i = length pre → N.to_nat size = (length pre + length xs)%nat →
  size + 1 < size_max →
  ∃ w, std_move_backward (Ptr r i) (Ptr r size) (Ptr r (size + 1)) h
       = Ok tt (upd_block r (pre ++ Some w :: map Some xs ++ suf) h).
Proof.
  intros Hnt Hb Hi Hsize Hmax.
  destruct (move_backward_loop_up xs d pre suf r size (size + 1) h Hnt Hb Hsize eq_refl)
    as (w & Heq).
  exists w. unfold std_move_backward. rewrite ptr_leb_same.
  destruct (N.leb_spec i size) as [_|]; [|lia].
  erewrite bind_ok by reflexivity.
  rewrite ptr_diff_same by lia.
  by replace (N.to_nat (size - i)) with (length xs) by lia.
Qed.

End AlgorithmFacts.

(** ** Allocation, the class invariant and the relocation policy *)

Section InvariantFacts.
Context {T : Type} {ET : Element T}.
Implicit Types (h : heap T) (b pre suf : block T) (x y : T) (l xs : list T).
Implicit Types (p q : ptr) (s : option T) (v : Vector.t).

Lemma lift_ok {A} (m : M (heap T) A) v h a h' :
  m h = Ok a h' → Vector.lift m (Vector.State v h) = Ok a (Vector.State v h').
Proof. intros E. unfold Vector.lift. simpl. by rewrite E. Qed.

Lemma lift_throw {A} (m : M (heap T) A) v h e h' :
  m h = Throw e h' → Vector.lift m (Vector.State v h) = Throw e (Vector.State v h').
Proof. intros E. unfold Vector.lift. simpl. by rewrite E. Qed.

Lemma fits_size_t (n : N) : n * N.pos sizeof_T < size_max → n < size_max.
Proof.
  intros Hlt. eapply N.le_lt_trans; [|exact Hlt].
  rewrite <- (N.mul_1_r n) at 1. apply N.mul_le_mono_l. lia.
Qed.

Lemma grants_size_t h n : Vector.grants h n → n < size_max.
Proof. intros [Hlt _]. by apply fits_size_t. Qed.



Lemma Allocate_ok h n :
  n ≠ 0 → Vector.grants h n →
  RawMemory.Allocate n h
  = Ok (Ptr (fresh_block h) 0) (upd_block (fresh_block h) (replicate (N.to_nat n) None) h).
Proof.
  intros Hn [Hlt Hle]. unfold RawMemory.Allocate.
  destruct (N.eqb_spec n 0) as [|_]; [done|]. simpl.
  unfold operator_new. rewrite wrap_small by done.
  destruct (N.leb_spec (n * N.pos sizeof_T) (limit h)) as [_|]; [|lia].
  rewrite N.div_mul by done. done.
Qed.

Lemma grown_wrap (size : N) :
  Vector.grown size < size_max →
  (if size =? 0 then 1 else wrap (size * 2)) = Vector.grown size.
Proof.
  unfold Vector.grown. destruct (N.eqb_spec size 0); [done|]. intros. by rewrite wrap_small.
Qed.

Lemma repr_frame v h h' l :
  Vector.repr v h l →
  (RawMemory.capacity_ (Vector.data_ v) ≠ 0 →
   blocks h' !! base (RawMemory.buffer_ (Vector.data_ v))
   = blocks h !! base (RawMemory.buffer_ (Vector.data_ v))) →
  Vector.repr v h' l.
Proof.
  unfold Vector.repr. cbn zeta. intros (Hsize & Hle & Hcap & Hbuf) Hfr.
  repeat split; try done.
  destruct (N.eqb_spec (RawMemory.capacity_ (Vector.data_ v)) 0) as [|Hc]; [done|].
  destruct Hbuf as (? & ? & Hb). repeat split; try done. by rewrite Hfr.
Qed.

Lemma repr_block v h l :
  Vector.repr v h l → RawMemory.capacity_ (Vector.data_ v) ≠ 0 →
  off (RawMemory.buffer_ (Vector.data_ v)) = 0 ∧
  base (RawMemory.buffer_ (Vector.data_ v)) ≠ 0%nat ∧
  blocks h !! base (RawMemory.buffer_ (Vector.data_ v))
  = Some (map Some l ++ replicate (N.to_nat (RawMemory.capacity_ (Vector.data_ v)) - length l) None).
Proof.
  intros (_ & _ & _ & Hb) Hc.
  by destruct (N.eqb_spec (RawMemory.capacity_ (Vector.data_ v)) 0).
Qed.

Lemma repr_intro r (cap size : N) h l :
  size = N.of_nat (length l) → size ≤ cap → cap * N.pos sizeof_T < size_max →
  cap ≠ 0 → r ≠ 0%nat →
  blocks h !! r = Some (map Some l ++ replicate (N.to_nat cap - length l) None) →
  Vector.repr (Vector.Make (RawMemory.Make (Ptr r 0) cap) size) h l.
Proof.
  intros Hsz Hle Hfit Hc Hr Hb. unfold Vector.repr. vsimpl.
  repeat split; try done. by destruct (N.eqb_spec cap 0).
Qed.

Lemma repr_fits v h l :
  Vector.repr v h l → RawMemory.capacity_ (Vector.data_ v) * N.pos sizeof_T < size_max.
Proof. by intros (_ & _ & ? & _). Qed.

Lemma repr_null v h l :
  Vector.repr v h l → RawMemory.capacity_ (Vector.data_ v) = 0 →
  RawMemory.buffer_ (Vector.data_ v) = nullptr ∧ l = [] ∧ Vector.size_ v = 0.
Proof.
  intros (Hsz & Hle & _ & Hb) Hc. cbn zeta in *. rewrite Hc in *. simpl in Hb.
  split; [done|]. destruct l; [split; [done|lia]|simpl in *; lia].
Qed.

Lemma repr_buffer_off v h l : Vector.repr v h l → off (RawMemory.buffer_ (Vector.data_ v)) = 0.
Proof.
  intros Hv. destruct (N.eq_dec (RawMemory.capacity_ (Vector.data_ v)) 0) as [Hc|Hc].
  - by destruct (repr_null _ _ _ Hv Hc) as (-> & _).
  - by destruct (repr_block _ _ _ Hv Hc) as (? & _).
Qed.

Lemma repr_size v h l : Vector.repr v h l → Vector.size_ v = N.of_nat (length l).
Proof. by intros (? & _). Qed.

Lemma repr_capacity v h l :
  Vector.repr v h l →
  Vector.size_ v ≤ RawMemory.capacity_ (Vector.data_ v) ∧
  RawMemory.capacity_ (Vector.data_ v) < size_max.
Proof. intros (_ & ? & ?%fits_size_t & _). done. Qed.

Lemma repr_default h : Vector.repr Vector.default h [].
Proof. unfold Vector.repr. simpl. repeat split; try done. Qed.

Lemma relocation_succeeds_app xs ys :
  Vector.relocation_succeeds (xs ++ ys) →
  Vector.relocation_succeeds xs ∧ Vector.relocation_succeeds ys.
Proof.
  unfold Vector.relocation_succeeds.
  destruct (is_nothrow_move_constructible || negb is_copy_constructible);
    by intros ?%Forall_app.
Qed.

(** The two relocation policies have the same effect on the destination;
    only the state left in the source differs. *)
Lemma relocate_ok rs rd (os od n : N) h xs sp ss dp ds :
  n = N.of_nat (length xs) → rs ≠ rd →
  blocks h !! rs = Some (sp ++ map Some xs ++ ss) → N.to_nat os = length sp →
  blocks h !! rd = Some (dp ++ replicate (length xs) None ++ ds) → N.to_nat od = length dp →
  Vector.relocation_succeeds xs →
  ∃ xs', length xs' = length xs ∧
    (if is_nothrow_move_constructible || negb is_copy_constructible
     then uninitialized_move_n (Ptr rs os) n (Ptr rd od)
     else uninitialized_copy_n (Ptr rs os) n (Ptr rd od)) h
    = Ok tt (upd_block rs (sp ++ map Some xs' ++ ss)
               (upd_block rd (dp ++ map Some xs ++ ds) h)).
Proof.
  intros -> Hne Hs Hos Hd Hod Hrel. unfold Vector.relocation_succeeds in Hrel.
  unfold uninitialized_move_n, uninitialized_copy_n. rewrite Nat2N.id.
  destruct (is_nothrow_move_constructible || negb is_copy_constructible).
  - exists (map moved_from xs). split; [by rewrite length_map|].
    rewrite map_map.
    by eapply (uninitialized_move_loop_ok xs (Ptr rs os) (Ptr rd od)).
  - exists xs. split; [done|].
    rewrite (upd_block_same rs); [|by rewrite blocks_upd_block_ne].
    by eapply (uninitialized_copy_loop_ok xs (Ptr rs os) (Ptr rd od)).
Qed.

Lemma never_throws_relocation l : never_throws → Vector.relocation_succeeds l.
Proof.
  intros (Hc & Hm & _). unfold Vector.relocation_succeeds.
  destruct (is_nothrow_move_constructible || negb is_copy_constructible);
    apply Forall_forall; auto.
Qed.

Lemma never_throws_args (a : ctor_args T) : never_throws → args_throws a = false.
Proof. intros (Hc & Hm & _). destruct a; simpl; auto. Qed.


Lemma last_moved_from_snoc l z : Vector.last_moved_from (l ++ [z]) = l ++ [moved_from z].
Proof. unfold Vector.last_moved_from. by rewrite reverse_snoc, reverse_involutive. Qed.

Lemma length_last_moved_from l : length (Vector.last_moved_from l) = length l.
Proof.
  destruct l as [|z l _] using rev_ind; [done|].
  rewrite last_moved_from_snoc. by rewrite !length_app.
Qed.



End InvariantFacts.

(** ** Reserve *)

Section ReserveFacts.
Context {T : Type} {ET : Element T}.
Implicit Types (h : heap T) (b pre suf : block T) (x y : T) (l xs : list T).
Implicit Types (p q : ptr) (s : option T) (v : Vector.t).

Lemma Reserve_noop v h n :
  n ≤ Vector.Capacity v → Vector.Reserve n (Vector.State v h) = Ok tt (Vector.State v h).
Proof.
  intros Hn. unfold Vector.Reserve, bind, Vector.this. vsimpl. vsimpl in Hn.
  destruct (N.leb_spec n (RawMemory.capacity_ (Vector.data_ v))); [done|lia].
Qed.

Lemma Reserve_grows v h l n :
  Vector.repr v h l → Vector.Capacity v < n → Vector.grants h n →
  Vector.relocation_succeeds l →
  ∃ h',
    Vector.Reserve n (Vector.State v h)
    = Ok tt (Vector.State (Vector.Make (RawMemory.Make (Ptr (fresh_block h) 0) n) (Vector.size_ v)) h')
    ∧ Vector.repr (Vector.Make (RawMemory.Make (Ptr (fresh_block h) 0) n) (Vector.size_ v)) h' l
    ∧ leaked h' = leaked h
    ∧ (Vector.Capacity v ≠ 0 →
       blocks h' !! base (RawMemory.buffer_ (Vector.data_ v)) = None)
    ∧ (∀ r0, r0 ≠ base (RawMemory.buffer_ (Vector.data_ v)) → r0 ≠ fresh_block h →
       blocks h' !! r0 = blocks h !! r0).
Proof.
  destruct v as [[[r o] cap] size]. unfold Vector.repr. vsimpl.
  intros (Hsize & Hle & Hcap%fits_size_t & Hbuf) Hn Hg Hrel.
  assert (n ≠ 0) as Hn0 by lia.
  pose proof (grants_size_t _ _ Hg) as Hnmax.
  pose proof (fresh_block_nonzero h) as Hf0.
  pose proof (fresh_block_unused h) as Hfu.
  set (r' := fresh_block h) in *.
  unfold Vector.Reserve.
  erewrite bind_ok by reflexivity. vsimpl.
  destruct (N.leb_spec n cap) as [|_]; [lia|].
  unfold RawMemory.ctor.
  erewrite bind_ok; last first.
  { apply lift_ok. erewrite bind_ok by (by apply Allocate_ok). reflexivity. }
  fold r'. set (h1 := upd_block r' (replicate (N.to_nat n) None) h).
  vsimpl. unfold uninitialized_move_n, uninitialized_copy_n, destroy_n.
  assert (N.to_nat size = length l) as Hsz by lia. rewrite Hsz.
  unfold RawMemory.Swap, Vector.set_data, RawMemory.dtor, RawMemory.Deallocate. vsimpl.
  destruct (N.eqb_spec cap 0) as [Hc0|Hc0].
  - (* the empty vector without storage *)
    assert (l = []) as -> by (destruct l; [done|simpl in *; lia]).
    injection Hbuf as -> ->.
    exists h1. split; [|split; [|split; [|split]]].
    + simpl. by destruct (is_nothrow_move_constructible || negb is_copy_constructible).
    + repeat split; try done; try lia; try apply Hg. vsimpl.
      destruct (N.eqb_spec n 0) as [|_]; [done|].
      repeat split; try done. unfold h1. rewrite blocks_upd_block_eq.
      simpl. do 2 f_equal. lia.
    + done.
    + done.
    + intros r0 _ Hne0. unfold h1. by rewrite blocks_upd_block_ne.
  - destruct Hbuf as (-> & Hr0 & Hb).
    assert (r ≠ r') as Hrr by congruence.
    assert (r' ≠ r) as Hrr' by congruence.
    assert (length l ≤ N.to_nat n)%nat as Hln by lia.
    assert (blocks h1 !! r = Some ([] ++ map Some l ++ replicate (N.to_nat cap - length l) None)) as Hb1.
    { unfold h1. by rewrite blocks_upd_block_ne. }
    assert (blocks h1 !! r' = Some ([] ++ replicate (length l) None ++ replicate (N.to_nat n - length l) None)) as Hb1'.
    { unfold h1. rewrite blocks_upd_block_eq. simpl. rewrite <- replicate_add. do 2 f_equal. lia. }
    set (tail := replicate (N.to_nat cap - length l) None) in *.
    set (tail' := replicate (N.to_nat n - length l) None) in *.
    set (v' := Vector.Make (RawMemory.Make (Ptr r' 0) n) size).
    assert (∃ l'' h2, 
      try_catch
        (if is_nothrow_move_constructible || negb is_copy_constructible
         then Vector.lift (uninitialized_move_loop (length l) (Ptr r 0) (Ptr r' 0) (Ptr r' 0))
         else Vector.lift (uninitialized_copy_loop (length l) (Ptr r 0) (Ptr r' 0) (Ptr r' 0)))
        (Vector.lift (operator_delete (Ptr r' 0)))
        (Vector.State (Vector.Make (RawMemory.Make (Ptr r 0) cap) size) h1)
      = Ok tt (Vector.State (Vector.Make (RawMemory.Make (Ptr r 0) cap) size) h2)
      ∧ length l'' = length l
      ∧ blocks h2 !! r = Some ([] ++ map Some l'' ++ tail)
      ∧ blocks h2 !! r' = Some (map Some l ++ tail')
      ∧ leaked h2 = leaked h
      ∧ (∀ r0, r0 ≠ r → r0 ≠ r' → blocks h2 !! r0 = blocks h !! r0))
      as (l'' & h2 & Hreloc & Hl'' & Hb2 & Hb2' & Hlk2 & Hoth2).
    { unfold Vector.relocation_succeeds in Hrel.
      destruct (is_nothrow_move_constructible || negb is_copy_constructible).
      - exists (map moved_from l). eexists. split; [|split; [|split; [|split; [|split]]]].
        + apply try_catch_ok, lift_ok.
          eapply (uninitialized_move_loop_ok l (Ptr r 0) (Ptr r' 0)); vsimpl; eauto.
        + by rewrite length_map.
        + vsimpl. rewrite blocks_upd_block_eq. simpl. by rewrite map_map.
        + vsimpl. rewrite blocks_upd_block_ne, blocks_upd_block_eq by done. done.
        + done.
        + intros r0 Hne0 Hne0'. vsimpl. unfold h1. by rewrite !blocks_upd_block_ne.
      - exists l. eexists. split; [|split; [|split; [|split; [|split]]]].
        + apply try_catch_ok, lift_ok.
          eapply (uninitialized_copy_loop_ok l (Ptr r 0) (Ptr r' 0)); vsimpl; eauto.
        + done.
        + vsimpl. rewrite blocks_upd_block_ne by done. done.
        + vsimpl. rewrite blocks_upd_block_eq. done.
        + done.
        + intros r0 Hne0 Hne0'. vsimpl. unfold h1. by rewrite !blocks_upd_block_ne. }
    erewrite bind_ok by exact Hreloc.
    erewrite bind_ok; last first.
    { apply lift_ok. rewrite <- Hl''. eapply (destroy_loop_ok l'' (Ptr r 0)); vsimpl; eauto. }
    vsimpl. erewrite bind_ok by reflexivity. vsimpl.
    eexists. split; [|split; [|split; [|split]]].
    + apply lift_ok. eapply operator_delete_ok; [done|]. apply blocks_upd_block_eq.
    + repeat split; try done; try lia; try apply Hg. vsimpl.
      destruct (N.eqb_spec n 0) as [|_]; [done|].
      repeat split; try done. simpl.
      rewrite lookup_delete_ne by done.
      rewrite lookup_insert_ne by done.
      exact Hb2'.
    + simpl. unfold tail. rewrite !live_app, !live_replicate_None. simpl. done.
    + intros _. simpl. apply lookup_delete_eq.
    + intros r0 Hne0 Hne0'. simpl. rewrite lookup_delete_ne by done.
      rewrite lookup_insert_ne by done. by apply Hoth2.
Qed.

End ReserveFacts.

(** ** Copy construction, destruction and copy assignment *)

Section CopyFacts.
Context {T : Type} {ET : Element T}.
Implicit Types (h : heap T) (b pre suf : block T) (x y : T) (l xs : list T).
Implicit Types (p q : ptr) (s : option T) (v : Vector.t).

Lemma ctor_copy_ok rhs h lr :
  Vector.repr rhs h lr → Vector.size_ rhs ≠ 0 → Vector.grants h (Vector.size_ rhs) →
  Forall (λ x, copy_ctor_throws x = false) lr →
  Vector.ctor_copy rhs h
  = Ok (Vector.Make (RawMemory.Make (Ptr (fresh_block h) 0) (Vector.size_ rhs)) (Vector.size_ rhs))
       (upd_block (fresh_block h) (map Some lr) h).
Proof.
  destruct rhs as [[[r o] cap] size]. unfold Vector.repr. vsimpl.
  intros (Hsize & Hle & Hcap & Hbuf) Hn0 Hg Hok.
  destruct (N.eqb_spec cap 0) as [|Hc0]; [lia|]. destruct Hbuf as (-> & Hr0 & Hb).
  pose proof (fresh_block_unused h) as Hfu.
  unfold Vector.ctor_copy, RawMemory.ctor. vsimpl.
  erewrite bind_ok; last first.
  { erewrite bind_ok by (by apply Allocate_ok). reflexivity. }
  vsimpl. set (r' := fresh_block h) in *.
  assert (r ≠ r') as Hrr by congruence.
  assert (N.to_nat size = length lr) as Hsz by lia.
  erewrite bind_ok; last first.
  { apply try_catch_ok. unfold uninitialized_copy_n. rewrite Hsz.
    eapply (uninitialized_copy_loop_ok lr (Ptr r 0) (Ptr r' 0) _ _ [] _ [] []); vsimpl; eauto.
    - rewrite blocks_upd_block_ne by done. exact Hb.
    - rewrite blocks_upd_block_eq. simpl. by rewrite app_nil_r. }
  simpl. unfold ret. rewrite upd_block_twice. by rewrite app_nil_r.
Qed.

Lemma ctor_copy_throw rhs h lr :
  Vector.repr rhs h lr → Vector.size_ rhs ≠ 0 →
  ¬ (Vector.grants h (Vector.size_ rhs) ∧ Forall (λ x, copy_ctor_throws x = false) lr) →
  ∃ e, Vector.ctor_copy rhs h = Throw e h.
Proof.
  destruct rhs as [[[r o] cap] size]. unfold Vector.repr. vsimpl.
  intros (Hsize & Hle & Hcap & Hbuf) Hn0 Hnot.
  destruct (N.eqb_spec cap 0) as [|Hc0]; [lia|]. destruct Hbuf as (-> & Hr0 & Hb).
  assert (size * N.pos sizeof_T < size_max) as Hfit.
  { eapply N.le_lt_trans; [|exact Hcap]. by apply N.mul_le_mono_r. }
  pose proof (fits_size_t _ Hcap) as Hcapmax.
  pose proof (fresh_block_unused h) as Hfu.
  pose proof (fresh_block_nonzero h) as Hf0.
  unfold Vector.ctor_copy, RawMemory.ctor. vsimpl.
  destruct (N.leb_spec (size * N.pos sizeof_T) (limit h)) as [Hlim|Hlim].
  - (* the allocation succeeds, so a copy throws *)
    destruct (first_throw copy_ctor_throws lr) as [Hok|(xs1 & x & xs2 & -> & Hok & Hx)].
    { exfalso. apply Hnot. by repeat split. }
    exists element_error.
    erewrite bind_ok; last first.
    { erewrite bind_ok by (by apply Allocate_ok). reflexivity. }
    vsimpl. set (r' := fresh_block h) in *.
    assert (r ≠ r') as Hrr by congruence.
    assert (N.to_nat size = (length xs1 + S (length xs2))%nat) as Hsz.
    { rewrite length_app in Hsize. simpl in Hsize. lia. }
    erewrite bind_throw; [done|].
    eapply try_catch_throw.
    + unfold uninitialized_copy_n. rewrite Hsz.
      eapply (uninitialized_copy_loop_throw xs1 _ x (Ptr r 0) (Ptr r' 0) (Ptr r' 0) _
                [] (map Some xs2 ++ replicate (N.to_nat cap - length (xs1 ++ x :: xs2)) None)
                [] [] (replicate (S (length xs2)) None)); vsimpl; eauto.
      * rewrite blocks_upd_block_ne by done. rewrite Hb. simpl.
        rewrite !map_app. simpl. by rewrite <- !(assoc_L (++)).
      * rewrite blocks_upd_block_eq. cbn [app map]. by rewrite <- replicate_add.
      * simpl. rewrite length_app in Hsize. simpl in Hsize. lia.
    + unfold RawMemory.dtor, RawMemory.Deallocate. vsimpl.
      erewrite operator_delete_ok; [|done|apply blocks_upd_block_eq].
      rewrite upd_block_twice. cbn [app]. rewrite <- replicate_add, live_replicate_None.
      unfold upd_block. cbn [blocks leaked limit app].
      rewrite delete_insert_eq. rewrite delete_id by done.
      by destruct h.
  - exists bad_alloc. erewrite bind_throw; [done|].
    erewrite bind_throw; [done|]. unfold RawMemory.Allocate.
    destruct (N.eqb_spec size 0) as [|_]; [done|]. simpl.
    unfold operator_new. rewrite wrap_small by done.
    destruct (N.leb_spec (size * N.pos sizeof_T) (limit h)) as [|_]; [lia|]. done.
Qed.

Lemma dtor_ok v h l :
  Vector.repr v h l →
  ∃ h', Vector.dtor v h = Ok tt h' ∧ leaked h' = leaked h ∧ limit h' = limit h ∧
    (∀ r, r ≠ base (RawMemory.buffer_ (Vector.data_ v)) → blocks h' !! r = blocks h !! r) ∧
    (RawMemory.capacity_ (Vector.data_ v) ≠ 0 →
     blocks h' !! base (RawMemory.buffer_ (Vector.data_ v)) = None).
Proof.
  destruct v as [[[r o] cap] size]. unfold Vector.repr. vsimpl.
  intros (Hsize & Hle & Hcap & Hbuf).
  assert (N.to_nat size = length l) as Hsz by lia.
  unfold Vector.dtor, destroy_n, RawMemory.dtor, RawMemory.Deallocate. vsimpl. rewrite Hsz.
  destruct (N.eqb_spec cap 0) as [Hc0|Hc0].
  - assert (l = []) as -> by (destruct l; [done|simpl in *; lia]).
    injection Hbuf as -> ->. exists h. by repeat split.
  - destruct Hbuf as (-> & Hr0 & Hb).
    erewrite bind_ok; last first.
    { eapply (destroy_loop_ok l (Ptr r 0) _ []); vsimpl; eauto. }
    vsimpl. erewrite operator_delete_ok; [|done|apply blocks_upd_block_eq].
    eexists. split; [done|]. simpl.
    rewrite !live_app, !live_replicate_None. simpl. repeat split; try done.
    + intros r1 Hr1. rewrite lookup_delete_ne by done. by rewrite lookup_insert_ne.
    + intros _. apply lookup_delete_eq.
Qed.

Lemma copy_assign_self st : Vector.copy_assign same_object st = Ok tt st.
Proof. reflexivity. Qed.

Lemma copy_assign_realloc v rhs h l lr :
  Vector.repr v h l → Vector.repr rhs h lr → Vector.separate v rhs →
  Vector.Capacity v < Vector.size_ rhs →
  Vector.grants h (Vector.size_ rhs) →
  Forall (λ x, copy_ctor_throws x = false) lr →
  let v' := Vector.Make (RawMemory.Make (Ptr (fresh_block h) 0) (Vector.size_ rhs))
              (Vector.size_ rhs) in
  ∃ h', Vector.copy_assign (other_object rhs) (Vector.State v h) = Ok tt (Vector.State v' h')
        ∧ Vector.repr v' h' lr ∧ Vector.repr rhs h' lr ∧ leaked h' = leaked h.
Proof.
  intros Hv Hrhs Hsep Hcap Hg Hok v'.
  pose proof (fresh_block_unused h) as Hfu.
  pose proof (fresh_block_nonzero h) as Hf0.
  assert (Vector.size_ rhs ≠ 0) as Hn0 by (vsimpl in Hcap; lia).
  unfold Vector.copy_assign.
  erewrite bind_ok by reflexivity. vsimpl. vsimpl in Hcap.
  destruct (N.ltb_spec (RawMemory.capacity_ (Vector.data_ v)) (Vector.size_ rhs)) as [_|]; [|lia].
  erewrite bind_ok by (by eapply lift_ok, ctor_copy_ok).
  fold v'. set (h1 := upd_block (fresh_block h) (map Some lr) h).
  assert (Vector.repr rhs h1 lr) as Hrhs1.
  { eapply repr_frame; [done|]. intros Hc. unfold h1.
    rewrite blocks_upd_block_ne; [done|].
    destruct (repr_block _ _ _ Hrhs Hc) as (_ & _ & Hb). congruence. }
  assert (Vector.repr v h1 l) as Hv1.
  { eapply repr_frame; [done|]. intros Hc. unfold h1.
    rewrite blocks_upd_block_ne; [done|].
    destruct (repr_block _ _ _ Hv Hc) as (_ & _ & Hb). congruence. }
  destruct (dtor_ok v h1 l Hv1) as (h' & Hd & Hlk & Hlim & Hfr & Hgone).
  exists h'. split; [|split; [|split]].
  - destruct v as [[bv cv] sv].
    erewrite bind_ok by reflexivity. by apply lift_ok.
  - assert (Vector.size_ rhs * N.pos sizeof_T < size_max) as Hfit by apply Hg.
    unfold v', Vector.repr. vsimpl.
    destruct Hrhs as (Hsz & _). repeat split; try done; try lia.
    destruct (N.eqb_spec (Vector.size_ rhs) 0) as [|_]; [done|].
    repeat split; try done.
    rewrite Hfr.
    + unfold h1. rewrite blocks_upd_block_eq. rewrite Hsz, Nat2N.id, Nat.sub_diag.
      simpl. by rewrite app_nil_r.
    + destruct (N.eq_dec (RawMemory.capacity_ (Vector.data_ v)) 0) as [Hc|Hc].
      * destruct (repr_null _ _ _ Hv Hc) as (-> & _). done.
      * destruct (repr_block _ _ _ Hv Hc) as (_ & _ & Hb). congruence.
  - eapply repr_frame; [exact Hrhs1|]. intros Hc. apply Hfr.
    destruct (repr_block _ _ _ Hrhs Hc) as (_ & Hr0 & _).
    destruct (N.eq_dec (RawMemory.capacity_ (Vector.data_ v)) 0) as [Hcv|Hcv].
    + destruct (repr_null _ _ _ Hv Hcv) as (-> & _). done.
    + intros E. by apply (Hsep Hcv Hc).
  - by rewrite Hlk.
Qed.

Lemma copy_assign_realloc_fails v rhs h l lr :
  Vector.repr v h l → Vector.repr rhs h lr →
  Vector.Capacity v < Vector.size_ rhs →
  ¬ (Vector.grants h (Vector.size_ rhs) ∧ Forall (λ x, copy_ctor_throws x = false) lr) →
  ∃ e, Vector.copy_assign (other_object rhs) (Vector.State v h) = Throw e (Vector.State v h).
Proof.
  intros Hv Hrhs Hcap Hnot.
  assert (Vector.size_ rhs ≠ 0) as Hn0 by (vsimpl in Hcap; lia).
  destruct (ctor_copy_throw rhs h lr Hrhs Hn0 Hnot) as [e He].
  exists e. unfold Vector.copy_assign.
  erewrite bind_ok by reflexivity. vsimpl. vsimpl in Hcap.
  destruct (N.ltb_spec (RawMemory.capacity_ (Vector.data_ v)) (Vector.size_ rhs)) as [_|]; [|lia].
  erewrite bind_throw; [done|]. by apply lift_throw.
Qed.

Lemma copy_assign_in_place v rhs h l lr :
  Vector.repr v h l → Vector.repr rhs h lr → Vector.separate v rhs →
  Vector.size_ rhs ≤ Vector.Capacity v →
  Forall2 (λ d x, copy_assign_throws d x = false) (take (length lr) l) (take (length l) lr) →
  Forall (λ x, copy_ctor_throws x = false) (drop (length l) lr) →
  let v' := Vector.Make (Vector.data_ v) (Vector.size_ rhs) in
  ∃ h', Vector.copy_assign (other_object rhs) (Vector.State v h) = Ok tt (Vector.State v' h')
        ∧ Vector.repr v' h' lr ∧ Vector.repr rhs h' lr ∧ leaked h' = leaked h.
Proof.
  intros Hv Hrhs Hsep Hcap Hasg Hctor v'.
  pose proof (repr_buffer_off _ _ _ Hv) as Hov.
  pose proof (repr_buffer_off _ _ _ Hrhs) as Hor.
  pose proof (repr_size _ _ _ Hv) as Hsv.
  pose proof (repr_size _ _ _ Hrhs) as Hsr.
  pose proof (repr_capacity _ _ _ Hv) as [Hlev Hmaxv].
  pose proof (repr_capacity _ _ _ Hrhs) as [Hler Hmaxr].
  destruct v as [[[rv ov] cv] sv], rhs as [[[rr orr] cr] sr].
  vsimpl in Hcap. unfold Vector.separate in Hsep. subst v'.
  cbn [Vector.data_ Vector.size_ RawMemory.buffer_ RawMemory.capacity_ base off] in *.
  subst ov orr sv sr.
  unfold Vector.copy_assign. erewrite bind_ok by reflexivity. vsimpl.
  destruct (N.ltb_spec cv (N.of_nat (length lr))) as [|_]; [lia|].
  destruct (N.eq_dec cv 0) as [Hcv|Hcv].
  - (* no storage at all: both sequences are empty *)
    destruct (repr_null _ _ _ Hv Hcv) as (Hbuf & -> & _). simpl in Hbuf.
    assert (lr = []) as -> by (destruct lr; [done|simpl in *; lia]).
    exists h. split; [|split; [|split]]; try done.
    simpl. erewrite bind_ok; last first.
    { erewrite bind_ok by (apply lift_ok, std_copy_nil; simpl; lia).
      apply lift_ok. reflexivity. }
    done.
  - destruct (repr_block _ _ _ Hv Hcv) as (_ & Hrv0 & Hbv).
    cbn [Vector.data_ Vector.size_ RawMemory.buffer_ RawMemory.capacity_ base off] in *.
    assert (lr ≠ [] → rr ≠ rv ∧
            blocks h !! rr = Some (map Some lr ++ replicate (N.to_nat cr - length lr) None))
      as Hsrc.
    { intros Hne. assert (cr ≠ 0) as Hcr by (destruct lr; [done|simpl in *; lia]).
      destruct (repr_block _ _ _ Hrhs Hcr) as (_ & _ & Hbr). split; [|done].
      intros E. by apply (Hsep Hcv Hcr). }
    set (tail := replicate (N.to_nat cv - length l) (@None T)) in *.
    destruct (N.ltb_spec (N.of_nat (length lr)) (N.of_nat (length l))) as [Hlt|Hge].
    + (* fewer elements than before: assign, then destroy the rest *)
      rewrite (take_ge lr) in Hasg by lia.
      rewrite <- (take_drop (length lr) l) in Hbv. rewrite map_app, <- (assoc_L (++)) in Hbv.
      erewrite bind_ok; last first.
      { erewrite bind_ok; last first.
        { apply lift_ok. eapply (std_copy_ok rr rv h _ lr); eauto. lia. }
        apply lift_ok. rewrite sub_sz_small by lia.
        eapply (destroy_n_ok rv _ _ _ (drop (length lr) l) (map Some lr)); vsimpl.
        - rewrite length_drop. lia.
        - rewrite blocks_upd_block_eq. done.
        - rewrite length_map. lia. }
      rewrite upd_block_twice.
      eexists. split; [reflexivity|]. split; [|split; [|done]].
      * destruct Hv as (_ & _ & Hfit & _). repeat split; try done. vsimpl.
        destruct (N.eqb_spec cv 0) as [|_]; [done|]. repeat split; try done.
        rewrite blocks_upd_block_eq. unfold tail. rewrite length_drop, <- replicate_add.
        do 3 f_equal. lia.
      * eapply repr_frame; [done|]. intros Hcr. vsimpl.
        rewrite blocks_upd_block_ne; [done|]. intros E. by apply (Hsep Hcv Hcr).
    + (* at least as many: assign over the old ones, construct the others *)
      rewrite (take_ge l) in Hasg by lia.
      assert (lr ≠ [] →
              rr ≠ rv ∧
              blocks h !! rr = Some (map Some (take (length l) lr)
                ++ map Some (drop (length l) lr) ++ replicate (N.to_nat cr - length lr) None))
        as Hsrc'.
      { intros Hne. destruct (Hsrc Hne) as [? Hb]. split; [done|].
        by rewrite (assoc_L (++)), <- map_app, take_drop. }
      assert (length (take (length l) lr) = length l) as Htk by (rewrite length_take; lia).
      assert (length (drop (length l) lr) = (length lr - length l)%nat) as Hdr
        by (by rewrite length_drop).
      erewrite bind_ok; last first.
      { erewrite bind_ok; last first.
        { apply lift_ok.
          eapply (std_copy_ok rr rv h l (take (length l) lr)); eauto; try lia.
          intros Hne. apply Hsrc'. intros ->. by rewrite take_nil in Hne. }
        apply lift_ok. rewrite sub_sz_small by lia.
        eapply (uninitialized_copy_n_ok rr rv _ _ _ _ (drop (length l) lr)
                  (map Some (take (length l) lr)) _ (map Some (take (length l) lr))
                  (replicate (N.to_nat cv - length lr) None)); vsimpl; eauto.
        - lia.
        - intros Hne. assert (lr ≠ []) as Hlr by (intros ->; by rewrite drop_nil in Hne).
          destruct (Hsrc' Hlr) as [? Hb]. repeat split; try done.
          + by rewrite blocks_upd_block_ne.
          + rewrite length_map. lia.
        - rewrite blocks_upd_block_eq. unfold tail. rewrite Hdr, <- replicate_add.
          do 3 f_equal. lia.
        - rewrite length_map. lia. }
      rewrite upd_block_twice.
      eexists. split; [reflexivity|]. split; [|split; [|done]].
      * destruct Hv as (_ & _ & Hfit & _). repeat split; try done. vsimpl.
        destruct (N.eqb_spec cv 0) as [|_]; [done|]. repeat split; try done.
        rewrite blocks_upd_block_eq.
        by rewrite (assoc_L (++)), <- map_app, take_drop.
      * eapply repr_frame; [done|]. intros Hcr. vsimpl.
        rewrite blocks_upd_block_ne; [done|]. intros E. by apply (Hsep Hcv Hcr).
Qed.

End CopyFacts.

(** ** Value construction *)

Section ValueConstructionFacts.
Context {T : Type} {ET : Element T}.
Implicit Types (h : heap T) (b pre suf : block T) (x y : T) (l xs : list T).
Implicit Types (p q : ptr) (s : option T) (v : Vector.t).

Lemma map_Some_replicate (n : nat) x :
  map Some (replicate n x) = replicate n (Some x).
Proof. induction n as [|n IH]; simpl; [done|]. by rewrite IH. Qed.

Lemma uninitialized_value_construct_loop_ok k : ∀ j cur result h pre suf,
  blocks h !! base cur = Some (pre ++ replicate k None ++ suf) →
  N.to_nat (off cur) = length pre →
  (∀ i, (i < k)%nat → value_init_throws (j + i) = false) →
  uninitialized_value_construct_loop k j cur result h
  = Ok tt (upd_block (base cur) (pre ++ replicate k (Some value_init) ++ suf) h).
Proof.
  induction k as [|k IH]; intros j cur result h pre suf Hb Ho Hnt; simpl.
  - unfold ret. by rewrite upd_block_same.
  - simpl in Hb.
    erewrite bind_ok; last first.
    { apply try_catch_ok. unfold value_construct_at.
      rewrite <- (Nat.add_0_r j), Hnt by lia.
      eapply construct_at_mid; eauto. }
    erewrite (IH _ _ _ _ (pre ++ [Some value_init]) suf); cbn [base off ptr_add].
    + rewrite upd_block_twice. by rewrite <- !(assoc_L (++)).
    + blk. by rewrite <- !(assoc_L (++)).
    + rewrite length_app. simpl. lia.
    + intros i Hi. replace (S j + i)%nat with (j + S i)%nat by lia. apply Hnt. lia.
Qed.

Lemma uninitialized_value_construct_n_ok r (o n : N) h pre suf :
  blocks h !! r = Some (pre ++ replicate (N.to_nat n) None ++ suf) →
  N.to_nat o = length pre →
  (∀ i, (i < N.to_nat n)%nat → value_init_throws i = false) →
  uninitialized_value_construct_n (Ptr r o) n h
  = Ok tt (upd_block r (pre ++ replicate (N.to_nat n) (Some value_init) ++ suf) h).
Proof.
  intros Hb Ho Hnt. unfold uninitialized_value_construct_n.
  by eapply (uninitialized_value_construct_loop_ok _ 0 (Ptr r o)).
Qed.

(** The default constructor throws after [m] further elements have been
    constructed: all the elements constructed by the algorithm, the [c]
    earlier ones included, are destroyed again. *)
Lemma uninitialized_value_construct_loop_throw (m : nat) : ∀ k j cur result h dp (c : nat) ds,
  base result = base cur →
  blocks h !! base cur
  = Some (dp ++ replicate c (Some value_init) ++ replicate m None ++ ds) →
  N.to_nat (off result) = length dp →
  off cur = off result + N.of_nat c →
  off result + N.of_nat (c + m) < size_max →
  (∀ i, (i < m)%nat → value_init_throws (j + i) = false) →
  value_init_throws (j + m) = true →
  uninitialized_value_construct_loop (m + S k) j cur result h
  = Throw element_error (upd_block (base cur) (dp ++ replicate (c + m) None ++ ds) h).
Proof.
  induction m as [|m IH]; intros k j cur result h dp c ds Hres Hd Hro Hco Hmax Hok Hx; simpl.
  - simpl in Hd. rewrite Nat.add_0_r in Hx. erewrite bind_throw; [done|].
    eapply try_catch_throw.
    + unfold value_construct_at. by rewrite Hx.
    + unfold destroy_range, destroy_n, ptr_diff.
      rewrite sub_sz_small by lia.
      replace (N.to_nat (off cur - off result)) with (length (replicate c (@value_init T _)))
        by (rewrite length_replicate; lia).
      rewrite Nat.add_0_r. rewrite <- Hres.
      rewrite <- (length_replicate c (@value_init T _)) at 2.
      eapply destroy_loop_ok; [|done]. by rewrite Hres, map_Some_replicate.
  - simpl in Hd.
    erewrite bind_ok; last first.
    { apply try_catch_ok. unfold value_construct_at.
      rewrite <- (Nat.add_0_r j), Hok by lia.
      eapply (construct_at_mid cur h (dp ++ replicate c (Some value_init))).
      - by rewrite <- (assoc_L (++)).
      - rewrite length_app, length_replicate. lia. }
    erewrite (IH k (S j) _ result _ dp (S c) ds); cbn [base off ptr_add].
    + rewrite upd_block_twice. by replace (S c + m)%nat with (c + S m)%nat by lia.
    + done.
    + blk. rewrite <- !(assoc_L (++)). cbn [app].
      replace (S c) with (c + 1)%nat by lia. rewrite replicate_add. cbn [replicate].
      by rewrite <- !(assoc_L (++)).
    + done.
    + lia.
    + lia.
    + intros i Hi. replace (S j + i)%nat with (j + S i)%nat by lia. apply Hok. lia.
    + by replace (S j + m)%nat with (j + S m)%nat by lia.
Qed.

(** The first index at which a test holds, if any, below [n]. *)
Lemma first_index (f : nat → bool) (n : nat) :
  (∀ i, (i < n)%nat → f i = false)
  ∨ ∃ m, (m < n)%nat ∧ f m = true ∧ ∀ i, (i < m)%nat → f i = false.
Proof.
  induction n as [|n [IH|(m & Hm & Hf & Hlt)]].
  - left. intros i Hi. lia.
  - destruct (f n) eqn:Hn.
    + right. exists n. split; [lia|]. by split.
    + left. intros i Hi. destruct (decide (i = n)) as [->|]; [done|]. apply IH. lia.
  - right. exists m. split; [lia|]. by split.
Qed.

End ValueConstructionFacts.

(** ** PopBack and Erase *)

Section EraseFacts.
Context {T : Type} {ET : Element T}.
Implicit Types (h : heap T) (b pre suf : block T) (x y : T) (l xs : list T).
Implicit Types (p q : ptr) (s : option T) (v : Vector.t).

Lemma PopBack_spec v h l :
  Vector.repr v h l →
  let v' := Vector.Make (Vector.data_ v) (Vector.size_ v - 1) in
  ∃ h', Vector.PopBack (Vector.State v h) = Ok tt (Vector.State v' h')
        ∧ Vector.repr v' h' (take (length l - 1) l)
        ∧ Vector.same_blocks h h' ∧ leaked h' = leaked h.
Proof.
  intros Hv v'.
  pose proof (repr_buffer_off _ _ _ Hv) as Hov.
  pose proof (repr_size _ _ _ Hv) as Hsv.
  pose proof (repr_capacity _ _ _ Hv) as [Hlev Hmaxv].
  destruct v as [[[r o] cap] size]. subst v'.
  cbn [Vector.data_ Vector.size_ RawMemory.buffer_ RawMemory.capacity_ base off] in *.
  subst o. unfold Vector.PopBack. erewrite bind_ok by reflexivity. vsimpl.
  destruct l as [|x l0 _] using rev_ind.
  - simpl in Hsv. subst size. simpl. exists h. repeat split; try done; try apply Hv.
  - assert (length (l0 ++ [x]) = S (length l0)) as Hlen by (rewrite length_app; simpl; lia).
    rewrite Hlen in *.
    destruct (N.ltb_spec 0 size) as [_|]; [|lia].
    assert (cap ≠ 0) as Hc by lia.
    destruct (repr_block _ _ _ Hv Hc) as (_ & Hr0 & Hb).
    cbn [Vector.data_ Vector.size_ RawMemory.buffer_ RawMemory.capacity_ base off] in Hb, Hr0.
    rewrite map_app, <- (assoc_L (++)), Hlen in Hb. simpl in Hb.
    erewrite bind_ok by reflexivity. erewrite bind_ok by reflexivity. vsimpl.
    rewrite sub_sz_small by lia.
    replace (S (length l0) - 1)%nat with (length l0) by lia.
    rewrite take_app_length.
    eexists. split; [|split; [|split]].
    + apply lift_ok. eapply (destroy_at_mid _ _ (map Some l0) x); vsimpl; [done|].
      rewrite length_map. lia.
    + pose proof (repr_fits _ _ _ Hv) as Hfit.
      apply repr_intro; try done; try lia. rewrite blocks_upd_block_eq.
      replace (N.to_nat cap - length l0)%nat with (S (N.to_nat cap - S (length l0)))%nat by lia.
      done.
    + vsimpl. eapply same_blocks_upd; [done|]. by rewrite !length_app.
    + done.
Qed.

(** What [Erase] does up to the call of [PopBack]. *)
Lemma Erase_shift v h l1 d l2 :
  Vector.repr v h (l1 ++ d :: l2) →
  let pos := ptr_add (Vector.begin v) (N.of_nat (length l1)) in
  ∃ ys h', length ys = S (length l2) ∧ Vector.repr v h' (l1 ++ ys) ∧
    Vector.same_blocks h h' ∧ leaked h' = leaked h ∧
    ((Vector.shift_down_throws d l2 = false ∧ (∃ z, ys = l2 ++ [z]) ∧
      Vector.Erase pos (Vector.State v h)
      = (Vector.PopBack ;;; v <- Vector.this ;; ret (ptr_add (Vector.begin v) (N.of_nat (length l1))))
          (Vector.State v h'))
     ∨ (Vector.shift_down_throws d l2 = true ∧
        Vector.Erase pos (Vector.State v h) = Throw element_error (Vector.State v h'))).
Proof.
  intros Hv pos.
  pose proof (repr_buffer_off _ _ _ Hv) as Hov.
  pose proof (repr_size _ _ _ Hv) as Hsv.
  pose proof (repr_capacity _ _ _ Hv) as [Hlev Hmaxv].
  pose proof (repr_fits _ _ _ Hv) as Hfit.
  destruct v as [[[r o] cap] size]. subst pos.
  cbn [Vector.data_ Vector.size_ RawMemory.buffer_ RawMemory.capacity_ base off] in *.
  subst o. rewrite length_app in Hsv. simpl in Hsv.
  assert (cap ≠ 0) as Hc by lia.
  destruct (repr_block _ _ _ Hv Hc) as (_ & Hr0 & Hb).
  cbn [Vector.data_ Vector.size_ RawMemory.buffer_ RawMemory.capacity_ base off] in Hb, Hr0.
  rewrite map_app, <- (assoc_L (++)) in Hb. simpl in Hb.
  set (tail := replicate (N.to_nat cap - length (l1 ++ d :: l2)) (@None T)) in *.
  set (i := N.of_nat (length l1)) in *.
  destruct (std_move_down (Ptr r i) (Ptr r size) h d l2 (map Some l1) tail)
    as (ys & Hlen & Hcases); cbn [base off]; try done; try lia.
  { rewrite length_map. lia. }
  cbn [base off ptr_add] in Hcases.
  set (h1 := upd_block r (map Some l1 ++ map Some ys ++ tail) h) in *.
  assert (Vector.repr (Vector.Make (RawMemory.Make (Ptr r 0) cap) size) h1 (l1 ++ ys)) as Hv1.
  { apply repr_intro; try done.
    - rewrite length_app. lia.
    - unfold h1. rewrite blocks_upd_block_eq. rewrite map_app, <- (assoc_L (++)).
      unfold tail. by rewrite !length_app, Hlen. }
  assert (Vector.same_blocks h h1) as Hsame.
  { eapply same_blocks_upd; [done|]. rewrite !length_app, !length_map. simpl.
    rewrite !length_app, !length_map. lia. }
  exists ys, h1. split; [done|]. split; [done|]. split; [done|]. split; [done|].
  vsimpl.
  assert (Vector.Erase (ptr_add (Ptr r 0) i) (Vector.State (Vector.Make (RawMemory.Make (Ptr r 0) cap) size) h)
          = (Vector.lift (std_move (Ptr r (i + 1)) (Ptr r size) (Ptr r i)) ;;;
             Vector.PopBack ;;;
             v <- Vector.this ;; ret (ptr_add (Vector.begin v) i))
              (Vector.State (Vector.Make (RawMemory.Make (Ptr r 0) cap) size) h)) as ->.
  { unfold Vector.Erase. erewrite bind_ok by reflexivity. vsimpl. unfold ptr_add. vsimpl.
    rewrite ptr_leb_same, ptr_ltb_same, !N.add_0_l.
    destruct (N.leb_spec 0 i) as [_|]; [|lia].
    destruct (N.ltb_spec i size) as [_|]; [|lia].
    cbn [andb]. erewrite bind_ok by reflexivity. cbn zeta.
    rewrite ptr_diff_same by lia. rewrite N.sub_0_r. done. }
  destruct Hcases as [(Hno & Hz & Heq)|(Hyes & Heq)].
  - left. split; [done|]. split; [done|].
    erewrite bind_ok by (by apply lift_ok). done.
  - right. split; [done|].
    erewrite bind_throw; [done|]. by apply lift_throw.
Qed.

Lemma Erase_ok v h l1 d l2 :
  Vector.repr v h (l1 ++ d :: l2) → Vector.shift_down_throws d l2 = false →
  let pos := ptr_add (Vector.begin v) (N.of_nat (length l1)) in
  let v' := Vector.Make (Vector.data_ v) (Vector.size_ v - 1) in
  ∃ h', Vector.Erase pos (Vector.State v h) = Ok pos (Vector.State v' h')
        ∧ Vector.repr v' h' (l1 ++ l2)
        ∧ Vector.same_blocks h h' ∧ leaked h' = leaked h.
Proof.
  intros Hv Hno pos v'.
  destruct (Erase_shift v h l1 d l2 Hv)
    as (ys & h1 & Hlen & Hv1 & Hsame & Hlk & [(_ & [z ->] & Heq)|(Hyes & _)]); [|congruence].
  destruct (PopBack_spec v h1 _ Hv1) as (h' & Hpop & Hv' & Hsame' & Hlk').
  exists h'. fold pos in Heq. rewrite Heq. split; [|split; [|split]].
  - erewrite bind_ok by exact Hpop. reflexivity.
  - replace (l1 ++ l2) with (take (length (l1 ++ l2 ++ [z]) - 1) (l1 ++ l2 ++ [z])); [done|].
    rewrite (assoc_L (++)), length_app. simpl.
    replace (length (l1 ++ l2) + 1 - 1)%nat with (length (l1 ++ l2)) by lia.
    by rewrite take_app_length.
  - by eapply same_blocks_trans.
  - by rewrite Hlk'.
Qed.

Lemma Erase_throw v h l1 d l2 :
  Vector.repr v h (l1 ++ d :: l2) → Vector.shift_down_throws d l2 = true →
  let pos := ptr_add (Vector.begin v) (N.of_nat (length l1)) in
  ∃ ys h', Vector.Erase pos (Vector.State v h) = Throw element_error (Vector.State v h')
        ∧ Vector.repr v h' ys ∧ length ys = length (l1 ++ d :: l2)
        ∧ Vector.same_blocks h h' ∧ leaked h' = leaked h.
Proof.
  intros Hv Hyes pos.
  destruct (Erase_shift v h l1 d l2 Hv)
    as (ys & h1 & Hlen & Hv1 & Hsame & Hlk & [(Hno & _)|(_ & Heq)]); [congruence|].
  exists (l1 ++ ys), h1. split; [done|]. split; [done|]. split; [|done].
  rewrite !length_app. simpl. lia.
Qed.

End EraseFacts.

(** ** Emplace, Insert and PushBack *)

Section EmplaceFacts.
Context {T : Type} {ET : Element T}.
Implicit Types (h : heap T) (b pre suf : block T) (x y : T) (l xs : list T).
Implicit Types (p q : ptr) (s : option T) (v : Vector.t).

(** [ReAllocate] when nothing throws: the elements before [pos_num] go to
    the same indices of the new buffer, the others one slot further. *)
Lemma ReAllocate_ok r r' (size n : N) h l1 l2 (s : option T) rest :
  r ≠ r' → size = N.of_nat (length (l1 ++ l2)) → size < size_max →
  blocks h !! r = Some (map Some l1 ++ map Some l2) →
  blocks h !! r' = Some (replicate (length l1) None ++ s :: replicate (length l2) None ++ rest) →
  Vector.relocation_succeeds (l1 ++ l2) →
  ∃ l', length l' = length (l1 ++ l2) ∧
    Vector.ReAllocate (N.of_nat (length l1)) (RawMemory.Make (Ptr r' 0) n)
      (Vector.State (Vector.Make (RawMemory.Make (Ptr r 0) size) size) h)
    = Ok tt (Vector.State (Vector.Make (RawMemory.Make (Ptr r 0) size) size)
               (upd_block r (map Some l')
                  (upd_block r' (map Some l1 ++ s :: map Some l2 ++ rest) h))).
Proof.
  intros Hne Hsize Hmax Hb Hb' Hrel. rewrite length_app in Hsize.
  destruct (relocation_succeeds_app _ _ Hrel) as [Hrel1 Hrel2].
  set (i := N.of_nat (length l1)).
  destruct (relocate_ok r r' 0 0 i h l1 [] (map Some l2) []
              (s :: replicate (length l2) None ++ rest)) as (l1' & Hlen1 & Heq1); try done.
  set (h1 := upd_block r ([] ++ map Some l1' ++ map Some l2)
               (upd_block r' ([] ++ map Some l1 ++ s :: replicate (length l2) None ++ rest) h))
    in *.
  destruct (relocate_ok r r' i (i + 1) (sub_sz size i) h1 l2 (map Some l1') []
              (map Some l1 ++ [s]) rest) as (l2' & Hlen2 & Heq2); try done.
  { rewrite sub_sz_small by lia. lia. }
  { unfold h1. blk. simpl. by rewrite app_nil_r. }
  { rewrite length_map. lia. }
  { unfold h1. blk. simpl. by rewrite <- !(assoc_L (++)). }
  { rewrite length_app, length_map. simpl. lia. }
  exists (l1' ++ l2'). split; [rewrite !length_app; lia|].
  assert (upd_block r (map Some l1' ++ map Some l2' ++ [])
            (upd_block r' ((map Some l1 ++ [s]) ++ map Some l2 ++ rest) h1)
          = upd_block r (map Some (l1' ++ l2'))
              (upd_block r' (map Some l1 ++ s :: map Some l2 ++ rest) h)) as Hfinal.
  { unfold h1. rewrite (upd_block_comm r' r) by done. rewrite !upd_block_twice.
    by rewrite app_nil_r, map_app, <- !(assoc_L (++)). }
  rewrite Hfinal in Heq2.
  unfold Vector.ReAllocate. erewrite bind_ok by reflexivity. psimpl. fold i.
  destruct (is_nothrow_move_constructible || negb is_copy_constructible).
  - erewrite bind_ok by (apply lift_ok; exact Heq1). by apply lift_ok.
  - apply try_catch_ok.
    erewrite bind_ok by (apply lift_ok; exact Heq1). by apply lift_ok.
Qed.

Lemma ReAllocate_nothing (nd : RawMemory.t) h :
  Vector.ReAllocate 0 nd (Vector.State Vector.default h) = Ok tt (Vector.State Vector.default h).
Proof.
  unfold Vector.ReAllocate. erewrite bind_ok by reflexivity.
  by destruct (is_nothrow_move_constructible || negb is_copy_constructible).
Qed.

Lemma Emplace_full v h l1 l2 (a : ctor_args T) :
  Vector.repr v h (l1 ++ l2) → Vector.size_ v = Vector.Capacity v →
  Vector.grants h (Vector.grown (Vector.size_ v)) →
  args_throws a = false → Vector.relocation_succeeds (l1 ++ l2) →
  let n := Vector.grown (Vector.size_ v) in
  let v' := Vector.Make (RawMemory.Make (Ptr (fresh_block h) 0) n) (Vector.size_ v + 1) in
  let pos := ptr_add (Vector.begin v) (N.of_nat (length l1)) in
  ∃ h', Vector.Emplace pos a (Vector.State v h)
        = Ok (Ptr (fresh_block h) (N.of_nat (length l1))) (Vector.State v' h')
        ∧ Vector.repr v' h' (l1 ++ args_value a :: l2)
        ∧ leaked h' = leaked h ∧ limit h' = limit h
        ∧ (Vector.Capacity v ≠ 0 →
           blocks h' !! base (RawMemory.buffer_ (Vector.data_ v)) = None)
        ∧ (∀ r0, r0 ≠ base (RawMemory.buffer_ (Vector.data_ v)) → r0 ≠ fresh_block h →
           blocks h' !! r0 = blocks h !! r0).
Proof.
  intros Hv Hfull Hg Ha Hrel n v' pos.
  pose proof (repr_buffer_off _ _ _ Hv) as Hov.
  pose proof (repr_size _ _ _ Hv) as Hsv.
  pose proof (repr_capacity _ _ _ Hv) as [Hlev Hmaxv].
  pose proof (grants_size_t _ _ Hg) as Hnmax.
  pose proof (fresh_block_nonzero h) as Hf0.
  pose proof (fresh_block_unused h) as Hfu.
  destruct v as [[[r o] cap] size]. subst pos v' n.
  cbn [Vector.data_ Vector.size_ RawMemory.buffer_ RawMemory.capacity_ base off] in *.
  vsimpl in Hfull. subst o cap.
  set (r' := fresh_block h) in *.
  set (i := N.of_nat (length l1)) in *.
  set (n := Vector.grown size) in *.
  assert (n ≠ 0) as Hn0 by (unfold n, Vector.grown; destruct (N.eqb_spec size 0); lia).
  assert (size + 1 ≤ n) as Hsn by (unfold n, Vector.grown; destruct (N.eqb_spec size 0); lia).
  assert (n * N.pos sizeof_T < size_max) as Hfit by apply Hg.
  assert (i ≤ size) as Hi by (rewrite length_app in Hsv; lia).
  set (x := args_value a).
  set (h1 := upd_block r' (replicate (N.to_nat n) None) h).
  set (rest := replicate (N.to_nat n - S (length (l1 ++ l2))) (@None T)).
  assert (replicate (N.to_nat n) (@None T)
          = replicate (length l1) None ++ None :: replicate (length l2) None ++ rest) as Hslots.
  { unfold rest. rewrite length_app in *.
    replace (N.to_nat n)
      with (length l1 + S (length l2 + (N.to_nat n - S (length l1 + length l2))))%nat
      at 1 by lia.
    rewrite replicate_add. simpl. by rewrite replicate_add. }
  (* everything up to the exchange of the buffers *)
  assert (∃ h4,
    (value <- RawMemory.plus (RawMemory.Make (Ptr r' 0) n) i ;;
     Vector.lift (emplace_construct_at value a) ;;;
     Vector.ReAllocate i (RawMemory.Make (Ptr r' 0) n) ;;;
     Vector.lift (destroy_n (Ptr r 0) size) ;;;
     ret value)
      (Vector.State (Vector.Make (RawMemory.Make (Ptr r 0) size) size) h1)
    = Ok (Ptr r' i) (Vector.State (Vector.Make (RawMemory.Make (Ptr r 0) size) size) h4)
    ∧ blocks h4 !! r' = Some (map Some (l1 ++ x :: l2) ++ rest)
    ∧ leaked h4 = leaked h ∧ limit h4 = limit h
    ∧ ∃ h5, operator_delete (Ptr r 0) h4 = Ok tt h5
            ∧ blocks h5 !! r' = blocks h4 !! r' ∧ leaked h5 = leaked h4
            ∧ limit h5 = limit h4
            ∧ (size ≠ 0 → blocks h5 !! r = None)
            ∧ (∀ r0, r0 ≠ r → r0 ≠ r' → blocks h5 !! r0 = blocks h !! r0))
    as (h4 & Hbuild & Hb4 & Hlk4 & Hlim4 & h5 & Hdel & Hb5 & Hlk5 & Hlim5 & Hrel5 & Hoth5).
  { unfold RawMemory.plus. vsimpl.
    destruct (N.leb_spec i n) as [_|]; [|lia].
    destruct (N.eq_dec size 0) as [Hs0|Hs0].
    - (* no elements and no buffer *)
      destruct (repr_null _ _ _ Hv Hs0) as (Hnull & Hnil & _).
      apply app_eq_nil in Hnil as [-> ->]. simpl in Hnull. injection Hnull as ->.
      exists (upd_block r' (Some x :: rest) h). split; [|split; [|split; [|split]]].
      + rewrite Hs0.
        erewrite bind_ok by (erewrite bind_ok by reflexivity; reflexivity).
        psimpl.
        erewrite bind_ok; last first.
        { apply lift_ok. eapply (emplace_construct_at_ok (Ptr r' 0) _ []); vsimpl; [|done|done].
          unfold h1. blk. by rewrite Hslots. }
        fold x. unfold h1. rewrite upd_block_twice. simpl.
        erewrite bind_ok by apply ReAllocate_nothing.
        erewrite bind_ok by (by apply lift_ok).
        reflexivity.
      + by blk.
      + done.
      + done.
      + exists (upd_block r' (Some x :: rest) h). rewrite operator_delete_null.
        split; [done|]. split; [done|]. split; [done|]. split; [done|]. split; [done|].
        intros r0 _ Hne0'. by rewrite blocks_upd_block_ne.
    - destruct (repr_block _ _ _ Hv Hs0) as (_ & Hr0 & Hb).
      cbn [Vector.data_ Vector.size_ RawMemory.buffer_ RawMemory.capacity_ base off] in Hb, Hr0.
      replace (N.to_nat size - length (l1 ++ l2))%nat with 0%nat in Hb by lia.
      simpl in Hb. rewrite app_nil_r, map_app in Hb.
      assert (r ≠ r') as Hrr by congruence.
      destruct (ReAllocate_ok r r' size n
                  (upd_block r' (replicate (length l1) None ++ Some x
                                   :: replicate (length l2) None ++ rest) h)
                  l1 l2 (Some x) rest) as (l' & Hlen' & HRe); try done.
      { by blk. }
      { by blk. }
      rewrite upd_block_twice in HRe.
      eexists. split; [|split; [|split; [|split]]].
      + erewrite bind_ok by (erewrite bind_ok by reflexivity; reflexivity).
        psimpl.
        erewrite bind_ok; last first.
        { apply lift_ok.
          eapply (emplace_construct_at_ok (Ptr r' i) _ (replicate (length l1) None)); vsimpl;
            [|unfold i; rewrite length_replicate; lia|done].
          unfold h1. blk. by rewrite Hslots. }
        fold x. unfold h1. rewrite upd_block_twice.
        erewrite bind_ok by exact HRe.
        erewrite bind_ok; last first.
        { apply lift_ok. eapply (destroy_n_ok r 0 size _ l' [] []); vsimpl.
          - lia.
          - blk. simpl. by rewrite app_nil_r.
          - done. }
        reflexivity.
      + blk. rewrite map_app. simpl. by rewrite <- (assoc_L (++)).
      + done.
      + done.
      + eexists. split; [|split; [|split; [|split; [|split]]]].
        * eapply operator_delete_ok; [done|]. by blk.
        * simpl. rewrite lookup_delete_ne by done. done.
        * simpl. by rewrite app_nil_r, live_replicate_None.
        * done.
        * intros _. simpl. apply lookup_delete_eq.
        * intros r0 Hne0 Hne0'. simpl. rewrite lookup_delete_ne by done.
          rewrite !lookup_insert_ne by done. done. }
  exists h5. split; [|split; [|split; [|split; [|split]]]].
  - unfold Vector.Emplace. erewrite bind_ok by reflexivity. psimpl.
    rewrite !ptr_leb_same.
    destruct (N.leb_spec 0 i) as [_|]; [|lia].
    destruct (N.leb_spec i size) as [_|]; [|lia].
    cbn [andb]. erewrite bind_ok by reflexivity. cbn zeta.
    rewrite ptr_diff_same by lia. rewrite N.sub_0_r, N.eqb_refl.
    rewrite grown_wrap by done. fold n.
    erewrite bind_ok; last first.
    { unfold RawMemory.ctor.
      erewrite bind_ok; last first.
      { apply lift_ok. erewrite bind_ok by (by apply Allocate_ok). reflexivity. }
      fold r' h1.
      erewrite bind_ok by (apply try_catch_ok; exact Hbuild).
      unfold RawMemory.Swap. vsimpl.
      erewrite bind_ok by reflexivity.
      erewrite bind_ok by (apply lift_ok; exact Hdel).
      reflexivity. }
    erewrite bind_ok by reflexivity. vsimpl.
    erewrite bind_ok by reflexivity.
    rewrite wrap_small by lia. reflexivity.
  - apply repr_intro; try done; try lia.
    + rewrite !length_app in *. simpl. lia.
    + rewrite Hb5, Hb4. unfold rest. do 3 f_equal.
      rewrite !length_app. simpl. lia.
  - by rewrite Hlk5.
  - by rewrite Hlim5.
  - vsimpl. intros Hc. by apply Hrel5.
  - vsimpl. exact Hoth5.
Qed.

(** [Emplace] with spare capacity when nothing throws: the new element is
    inserted at [i], but into the sequence whose last element has been
    moved from. *)
Lemma Emplace_spare v h l (i : nat) (a : ctor_args T) :
  Vector.repr v h l → Vector.size_ v < Vector.Capacity v → (i ≤ length l)%nat →
  args_throws a = false →
  (∀ z, last l = Some z → move_ctor_throws z = false) →
  (∀ d y, move_assign_throws d y = false) →
  let v' := Vector.Make (Vector.data_ v) (Vector.size_ v + 1) in
  let pos := ptr_add (Vector.begin v) (N.of_nat i) in
  ∃ h', Vector.Emplace pos a (Vector.State v h) = Ok pos (Vector.State v' h')
        ∧ Vector.repr v' h' (Vector.inserted i (args_value a) (Vector.last_moved_from l))
        ∧ Vector.same_blocks h h' ∧ leaked h' = leaked h ∧ limit h' = limit h.
Proof.
  intros Hv Hspare Hi Ha Hlast Hnt v' pos.
  pose proof (repr_buffer_off _ _ _ Hv) as Hov.
  pose proof (repr_size _ _ _ Hv) as Hsv.
  pose proof (repr_capacity _ _ _ Hv) as [Hlev Hmaxv].
  pose proof (repr_fits _ _ _ Hv) as Hfit.
  destruct v as [[[r o] cap] size]. subst pos v'.
  cbn [Vector.data_ Vector.size_ RawMemory.buffer_ RawMemory.capacity_ base off] in *.
  vsimpl in Hspare. subst o.
  assert (cap ≠ 0) as Hc by lia.
  destruct (repr_block _ _ _ Hv Hc) as (_ & Hr0 & Hb).
  cbn [Vector.data_ Vector.size_ RawMemory.buffer_ RawMemory.capacity_ base off] in Hb, Hr0.
  set (x := args_value a).
  set (l' := Vector.last_moved_from l).
  pose proof (length_last_moved_from l) as Hlen'. fold l' in Hlen'.
  set (tail' := replicate (N.to_nat cap - S (length l)) (@None T)).
  assert (replicate (N.to_nat cap - length l) (@None T) = None :: tail') as Htail.
  { unfold tail'. by replace (N.to_nat cap - length l)%nat
      with (S (N.to_nat cap - S (length l))) by lia. }
  rewrite Htail in Hb.
  (* the block when the new element is about to be constructed *)
  assert (∃ h3,
    (if negb (size =? 0)
     then p <- RawMemory.plus (RawMemory.Make (Ptr r 0) cap) size ;;
          Vector.lift (move_construct_at p (Ptr r (size - 1))) ;;;
          try_catch
            (Vector.lift (std_move_backward (Ptr r (N.of_nat i)) (Ptr r size) (Ptr r (size + 1))))
            (Vector.lift (destroy_at (Ptr r size))) ;;;
          Vector.lift (destroy_at (Ptr r (N.of_nat i)))
     else ret tt)
      (Vector.State (Vector.Make (RawMemory.Make (Ptr r 0) cap) size) h)
    = Ok tt (Vector.State (Vector.Make (RawMemory.Make (Ptr r 0) cap) size) h3)
    ∧ h3 = upd_block r (map Some (take i l') ++ None :: map Some (drop i l') ++ tail') h)
    as (h3 & Hshift & ->).
  { destruct l as [|z l0 _] using rev_ind.
    - (* the empty vector: nothing to shift *)
      simpl in Hsv. subst size. simpl. eexists. split; [reflexivity|].
      assert (i = 0)%nat as -> by (simpl in Hi; lia).
      simpl. by rewrite upd_block_same.
    - rewrite length_app in *. simpl length in *.
      destruct (N.eqb_spec size 0) as [|_]; [lia|]. cbn [negb].
      subst l'. rewrite last_moved_from_snoc in *.
      set (l' := l0 ++ [moved_from z]) in *.
      rewrite map_app, <- (assoc_L (++)) in Hb. simpl in Hb.
      assert (blocks (upd_block r (map Some l0 ++ Some (moved_from z) :: Some z :: tail') h) !! r
              = Some (map Some (take i l') ++ map Some (drop i l') ++ Some z :: tail')) as Hb1.
      { blk. rewrite (assoc_L (++)), <- map_app, take_drop. unfold l'.
        by rewrite map_app, <- (assoc_L (++)). }
      destruct (std_move_backward_up r (N.of_nat i) size _ (drop i l') z
                  (map Some (take i l')) tail' Hnt Hb1) as (w & Hback).
      { rewrite length_map, length_take. lia. }
      { rewrite length_map, length_take, length_drop. lia. }
      { lia. }
      rewrite upd_block_twice in Hback.
      eexists. split.
      + unfold RawMemory.plus. vsimpl.
        destruct (N.leb_spec size cap) as [_|]; [|lia].
        erewrite bind_ok by (erewrite bind_ok by reflexivity; reflexivity).
        psimpl.
        erewrite bind_ok; last first.
        { apply lift_ok.
          eapply (move_construct_at_up (Ptr r size) (Ptr r (size - 1)) h (map Some l0) z tail');
            cbn [base off]; try done.
          - rewrite length_map. lia.
          - rewrite length_map. lia.
          - apply Hlast. by rewrite last_snoc. }
        cbn [base].
        erewrite bind_ok by (apply try_catch_ok, lift_ok; exact Hback).
        apply lift_ok.
        eapply (destroy_at_mid (Ptr r (N.of_nat i)) _ (map Some (take i l')) w); cbn [base off].
        * by blk.
        * rewrite length_map, length_take. lia.
      + cbn [base]. by rewrite upd_block_twice. }
  eexists. split; [|split; [|split; [|split]]].
  - unfold Vector.Emplace. erewrite bind_ok by reflexivity. psimpl.
    rewrite !ptr_leb_same.
    destruct (N.leb_spec 0 (N.of_nat i)) as [_|]; [|lia].
    destruct (N.leb_spec (N.of_nat i) size) as [_|]; [|lia].
    cbn [andb]. erewrite bind_ok by reflexivity. cbn zeta.
    rewrite ptr_diff_same by lia. rewrite N.sub_0_r.
    destruct (N.eqb_spec size cap) as [|_]; [lia|].
    erewrite bind_ok; last first.
    { erewrite bind_ok by exact Hshift.
      unfold RawMemory.plus. vsimpl.
      destruct (N.leb_spec (N.of_nat i) cap) as [_|]; [|lia].
      erewrite bind_ok by (erewrite bind_ok by reflexivity; reflexivity).
      psimpl.
      erewrite bind_ok; last first.
      { apply lift_ok.
        eapply (emplace_construct_at_ok (Ptr r (N.of_nat i)) _ (map Some (take i l')));
          cbn [base off]; [by blk| |done].
        rewrite length_map, length_take. lia. }
      reflexivity. }
    erewrite bind_ok by reflexivity. vsimpl.
    erewrite bind_ok by reflexivity.
    rewrite wrap_small by lia. reflexivity.
  - cbn [base]. rewrite upd_block_twice. fold x.
    apply repr_intro; try done; try lia.
    + unfold Vector.inserted. rewrite length_app. simpl.
      rewrite length_take, length_drop. lia.
    + blk. unfold Vector.inserted.
      replace (length (take i l' ++ x :: drop i l')) with (S (length l)); last first.
      { rewrite length_app. simpl. rewrite length_take, length_drop. lia. }
      rewrite map_app. simpl. rewrite lookup_insert_eq.
      by rewrite <- (assoc_L (++)).
  - cbn [base]. rewrite upd_block_twice.
    eapply same_blocks_upd; [done|].
    rewrite !length_app. simpl. rewrite !length_app, !length_map, length_take, length_drop.
    unfold tail'. rewrite !length_replicate. lia.
  - done.
  - done.
Qed.

Lemma PushBack_spec v h l (a : ctor_args T) :
  Vector.repr v h l → never_throws →
  (Vector.size_ v = Vector.Capacity v → Vector.grants h (Vector.grown (Vector.size_ v))) →
  ∃ v' h',
    Vector.PushBack a (Vector.State v h) = Ok tt (Vector.State v' h')
    ∧ Vector.repr v' h'
        ((if Vector.size_ v =? Vector.Capacity v then l else Vector.last_moved_from l)
         ++ [args_value a])
    ∧ Vector.size_ v' = Vector.size_ v + 1
    ∧ Vector.Capacity v'
      = (if Vector.size_ v =? Vector.Capacity v then Vector.grown (Vector.size_ v)
         else Vector.Capacity v)
    ∧ limit h' = limit h.
Proof.
  intros Hv Hnt Hg.
  pose proof (repr_size _ _ _ Hv) as Hsv.
  pose proof (repr_capacity _ _ _ Hv) as [Hlev _].
  assert (Vector.end_ v = ptr_add (Vector.begin v) (N.of_nat (length l))) as Hend.
  { unfold Vector.end_, Vector.begin. by rewrite Hsv. }
  unfold Vector.PushBack, Vector.EmplaceBack.
  destruct (N.eqb_spec (Vector.size_ v) (Vector.Capacity v)) as [Hfull|Hspare].
  - rewrite <- (app_nil_r l) in Hv.
    destruct (Emplace_full v h l [] a Hv Hfull (Hg Hfull) (never_throws_args a Hnt)
                (never_throws_relocation _ Hnt)) as (h' & Heq & Hv' & _ & Hlim & _).
    eexists _, h'. split; [|split; [|split; [|split]]]; [|exact Hv'|done|done|done].
    erewrite bind_ok; [reflexivity|].
    erewrite bind_ok by reflexivity. simpl. rewrite Hend. exact Heq.
  - assert (Vector.size_ v < Vector.Capacity v) as Hlt by (vsimpl; vsimpl in Hspare; lia).
    destruct (Emplace_spare v h l (length l) a Hv Hlt (le_n _) (never_throws_args a Hnt))
      as (h' & Heq & Hv' & _ & _ & Hlim).
    { intros z _. apply Hnt. }
    { apply Hnt. }
    unfold Vector.inserted in Hv'.
    rewrite take_ge, drop_ge in Hv' by (rewrite length_last_moved_from; lia).
    eexists _, h'. split; [|split; [|split; [|split]]]; [|exact Hv'|done|done|done].
    erewrite bind_ok; [reflexivity|].
    erewrite bind_ok by reflexivity. simpl. rewrite Hend. exact Heq.
Qed.




End EmplaceFacts.

(** ** Raw memory and construction *)

Section ConstructionFacts.
Context {T : Type} {ET : Element T}.
Implicit Types (h : heap T) (b pre suf : block T) (x y : T) (l xs : list T).
Implicit Types (p q : ptr) (s : option T) (v : Vector.t).

(** Releasing a block allocated a moment ago, still without a live element,
    gives back the heap as it was. *)
Lemma operator_delete_fresh h (k : nat) :
  operator_delete (Ptr (fresh_block h) 0) (upd_block (fresh_block h) (replicate k None) h)
  = Ok tt h.
Proof.
  erewrite operator_delete_ok;
    [|apply fresh_block_nonzero|apply blocks_upd_block_eq].
  rewrite live_replicate_None. unfold upd_block. cbn [blocks leaked limit app].
  rewrite delete_insert_eq, delete_id by apply fresh_block_unused.
  by destruct h.
Qed.

Lemma Allocate_refused h (n : N) :
  n ≠ 0 → n * N.pos sizeof_T < size_max → limit h < n * N.pos sizeof_T →
  RawMemory.Allocate n h = Throw bad_alloc h.
Proof.
  intros Hn Hfit Hlim. unfold RawMemory.Allocate.
  destruct (N.eqb_spec n 0) as [|_]; [done|]. simpl.
  unfold operator_new. rewrite wrap_small by done.
  by destruct (N.leb_spec (n * N.pos sizeof_T) (limit h)) as [|_]; [lia|].
Qed.

Lemma RawMemory_ctor_ok h (n : N) :
  n ≠ 0 → Vector.grants h n →
  RawMemory.ctor n h
  = Ok (RawMemory.Make (Ptr (fresh_block h) 0) n)
       (upd_block (fresh_block h) (replicate (N.to_nat n) None) h).
Proof.
  intros Hn Hg. unfold RawMemory.ctor.
  by erewrite bind_ok by (by apply Allocate_ok).
Qed.

Lemma RawMemory_ctor_refused h (n : N) :
  n ≠ 0 → n * N.pos sizeof_T < size_max → limit h < n * N.pos sizeof_T →
  RawMemory.ctor n h = Throw bad_alloc h.
Proof.
  intros Hn Hfit Hlim. unfold RawMemory.ctor.
  by erewrite bind_throw by (by apply Allocate_refused).
Qed.

Lemma RawMemory_dtor_default h : RawMemory.dtor RawMemory.default h = Ok tt h.
Proof. reflexivity. Qed.

Lemma Vector_dtor_default h : Vector.dtor Vector.default h = Ok tt h.
Proof. reflexivity. Qed.

End ConstructionFacts.

(** ** Element access *)

Section IndexFacts.
Context {T : Type} {ET : Element T}.
Implicit Types (h : heap T) (b pre suf : block T) (x y : T) (l xs : list T).
Implicit Types (p q : ptr) (s : option T) (v : Vector.t).

(** [operator[]] on a valid vector. *)
Lemma index_in_range v h l (i : N) x :
  Vector.repr v h l → l !! N.to_nat i = Some x →
  Vector.index i (Vector.State v h) = Ok (ptr_add (Vector.begin v) i) (Vector.State v h)
  ∧ load (ptr_add (Vector.begin v) i) h = Ok x h.
Proof.
  intros Hv Hx.
  pose proof (repr_size _ _ _ Hv) as Hsz.
  pose proof (repr_capacity _ _ _ Hv) as [Hle Hmax].
  pose proof (lookup_lt_Some _ _ _ Hx) as Hlt.
  assert (RawMemory.capacity_ (Vector.data_ v) ≠ 0) as Hc by lia.
  destruct (repr_block _ _ _ Hv Hc) as (Ho & _ & Hb).
  split.
  - unfold Vector.index, RawMemory.index, bind, Vector.this, assert. vsimpl.
    destruct (N.ltb_spec i (Vector.size_ v)) as [_|]; [|lia]. simpl.
    by destruct (N.ltb_spec i (RawMemory.capacity_ (Vector.data_ v))) as [_|]; [|lia].
  - rewrite <- (take_drop_middle _ _ _ Hx), map_app in Hb. cbn [map] in Hb.
    rewrite <- (assoc_L (++)) in Hb.
    eapply load_mid; [exact Hb|]. psimpl. rewrite Ho.
    rewrite length_map, length_take. lia.
Qed.

Lemma index_out_of_range v h (i : N) :
  Vector.size_ v ≤ i → Vector.index i (Vector.State v h) = Fault.
Proof.
  intros Hi. unfold Vector.index, bind, Vector.this, assert. vsimpl.
  by destruct (N.ltb_spec i (Vector.size_ v)) as [|_]; [lia|].
Qed.

End IndexFacts.

(** ** Failure of Reserve *)

Section ReserveFailureFacts.
Context {T : Type} {ET : Element T}.
Implicit Types (h : heap T) (b pre suf : block T) (x y : T) (l xs : list T).
Implicit Types (p q : ptr) (s : option T) (v : Vector.t).

Lemma Reserve_refused v h (n : N) :
  Vector.Capacity v < n → n * N.pos sizeof_T < size_max → limit h < n * N.pos sizeof_T →
  Vector.Reserve n (Vector.State v h) = Throw bad_alloc (Vector.State v h).
Proof.
  intros Hn Hfit Hlim. unfold Vector.Reserve.
  erewrite bind_ok by reflexivity. vsimpl. vsimpl in Hn.
  destruct (N.leb_spec n (RawMemory.capacity_ (Vector.data_ v))) as [|_]; [lia|].
  erewrite bind_throw; [done|].
  apply lift_throw, RawMemory_ctor_refused; [lia|done|done].
Qed.

(** Relocation by copying, with a copy constructor that throws. *)
Lemma Reserve_copy_throws v h l (n : N) :
  Vector.repr v h l → Vector.Capacity v < n → Vector.grants h n →
  is_nothrow_move_constructible || negb is_copy_constructible = false →
  ¬ Forall (λ x, copy_ctor_throws x = false) l →
  Vector.Reserve n (Vector.State v h) = Throw element_error (Vector.State v h).
Proof.
  destruct v as [[[r o] cap] size]. unfold Vector.repr. vsimpl.
  intros (Hsize & Hle & Hcap%fits_size_t & Hbuf) Hn Hg Hpol Hnot.
  destruct (first_throw copy_ctor_throws l) as [Hok|(xs1 & x & xs2 & -> & Hok & Hx)]; [done|].
  rewrite length_app in Hsize. cbn [length] in Hsize.
  assert (n ≠ 0) as Hn0 by lia.
  pose proof (grants_size_t _ _ Hg) as Hnmax.
  pose proof (fresh_block_nonzero h) as Hf0.
  pose proof (fresh_block_unused h) as Hfu.
  destruct (N.eqb_spec cap 0) as [Hc0|Hc0]; [lia|]. destruct Hbuf as (-> & Hr0 & Hb).
  set (r' := fresh_block h) in *.
  assert (r ≠ r') as Hrr by congruence.
  unfold Vector.Reserve.
  erewrite bind_ok by reflexivity. vsimpl.
  destruct (N.leb_spec n cap) as [|_]; [lia|].
  erewrite bind_ok by (by apply lift_ok, RawMemory_ctor_ok).
  fold r'. rewrite Hpol. vsimpl.
  erewrite bind_throw; [done|].
  eapply try_catch_throw.
  - apply lift_throw. unfold uninitialized_copy_n.
    replace (N.to_nat size) with (length xs1 + S (length xs2))%nat by lia.
    eapply (uninitialized_copy_loop_throw xs1 _ x (Ptr r 0) (Ptr r' 0) (Ptr r' 0) _
              [] (map Some xs2 ++ replicate (N.to_nat cap - length (xs1 ++ x :: xs2)) None)
              [] [] (replicate (N.to_nat n - length xs1) None)); vsimpl; eauto.
    + rewrite blocks_upd_block_ne by done. rewrite Hb.
      rewrite !map_app. cbn [map app]. by rewrite <- !(assoc_L (++)).
    + rewrite blocks_upd_block_eq. cbn [app map]. rewrite <- replicate_add.
      do 2 f_equal. lia.
    + simpl. lia.
  - unfold RawMemory.dtor, RawMemory.Deallocate. vsimpl.
    apply lift_ok. rewrite upd_block_twice. cbn [app length Nat.add].
    rewrite <- replicate_add. apply operator_delete_fresh.
Qed.

End ReserveFailureFacts.

(** ** Emplace and Erase: prologue, bounds and EmplaceBack *)

Section EmplaceBoundsFacts.
Context {T : Type} {ET : Element T}.
Implicit Types (h : heap T) (b pre suf : block T) (x y : T) (l xs : list T).
Implicit Types (p q : ptr) (s : option T) (v : Vector.t).

Lemma grown_bounds (size : N) : Vector.grown size ≠ 0 ∧ size + 1 ≤ Vector.grown size.
Proof. unfold Vector.grown. destruct (N.eqb_spec size 0); lia. Qed.

(** The prologue of [Emplace] on a full vector: the assertion holds and the
    new buffer is requested. *)
Lemma Emplace_full_unfold v h l (i : N) (a : ctor_args T) :
  Vector.repr v h l → Vector.size_ v = Vector.Capacity v → i ≤ Vector.size_ v →
  Vector.grown (Vector.size_ v) * N.pos sizeof_T < size_max →
  Vector.Emplace (ptr_add (Vector.begin v) i) a (Vector.State v h)
  = (value <-
       (new_data <- Vector.lift (RawMemory.ctor (Vector.grown (Vector.size_ v))) ;;
        value <-
          try_catch
            (value <- RawMemory.plus new_data i ;;
             Vector.lift (emplace_construct_at value a) ;;;
             Vector.ReAllocate i new_data ;;;
             Vector.lift (destroy_n (Vector.begin v) (Vector.size_ v)) ;;;
             ret value)
            (Vector.lift (RawMemory.dtor new_data)) ;;
        let '(d, new_data) := RawMemory.Swap (Vector.data_ v) new_data in
        Vector.set_data d ;;;
        Vector.lift (RawMemory.dtor new_data) ;;;
        ret value) ;;
     v <- Vector.this ;;
     Vector.set_size (wrap (Vector.size_ v + 1)) ;;;
     ret value) (Vector.State v h).
Proof.
  intros Hv Hfull Hi Hfit.
  pose proof (repr_buffer_off _ _ _ Hv) as Hov.
  pose proof (repr_capacity _ _ _ Hv) as [Hlev Hmaxv].
  destruct v as [[[r o] cap] size].
  cbn [Vector.data_ Vector.size_ RawMemory.buffer_ RawMemory.capacity_ base off] in *.
  vsimpl in Hfull. subst o cap.
  unfold Vector.Emplace. erewrite bind_ok by reflexivity. psimpl.
  rewrite !ptr_leb_same.
  destruct (N.leb_spec 0 i) as [_|]; [|lia].
  destruct (N.leb_spec i size) as [_|]; [|lia].
  cbn [andb]. erewrite bind_ok by reflexivity. cbn zeta.
  rewrite ptr_diff_same by lia. rewrite N.sub_0_r, N.eqb_refl.
  rewrite grown_wrap by (by apply fits_size_t). done.
Qed.

(** Positions outside the vector make the assertions fail. *)
Lemma Emplace_out_of_range v h (i : N) (a : ctor_args T) :
  Vector.size_ v < i →
  Vector.Emplace (ptr_add (Vector.begin v) i) a (Vector.State v h) = Fault.
Proof.
  intros Hi. destruct v as [[[r o] cap] size]. vsimpl in Hi.
  unfold Vector.Emplace. erewrite bind_ok by reflexivity. psimpl.
  rewrite !ptr_leb_same.
  destruct (N.leb_spec (o + i) (o + size)) as [|_]; [lia|].
  by rewrite andb_false_r.
Qed.

Lemma Erase_out_of_range v h (i : N) :
  Vector.size_ v ≤ i →
  Vector.Erase (ptr_add (Vector.begin v) i) (Vector.State v h) = Fault.
Proof.
  intros Hi. destruct v as [[[r o] cap] size]. vsimpl in Hi.
  unfold Vector.Erase. erewrite bind_ok by reflexivity. psimpl.
  rewrite ptr_leb_same, ptr_ltb_same.
  destruct (N.ltb_spec (o + i) (o + size)) as [|_]; [lia|].
  by rewrite andb_false_r.
Qed.

(** [EmplaceBack] returns the address of the new last element. *)
Lemma EmplaceBack_spec v h l (a : ctor_args T) :
  Vector.repr v h l → never_throws →
  (Vector.size_ v = Vector.Capacity v → Vector.grants h (Vector.grown (Vector.size_ v))) →
  ∃ v' h',
    Vector.EmplaceBack a (Vector.State v h)
    = Ok (ptr_add (Vector.begin v') (Vector.size_ v)) (Vector.State v' h')
    ∧ load (ptr_add (Vector.begin v') (Vector.size_ v)) h' = Ok (args_value a) h'
    ∧ Vector.repr v' h'
        ((if Vector.size_ v =? Vector.Capacity v then l else Vector.last_moved_from l)
         ++ [args_value a])
    ∧ Vector.size_ v' = Vector.size_ v + 1.
Proof.
  intros Hv Hnt Hg.
  pose proof (repr_size _ _ _ Hv) as Hsv.
  pose proof (repr_capacity _ _ _ Hv) as [Hlev _].
  assert (Vector.end_ v = ptr_add (Vector.begin v) (N.of_nat (length l))) as Hend.
  { unfold Vector.end_, Vector.begin. by rewrite Hsv. }
  unfold Vector.EmplaceBack.
  destruct (N.eqb_spec (Vector.size_ v) (Vector.Capacity v)) as [Hfull|Hspare].
  - rewrite <- (app_nil_r l) in Hv.
    destruct (Emplace_full v h l [] a Hv Hfull (Hg Hfull) (never_throws_args a Hnt)
                (never_throws_relocation _ Hnt)) as (h' & Heq & Hv' & _ & Hlim & _).
    eexists _, h'. split; [|split; [|split]]; [| |exact Hv'|done].
    + erewrite bind_ok by reflexivity. cbn [Vector.self]. rewrite Hend, Heq.
      psimpl. by rewrite Hsv.
    + eapply index_in_range; [exact Hv'|].
      rewrite Hsv, Nat2N.id. by apply list_lookup_middle.
  - assert (Vector.size_ v < Vector.Capacity v) as Hlt by (vsimpl; vsimpl in Hspare; lia).
    destruct (Emplace_spare v h l (length l) a Hv Hlt (le_n _) (never_throws_args a Hnt))
      as (h' & Heq & Hv' & _ & _ & Hlim).
    { intros z _. apply Hnt. }
    { apply Hnt. }
    unfold Vector.inserted in Hv'.
    rewrite take_ge, drop_ge in Hv' by (rewrite length_last_moved_from; lia).
    eexists _, h'. split; [|split; [|split]]; [| |exact Hv'|done].
    + erewrite bind_ok by reflexivity. cbn [Vector.self]. rewrite Hend, Heq.
      psimpl. by rewrite Hsv.
    + eapply index_in_range; [exact Hv'|].
      rewrite Hsv, Nat2N.id. apply list_lookup_middle.
      by rewrite length_last_moved_from.
Qed.

End EmplaceBoundsFacts.

(** ** Releasing a block with live elements *)

Section ReleaseFacts.
Context {T : Type} {ET : Element T}.
Implicit Types (h : heap T) (b pre suf : block T) (x y : T) (l xs : list T).
Implicit Types (p q : ptr) (s : option T) (v : Vector.t).




End ReleaseFacts.

(** ** Emplace with spare capacity *)

Section EmplaceSpareFacts.
Context {T : Type} {ET : Element T}.
Implicit Types (h : heap T) (b pre suf : block T) (x y : T) (l xs : list T).
Implicit Types (p q : ptr) (s : option T) (v : Vector.t).

(** The buffer when [Emplace], with spare capacity, is about to construct
    the new element: the elements from [i] on are one slot up, the last
    element of [l] has been moved from, and slot [i] is unconstructed. *)
Lemma Emplace_spare_shift r (cap size : N) h l (i : nat) :
  Vector.repr (Vector.Make (RawMemory.Make (Ptr r 0) cap) size) h l →
  size < cap → (i ≤ length l)%nat →
  (∀ z, last l = Some z → move_ctor_throws z = false) →
  (∀ d y, move_assign_throws d y = false) →
  let l' := Vector.last_moved_from l in
  (if negb (size =? 0)
   then p <- RawMemory.plus (RawMemory.Make (Ptr r 0) cap) size ;;
        Vector.lift (move_construct_at p (Ptr r (size - 1))) ;;;
        try_catch
          (Vector.lift (std_move_backward (Ptr r (N.of_nat i)) (Ptr r size) (Ptr r (size + 1))))
          (Vector.lift (destroy_at (Ptr r size))) ;;;
        Vector.lift (destroy_at (Ptr r (N.of_nat i)))
   else ret tt)
    (Vector.State (Vector.Make (RawMemory.Make (Ptr r 0) cap) size) h)
  = Ok tt (Vector.State (Vector.Make (RawMemory.Make (Ptr r 0) cap) size)
             (upd_block r (map Some (take i l') ++ None :: map Some (drop i l')
                             ++ replicate (N.to_nat cap - S (length l)) None) h)).
Proof.
  intros Hv Hspare Hi Hlast Hnt l'.
  pose proof (repr_size _ _ _ Hv) as Hsv.
  pose proof (repr_capacity _ _ _ Hv) as [Hlev Hmaxv].
  cbn [Vector.data_ Vector.size_ RawMemory.buffer_ RawMemory.capacity_ base off] in *.
  assert (cap ≠ 0) as Hc by lia.
  destruct (repr_block _ _ _ Hv Hc) as (_ & Hr0 & Hb).
  cbn [Vector.data_ Vector.size_ RawMemory.buffer_ RawMemory.capacity_ base off] in Hb, Hr0.
  pose proof (length_last_moved_from l) as Hlen'. fold l' in Hlen'.
  set (tail' := replicate (N.to_nat cap - S (length l)) (@None T)).
  assert (replicate (N.to_nat cap - length l) (@None T) = None :: tail') as Htail.
  { unfold tail'. by replace (N.to_nat cap - length l)%nat
      with (S (N.to_nat cap - S (length l))) by lia. }
  rewrite Htail in Hb.
  destruct l as [|z l0 _] using rev_ind.
  - simpl in Hsv. subst size. simpl.
    assert (i = 0)%nat as -> by (simpl in Hi; lia).
    simpl. by rewrite upd_block_same.
  - rewrite length_app in *. simpl length in *.
    destruct (N.eqb_spec size 0) as [|_]; [lia|]. cbn [negb].
    subst l'. rewrite last_moved_from_snoc in *.
    set (l' := l0 ++ [moved_from z]) in *.
    rewrite map_app, <- (assoc_L (++)) in Hb. simpl in Hb.
    assert (blocks (upd_block r (map Some l0 ++ Some (moved_from z) :: Some z :: tail') h) !! r
            = Some (map Some (take i l') ++ map Some (drop i l') ++ Some z :: tail')) as Hb1.
    { blk. rewrite (assoc_L (++)), <- map_app, take_drop. unfold l'.
      by rewrite map_app, <- (assoc_L (++)). }
    destruct (std_move_backward_up r (N.of_nat i) size _ (drop i l') z
                (map Some (take i l')) tail' Hnt Hb1) as (w & Hback).
    { rewrite length_map, length_take. lia. }
    { rewrite length_map, length_take, length_drop. lia. }
    { lia. }
    rewrite upd_block_twice in Hback.
    unfold RawMemory.plus. vsimpl.
    destruct (N.leb_spec size cap) as [_|]; [|lia].
    erewrite bind_ok by (erewrite bind_ok by reflexivity; reflexivity).
    psimpl.
    erewrite bind_ok; last first.
    { apply lift_ok.
      eapply (move_construct_at_up (Ptr r size) (Ptr r (size - 1)) h (map Some l0) z tail');
        cbn [base off]; try done.
      - rewrite length_map. lia.
      - rewrite length_map. lia.
      - apply Hlast. by rewrite last_snoc. }
    cbn [base].
    erewrite bind_ok by (apply try_catch_ok, lift_ok; exact Hback).
    erewrite lift_ok; last first.
    { eapply (destroy_at_mid (Ptr r (N.of_nat i)) _ (map Some (take i l')) w); cbn [base off].
      * by blk.
      * rewrite length_map, length_take. lia. }
    cbn [base]. by rewrite upd_block_twice.
Qed.

(** The constructor of the new element throws after the shift. *)
Lemma Emplace_spare_ctor_throws v h l (i : nat) (a : ctor_args T) :
  Vector.repr v h l → Vector.size_ v < Vector.Capacity v → (i ≤ length l)%nat →
  match a with
  | by_copy x => copy_ctor_throws x = true
  | by_move x => move_ctor_throws x = true ∧ is_nothrow_move_constructible = false
  end →
  (∀ z, last l = Some z → move_ctor_throws z = false) →
  (∀ d y, move_assign_throws d y = false) →
  let l' := Vector.last_moved_from l in
  let pos := ptr_add (Vector.begin v) (N.of_nat i) in
  ∃ h', Vector.Emplace pos a (Vector.State v h) = Throw element_error (Vector.State v h')
        ∧ blocks h' !! base (Vector.begin v)
          = Some (map Some (take i l') ++ None :: map Some (drop i l')
                    ++ replicate (N.to_nat (Vector.Capacity v) - S (length l)) None)
        ∧ Vector.same_blocks h h' ∧ leaked h' = leaked h.
Proof.
  intros Hv Hspare Hi Ha Hlast Hnt l' pos.
  pose proof (repr_buffer_off _ _ _ Hv) as Hov.
  pose proof (repr_size _ _ _ Hv) as Hsv.
  pose proof (repr_capacity _ _ _ Hv) as [Hlev Hmaxv].
  destruct v as [[[r o] cap] size]. subst pos.
  cbn [Vector.data_ Vector.size_ RawMemory.buffer_ RawMemory.capacity_ base off] in *.
  vsimpl in Hspare. subst o.
  assert (cap ≠ 0) as Hc by lia.
  destruct (repr_block _ _ _ Hv Hc) as (_ & Hr0 & Hb).
  cbn [Vector.data_ Vector.size_ RawMemory.buffer_ RawMemory.capacity_ base off] in Hb, Hr0.
  pose proof (Emplace_spare_shift r cap size h l i Hv Hspare Hi Hlast Hnt) as Hshift.
  cbn zeta in Hshift. fold l' in Hshift.
  pose proof (length_last_moved_from l) as Hlen'. fold l' in Hlen'.
  eexists. split; [|split; [|split]].
  - unfold Vector.Emplace. erewrite bind_ok by reflexivity. psimpl.
    rewrite !ptr_leb_same.
    destruct (N.leb_spec 0 (N.of_nat i)) as [_|]; [|lia].
    destruct (N.leb_spec (N.of_nat i) size) as [_|]; [|lia].
    cbn [andb]. erewrite bind_ok by reflexivity. cbn zeta.
    rewrite ptr_diff_same by lia. rewrite N.sub_0_r.
    destruct (N.eqb_spec size cap) as [|_]; [lia|].
    erewrite bind_throw; [reflexivity|].
    erewrite bind_ok by exact Hshift.
    unfold RawMemory.plus. vsimpl.
    destruct (N.leb_spec (N.of_nat i) cap) as [_|]; [|lia].
    erewrite bind_ok by (erewrite bind_ok by reflexivity; reflexivity).
    psimpl.
    erewrite bind_throw; [reflexivity|].
    apply lift_throw. unfold emplace_construct_at.
    destruct a as [x|x]; [by rewrite Ha|]. destruct Ha as [-> ->]. done.
  - vsimpl. by blk.
  - eapply same_blocks_upd; [exact Hb|].
    rewrite !length_app. simpl. rewrite !length_app, !length_map, length_take, length_drop.
    rewrite !length_replicate. lia.
  - done.
Qed.

(** A block with an unconstructed slot below the size represents no
    sequence of elements. *)
Lemma repr_hole v h (l1 : list T) b :
  RawMemory.capacity_ (Vector.data_ v) ≠ 0 →
  blocks h !! base (RawMemory.buffer_ (Vector.data_ v)) = Some (map Some l1 ++ None :: b) →
  N.of_nat (length l1) < Vector.size_ v →
  ¬ ∃ l, Vector.repr v h l.
Proof.
  intros Hc Hb Hlt [l Hv].
  pose proof (repr_size _ _ _ Hv) as Hsv.
  destruct (repr_block _ _ _ Hv Hc) as (_ & _ & Hb').
  rewrite Hb in Hb'. injection Hb' as Hb'.
  apply (f_equal (λ b, b !! length l1)) in Hb'. cbn beta in Hb'.
  rewrite (list_lookup_middle (map Some l1) b None (length l1)) in Hb'
    by (by rewrite length_map).
  rewrite lookup_app_l in Hb' by (rewrite length_map; lia).
  rewrite list_lookup_fmap in Hb'.
  destruct (l !! length l1) eqn:E; [done|].
  apply lookup_ge_None in E. lia.
Qed.


End EmplaceSpareFacts.

(** ** Construction followed by destruction *)

Section RoundTripFacts.
Context {T : Type} {ET : Element T}.
Implicit Types (h : heap T) (b pre suf : block T) (x y : T) (l xs : list T).
Implicit Types (p q : ptr) (s : option T) (v : Vector.t).

(** Destroying a vector whose buffer is the block allocated last and is
    full gives back the heap as it was before the allocation. *)
Lemma dtor_fresh h l (n : N) :
  n = N.of_nat (length l) →
  Vector.dtor (Vector.Make (RawMemory.Make (Ptr (fresh_block h) 0) n) n)
    (upd_block (fresh_block h) (map Some l) h)
  = Ok tt h.
Proof.
  intros ->. unfold Vector.dtor. vsimpl.
  erewrite bind_ok; last first.
  { eapply (destroy_n_ok (fresh_block h) 0 _ _ l [] []); [done| |done].
    blk. cbn [app]. by rewrite app_nil_r. }
  unfold RawMemory.dtor, RawMemory.Deallocate. vsimpl.
  rewrite upd_block_twice. cbn [app]. rewrite app_nil_r.
  apply operator_delete_fresh.
Qed.

End RoundTripFacts.

(** * The claims *)

(** C1 (defect in the code).  Move construction of a [RawMemory] transfers
    region and capacity and leaves the source null with capacity 0.  Move
    assignment does not: with two buffers of capacity 1, after
    [a = std::move(b)] the source [b] has capacity 0 but still holds the
    region [a] had, which the assignment has already released; destroying
    [a] and [b] afterwards releases that region a second time. *)
Theorem RawMemory_move_assign_releases_twice :
  (∀ other, RawMemory.move_ctor other = (other, RawMemory.Make nullptr 0)) ∧
  ∃ h',
    move_assign_two_buffers (empty_heap N)
    = Ok (RawMemory.Make (Ptr 2 0) 1, other_object (RawMemory.Make (Ptr 1 0) 0)) h'
    ∧ blocks h' !! 1%nat = None
    ∧ RawMemory.dtor (T := N) (RawMemory.Make (Ptr 1 0) 0) h' = Fault
    ∧ (RawMemory.dtor (T := N) (RawMemory.Make (Ptr 2 0) 1) ;;;
       RawMemory.dtor (T := N) (RawMemory.Make (Ptr 1 0) 0)) h' = Fault.
Proof.
  split; [by intros [b c]|].
  eexists. split; [vm_compute; reflexivity|]. by vm_compute.
Qed.

(** C2 (defect in the code).  On the vector of owning pointers [[1; 2]] with
    capacity 4, [Emplace] at the front of a pointer to 9 returns normally with
    size 3 and 9 at index 0, but the last element is lost: the vector holds
    [[9; 1; null]], not [[9; 1; 2]]. *)
Theorem Emplace_spare_capacity_loses_last :
  Vector.repr (ET := unique_ptr_element) (Vector.self two_owners) (Vector.mem two_owners)
    [Some 1; Some 2] ∧
  ∃ st',
    Vector.Emplace (ET := unique_ptr_element) (Vector.begin (Vector.self two_owners))
      (by_move (Some 9)) two_owners
    = Ok (Ptr 1 0) st'
    ∧ Vector.Size (Vector.self st') = 3
    ∧ Vector.contents st' = [Some (Some 9); Some (Some 1); Some None]
    ∧ Vector.repr (ET := unique_ptr_element) (Vector.self st') (Vector.mem st')
        [Some 9; Some 1; None].
Proof.
  split.
  - unfold Vector.repr. vm_compute. repeat split; congruence.
  - eexists. split; [vm_compute; reflexivity|].
    unfold Vector.repr. vm_compute. repeat split; congruence.
Qed.

(** C3 (defect in the code).  [Emplace] at index 1 of the full vector
    [[1; 13]], whose elements are relocated by copying and whose copy of 13
    throws: the exception propagates and the vector and its buffer are as
    before, but the copy of the first element made in the new buffer is never
    destroyed; the new buffer is released with that element still live. *)
Theorem Emplace_full_copy_failure_leaks :
  Vector.repr (ET := throwing_copy_element) (Vector.self full_1_13) (Vector.mem full_1_13)
    [1; 13] ∧
  ∃ st',
    Vector.Emplace (ET := throwing_copy_element)
      (ptr_add (Vector.begin (Vector.self full_1_13)) 1) (by_copy 5) full_1_13
    = Throw element_error st'
    ∧ Vector.self st' = Vector.self full_1_13
    ∧ blocks (Vector.mem st') = blocks (Vector.mem full_1_13)
    ∧ leaked (Vector.mem full_1_13) = []
    ∧ leaked (Vector.mem st') = [1].
Proof.
  split.
  - unfold Vector.repr. vm_compute. repeat split; congruence.
  - eexists. split; [vm_compute; reflexivity|]. by vm_compute.
Qed.

(** C4 (defect in the code).  On the vector of owning pointers [[1; 2]] with
    capacity 4, [Insert] at the front followed by [Erase] at the returned
    position gives [[1; null]], not the original [[1; 2]]. *)
Theorem Insert_then_Erase_loses_last :
  Vector.contents two_owners = [Some (Some 1); Some (Some 2)] ∧
  ∃ p st',
    (pos <- Vector.Insert (ET := unique_ptr_element) (Vector.begin (Vector.self two_owners))
              (by_move (Some 9)) ;;
     Vector.Erase (ET := unique_ptr_element) pos) two_owners
    = Ok p st'
    ∧ Vector.Size (Vector.self st') = 2
    ∧ Vector.contents st' = [Some (Some 1); Some None].
Proof.
  split; [by vm_compute|].
  do 2 eexists. split; [vm_compute; reflexivity|]. by vm_compute.
Qed.

(** C5, the claim as stated fails: move assignment of [[1; 2]] to the vector
    [[7]] leaves the source with size 1 and capacity 1. *)
Lemma move_assign_source_not_empty :
  ∃ rhs' st',
    Vector.move_assign (other_object vector_1_2) (Vector.State vector_7 two_vectors_heap)
    = Ok (other_object rhs') st'
    ∧ Vector.Size rhs' = 1 ∧ Vector.Capacity rhs' = 1
    ∧ ¬ (Vector.Size rhs' = 0 ∧ Vector.Capacity rhs' = 0).
Proof.
  do 2 eexists. split; [vm_compute; reflexivity|].
  split; [done|]. split; [done|]. intros [? _]. done.
Qed.

(** C5 (amended).  Move construction leaves the source with size 0, capacity
    0 and the null buffer, and gives the new vector the source's size,
    capacity and buffer.  Move assignment from another object exchanges the
    two: the destination gets the source's size, capacity and buffer, the
    source gets those the destination had, and the heap is untouched.
    Assigning a vector to itself changes nothing. *)
Theorem Vector_move_spec (T : Type) :
  (∀ other : Vector.t, Vector.ctor_move other = (other, Vector.default)) ∧
  (∀ (v rhs : Vector.t) (h : heap T),
     Vector.move_assign (other_object rhs) (Vector.State v h)
     = Ok (other_object v) (Vector.State rhs h)) ∧
  (∀ st : Vector.state T, Vector.move_assign same_object st = Ok same_object st).
Proof.
  split; [|split].
  - by intros [[b c] s].
  - by intros [[bv cv] sv] [[br cr] sr] h.
  - done.
Qed.

(** C6.  Copy assignment [v = rhs] of a vector [rhs] holding [lr] to another
    vector [v] holding [l].  If [rhs.size_] exceeds the capacity of [v]: when
    the allocation of [rhs.size_] elements is granted and no copy
    construction throws, [v] ends up with a fresh buffer of capacity
    [rhs.size_] holding [lr]; otherwise an exception propagates and [v] and
    the whole heap are exactly as before.  If [rhs.size_] fits the capacity:
    provided the copy assignments onto the first [min (size_, rhs.size_)]
    elements and the copy constructions of the elements of [lr] beyond
    [size_] do not throw, [v] keeps its buffer and holds [lr] with size
    [rhs.size_].  Assigning a vector to itself does nothing. *)
Theorem copy_assign_spec {T : Type} {ET : Element T} (v rhs : Vector.t) (h : heap T)
    (l lr : list T) :
  Vector.repr v h l → Vector.repr rhs h lr → Vector.separate v rhs →
  (Vector.Capacity v < Vector.size_ rhs →
   let v' := Vector.Make (RawMemory.Make (Ptr (fresh_block h) 0) (Vector.size_ rhs))
               (Vector.size_ rhs) in
   (Vector.grants h (Vector.size_ rhs) ∧ Forall (λ x, copy_ctor_throws x = false) lr →
    ∃ h', Vector.copy_assign (other_object rhs) (Vector.State v h)
          = Ok tt (Vector.State v' h')
          ∧ Vector.repr v' h' lr ∧ Vector.repr rhs h' lr ∧ leaked h' = leaked h) ∧
   (¬ (Vector.grants h (Vector.size_ rhs) ∧ Forall (λ x, copy_ctor_throws x = false) lr) →
    ∃ e, Vector.copy_assign (other_object rhs) (Vector.State v h)
         = Throw e (Vector.State v h))) ∧
  (Vector.size_ rhs ≤ Vector.Capacity v →
   Forall2 (λ d x, copy_assign_throws d x = false) (take (length lr) l) (take (length l) lr) →
   Forall (λ x, copy_ctor_throws x = false) (drop (length l) lr) →
   let v' := Vector.Make (Vector.data_ v) (Vector.size_ rhs) in
   ∃ h', Vector.copy_assign (other_object rhs) (Vector.State v h)
         = Ok tt (Vector.State v' h')
         ∧ Vector.repr v' h' lr ∧ Vector.repr rhs h' lr ∧ leaked h' = leaked h) ∧
  Vector.copy_assign same_object (Vector.State v h) = Ok tt (Vector.State v h).
Proof.
  intros Hv Hrhs Hsep. split; [|split].
  - intros Hcap v'. split.
    + intros [Hg Hok]. by eapply copy_assign_realloc.
    + intros Hnot. by eapply copy_assign_realloc_fails.
  - intros Hcap Hasg Hctor v'. by eapply copy_assign_in_place.
  - apply copy_assign_self.
Qed.



(** C10.  [PopBack] and [Erase] leave [data_] (the buffer address and the
    capacity) as it was and neither allocate nor release a block.  [PopBack]
    returns with the size decremented (nothing changes on an empty vector).
    [Erase] at index [length l1] of [l1 ++ d :: l2] either returns with the
    size decremented and the elements [l1 ++ l2], or, when a move assignment
    of the shift throws, propagates the exception with the size unchanged. *)
Theorem Erase_PopBack_keep_capacity {T : Type} {ET : Element T} (v : Vector.t) (h : heap T)
    (l : list T) :
  Vector.repr v h l →
  let v' := Vector.Make (Vector.data_ v) (Vector.size_ v - 1) in
  (∃ h', Vector.PopBack (Vector.State v h) = Ok tt (Vector.State v' h')
         ∧ Vector.same_blocks h h'
         ∧ Vector.repr v' h' (take (length l - 1) l)) ∧
  (∀ l1 d l2, l = l1 ++ d :: l2 →
     let pos := ptr_add (Vector.begin v) (N.of_nat (length l1)) in
     if Vector.shift_down_throws d l2
     then ∃ ys h', Vector.Erase pos (Vector.State v h)
                   = Throw element_error (Vector.State v h')
                   ∧ Vector.same_blocks h h'
                   ∧ Vector.repr v h' ys ∧ length ys = length l
     else ∃ h', Vector.Erase pos (Vector.State v h) = Ok pos (Vector.State v' h')
                ∧ Vector.same_blocks h h'
                ∧ Vector.repr v' h' (l1 ++ l2)).
Proof.
  intros Hv v'. split.
  - destruct (PopBack_spec v h l Hv) as (h' & Heq & Hv' & Hsame & _). by exists h'.
  - intros l1 d l2 -> pos. destruct (Vector.shift_down_throws d l2) eqn:Hthrows.
    + destruct (Erase_throw v h l1 d l2 Hv Hthrows) as (ys & h' & Heq & Hv' & Hlen & Hsame & _).
      by exists ys, h'.
    + destruct (Erase_ok v h l1 d l2 Hv Hthrows) as (h' & Heq & Hv' & Hsame & _).
      by exists h'.
Qed.

(** [copy_assign_spec] applies: assigning [[1; 2]] to the vector [[7]] of
    capacity 1 reallocates. *)
Lemma copy_assign_spec_witness :
  Vector.repr (ET := int_element) vector_7 two_vectors_heap [7] ∧
  Vector.repr (ET := int_element) vector_1_2 two_vectors_heap [1; 2] ∧
  Vector.separate vector_7 vector_1_2 ∧
  ∃ h',
    Vector.copy_assign (ET := int_element) (other_object vector_1_2)
      (Vector.State vector_7 two_vectors_heap)
    = Ok tt (Vector.State (Vector.Make (RawMemory.Make (Ptr (fresh_block two_vectors_heap) 0) 2) 2) h')
    ∧ Vector.repr (ET := int_element)
        (Vector.Make (RawMemory.Make (Ptr (fresh_block two_vectors_heap) 0) 2) 2) h' [1; 2]
    ∧ Vector.repr (ET := int_element) vector_1_2 h' [1; 2]
    ∧ leaked h' = leaked two_vectors_heap.
Proof.
  assert (Vector.repr (ET := int_element) vector_7 two_vectors_heap [7]) as Hv.
  { unfold Vector.repr. vm_compute. repeat split; congruence. }
  assert (Vector.repr (ET := int_element) vector_1_2 two_vectors_heap [1; 2]) as Hrhs.
  { unfold Vector.repr. vm_compute. repeat split; congruence. }
  assert (Vector.separate vector_7 vector_1_2) as Hsep.
  { intros _ _. vm_compute. congruence. }
  split; [exact Hv|]. split; [exact Hrhs|]. split; [exact Hsep|].
  apply (copy_assign_spec (ET := int_element) vector_7 vector_1_2 two_vectors_heap
           [7] [1; 2] Hv Hrhs Hsep).
  - vm_compute. reflexivity.
  - split.
    + split; vm_compute; congruence.
    + repeat constructor.
Defined.


(** [Erase_PopBack_keep_capacity] applies: [Erase] at index 1 of [[1; 2; 3]]
    with capacity 4. *)
Lemma Erase_PopBack_keep_capacity_witness :
  Vector.repr (ET := int_element) (vector_at_1 4 3) (one_block [Some 1; Some 2; Some 3; None])
    [1; 2; 3] ∧
  ∃ h',
    Vector.Erase (ET := int_element) (Ptr 1 1)
      (Vector.State (vector_at_1 4 3) (one_block [Some 1; Some 2; Some 3; None]))
    = Ok (Ptr 1 1) (Vector.State (vector_at_1 4 2) h')
    ∧ Vector.same_blocks (one_block [Some 1; Some 2; Some 3; None]) h'
    ∧ Vector.repr (ET := int_element) (vector_at_1 4 2) h' [1; 3].
Proof.
  assert (Vector.repr (ET := int_element) (vector_at_1 4 3)
            (one_block [Some 1; Some 2; Some 3; None]) [1; 2; 3]) as Hv.
  { unfold Vector.repr. vm_compute. repeat split; congruence. }
  split; [exact Hv|].
  exact (proj2 (Erase_PopBack_keep_capacity (ET := int_element) _ _ [1; 2; 3] Hv)
           [1] 2 [3] eq_refl).
Defined.

(** C8 (defect in the code).  [Insert] at the front of the vector [[1]] with
    capacity 2 of a value whose copy construction throws: the exception
    leaves [size_] at 1 with slot 0 already destroyed and slot 1 holding the
    shifted element, so index 0, below [size_], is unconstructed, index 1,
    at [size_], is live, and the destructor then destroys an unconstructed
    slot. *)
Theorem Insert_throwing_breaks_invariant :
  Vector.repr (ET := throwing_copy_element) (Vector.self one_of_two) (Vector.mem one_of_two)
    [1] ∧
  ∃ st',
    Vector.Insert (ET := throwing_copy_element) (Vector.begin (Vector.self one_of_two))
      (by_copy 13) one_of_two
    = Throw element_error st'
    ∧ Vector.self st' = vector_at_1 2 1
    ∧ blocks (Vector.mem st') !! 1%nat = Some [None; Some 1]
    ∧ (¬ ∃ l, Vector.repr (ET := throwing_copy_element) (Vector.self st') (Vector.mem st') l)
    ∧ Vector.dtor (Vector.self st') (Vector.mem st') = Fault.
Proof.
  split.
  - unfold Vector.repr. vm_compute. repeat split; congruence.
  - eexists. split; [vm_compute; reflexivity|].
    split; [reflexivity|]. split; [by vm_compute|]. split; [|by vm_compute].
    intros [l (Hsz & _ & _ & Hb)].
    destruct l as [|x [|y l]]; try discriminate Hsz.
    + vm_compute in Hb. destruct Hb as (_ & _ & Hb). discriminate Hb.
    + simpl in Hsz. lia.
Qed.

(** C9 (defect in the code).  Four [push_back] calls on an empty vector of
    owning pointers reallocate to capacities 1, 2 and 4 and return with size
    4, but the third element is lost: the fourth call, which finds spare
    capacity, leaves the vector holding [[1; 2; null; 4]]. *)
Theorem push_back_four_loses_third :
  ∃ st',
    push_back_four (Vector.State Vector.default (empty_heap (option N))) = Ok tt st'
    ∧ Vector.Size (Vector.self st') = 4
    ∧ Vector.Capacity (Vector.self st') = 4
    ∧ Vector.contents st' = [Some (Some 1); Some (Some 2); Some None; Some (Some 4)].
Proof.
  eexists. split; [vm_compute; reflexivity|]. by vm_compute.
Qed.

(** * Further properties of the code *)

(** ** RawMemory *)

(** X1.  [RawMemory(n)], when [n * sizeof(T)] is within the range of
    [size_t] and the allocator grants that many bytes, has capacity [n]; for
    [n = 0] it holds the null pointer and nothing is allocated, otherwise
    its buffer is a block not allocated before, of [n] unconstructed slots.
    Destroying the object right away gives back the heap exactly as it
    was. *)
Theorem RawMemory_ctor_then_dtor {T : Type} {ET : Element T} (n : N) (h : heap T) :
  n * N.pos sizeof_T < size_max → n * N.pos sizeof_T ≤ limit h →
  ∃ m h1,
    RawMemory.ctor n h = Ok m h1
    ∧ RawMemory.Capacity m = n
    ∧ (if n =? 0 then RawMemory.GetAddress m = nullptr ∧ h1 = h
       else RawMemory.GetAddress m = Ptr (fresh_block h) 0
            ∧ fresh_block h ≠ 0%nat
            ∧ blocks h !! fresh_block h = None
            ∧ h1 = upd_block (fresh_block h) (replicate (N.to_nat n) None) h)
    ∧ RawMemory.dtor m h1 = Ok tt h.
Proof.
  intros Hfit Hlim. destruct (N.eqb_spec n 0) as [->|Hn].
  - by exists RawMemory.default, h.
  - eexists _, _. split; [by apply RawMemory_ctor_ok|]. split; [done|]. split.
    + split; [done|]. split; [apply fresh_block_nonzero|].
      split; [apply fresh_block_unused|done].
    + apply operator_delete_fresh.
Qed.

(** X2.  [Allocate] multiplies in [size_t] without a check: when
    [n * sizeof(T)] exceeds the range of [size_t], the request is made for
    the wrapped number of bytes, and if it is granted the object reports
    capacity [n] over a block of fewer than [n] slots. *)
Theorem RawMemory_ctor_size_overflow {T : Type} {ET : Element T} (n : N) (h : heap T) :
  n < size_max → size_max ≤ n * N.pos sizeof_T →
  wrap (n * N.pos sizeof_T) ≤ limit h →
  ∃ h1 b,
    RawMemory.ctor n h = Ok (RawMemory.Make (Ptr (fresh_block h) 0) n) h1
    ∧ blocks h1 !! fresh_block h = Some b
    ∧ N.of_nat (length b) < n.
Proof.
  intros Hn Hov Hlim.
  assert (n ≠ 0) as Hn0.
  { intros ->. rewrite N.mul_0_l in Hov. by vm_compute in Hov. }
  unfold RawMemory.ctor, RawMemory.Allocate.
  destruct (N.eqb_spec n 0) as [|_]; [done|]. cbn [negb].
  unfold bind, operator_new, ret.
  destruct (N.leb_spec (wrap (n * N.pos sizeof_T)) (limit h)) as [_|]; [|lia].
  eexists _, _. split; [done|]. cbn [blocks]. split; [apply lookup_insert_eq|].
  rewrite length_replicate, N2Nat.id.
  apply N.Div0.div_lt_upper_bound. rewrite (N.mul_comm (N.pos sizeof_T)).
  eapply N.lt_le_trans; [|exact Hov]. unfold wrap. by apply N.mod_lt.
Qed.

(** X3.  After move construction from a [RawMemory] that owns a block, the
    new object has the buffer and the capacity, the source is null with
    capacity 0, and destroying the two objects, in either order, releases the
    block exactly once. *)
Theorem RawMemory_move_ctor_single_release {T : Type} {ET : Element T}
    (other : RawMemory.t) (h : heap T) (r : nat) (b : list (option T)) :
  RawMemory.buffer_ other = Ptr r 0 → r ≠ 0%nat → blocks h !! r = Some b →
  let this := fst (RawMemory.move_ctor other) in
  let other' := snd (RawMemory.move_ctor other) in
  let h' := Heap (delete r (blocks h)) (live b ++ leaked h) (limit h) in
  this = other ∧ other' = RawMemory.default
  ∧ (RawMemory.dtor other' ;;; RawMemory.dtor this) h = Ok tt h'
  ∧ (RawMemory.dtor this ;;; RawMemory.dtor other') h = Ok tt h'.
Proof.
  destruct other as [buf cap]. cbn [RawMemory.buffer_]. intros -> Hr Hb.
  unfold RawMemory.move_ctor. cbn [fst snd RawMemory.buffer_ RawMemory.capacity_].
  split; [done|]. split; [done|].
  unfold bind, RawMemory.dtor, RawMemory.Deallocate. cbn [RawMemory.buffer_].
  rewrite operator_delete_null.
  by rewrite (operator_delete_ok _ _ _ Hr Hb).
Qed.

(** ** Construction and destruction of vectors *)

(** X4.  [Vector(n)], when [n * sizeof(T)] is within the range of
    [size_t], the allocator grants that many bytes and the default
    constructor throws for none of the [n] elements, holds [n]
    value-initialised elements, with size and capacity [n], in a block not
    allocated before; no other block changes and nothing is leaked. *)
Theorem Vector_ctor_size_spec {T : Type} {ET : Element T} (n : N) (h : heap T) :
  n * N.pos sizeof_T < size_max → n * N.pos sizeof_T ≤ limit h →
  (∀ i, (i < N.to_nat n)%nat → value_init_throws i = false) →
  ∃ v' h',
    Vector.ctor_size n h = Ok v' h'
    ∧ Vector.repr v' h' (replicate (N.to_nat n) value_init)
    ∧ Vector.Size v' = n ∧ Vector.Capacity v' = n ∧ leaked h' = leaked h
    ∧ (∀ r, r ≠ base (Vector.begin v') → blocks h' !! r = blocks h !! r)
    ∧ (n ≠ 0 → blocks h !! base (Vector.begin v') = None).
Proof.
  intros Hfit Hlim Hnt. unfold Vector.ctor_size, RawMemory.ctor.
  assert (Vector.grants h n) as Hg by done.
  pose proof (fresh_block_nonzero h) as Hf0.
  destruct (N.eq_dec n 0) as [->|Hn0].
  - exists Vector.default, h. split; [done|]. split; [apply repr_default|done].
  - erewrite bind_ok; last first.
    { erewrite bind_ok by (by apply Allocate_ok). reflexivity. }
    vsimpl.
    erewrite bind_ok; last first.
    { apply try_catch_ok.
      eapply (uninitialized_value_construct_n_ok _ 0 n _ [] []); [|done|done].
      blk. simpl. by rewrite app_nil_r. }
    rewrite upd_block_twice. simpl. rewrite app_nil_r.
    eexists _, _. split; [reflexivity|]. split; [|split; [done|split; [done|split; [done|split]]]].
    + apply repr_intro; try done.
      * rewrite length_replicate. lia.
      * blk. rewrite length_replicate, Nat.sub_diag. simpl.
        by rewrite app_nil_r, map_Some_replicate.
    + intros r Hr. vsimpl in Hr. by rewrite blocks_upd_block_ne.
    + intros _. vsimpl. apply fresh_block_unused.
Qed.

(** X5.  [Vector(n)] for [n > 0] with [n * sizeof(T)] within the range of
    [size_t], when the allocation is refused or the default constructor
    throws for one of the [n] elements: the exception propagates and the
    heap is exactly as before; the elements constructed before the one that
    failed are destroyed and the buffer is released. *)
Theorem Vector_ctor_size_failure {T : Type} {ET : Element T} (n : N) (h : heap T) :
  n ≠ 0 → n * N.pos sizeof_T < size_max →
  ¬ (n * N.pos sizeof_T ≤ limit h
     ∧ ∀ i, (i < N.to_nat n)%nat → value_init_throws i = false) →
  ∃ e, Vector.ctor_size n h = Throw e h.
Proof.
  intros Hn Hfit Hnot. unfold Vector.ctor_size.
  pose proof (fits_size_t _ Hfit) as Hmax.
  destruct (N.le_gt_cases (n * N.pos sizeof_T) (limit h)) as [Hlim|Hlim].
  - destruct (first_index value_init_throws (N.to_nat n)) as [Hok|(m & Hm & Hx & Hok)].
    { by destruct Hnot. }
    exists element_error.
    erewrite bind_ok by (by apply RawMemory_ctor_ok).
    erewrite bind_throw; [done|].
    eapply try_catch_throw.
    + vsimpl. unfold uninitialized_value_construct_n.
      replace (N.to_nat n) with (m + S (N.to_nat n - S m))%nat at 1 by lia.
      eapply (uninitialized_value_construct_loop_throw m _ 0 (Ptr (fresh_block h) 0)
                (Ptr (fresh_block h) 0) _ [] 0 (replicate (N.to_nat n - m) None));
        vsimpl; try done.
      * blk. cbn [app replicate]. rewrite <- replicate_add. do 2 f_equal. lia.
      * simpl. lia.
    + unfold RawMemory.dtor, RawMemory.Deallocate. vsimpl.
      rewrite upd_block_twice. cbn [app Nat.add]. rewrite <- replicate_add.
      apply operator_delete_fresh.
  - exists bad_alloc. by erewrite bind_throw by (by apply RawMemory_ctor_refused).
Qed.

(** X6.  Copy construction from a vector holding [l], when the allocation of
    [size_] elements is granted and no copy constructor throws: the new
    vector holds [l] with size and capacity equal to the size of the source,
    in a buffer of its own; the source still holds [l]; nothing leaks. *)
Theorem Vector_ctor_copy_spec {T : Type} {ET : Element T} (other : Vector.t) (h : heap T)
    (l : list T) :
  Vector.repr other h l → Vector.grants h (Vector.size_ other) →
  Forall (λ x, copy_ctor_throws x = false) l →
  ∃ v' h',
    Vector.ctor_copy other h = Ok v' h'
    ∧ Vector.repr v' h' l ∧ Vector.repr other h' l
    ∧ Vector.Size v' = Vector.Size other ∧ Vector.Capacity v' = Vector.Size other
    ∧ Vector.separate v' other ∧ leaked h' = leaked h.
Proof.
  intros Hv Hg Hok.
  pose proof (repr_size _ _ _ Hv) as Hsz.
  destruct (N.eq_dec (Vector.size_ other) 0) as [Hs0|Hs0].
  - assert (l = []) as -> by (destruct l; [done|simpl in *; lia]).
    exists Vector.default, h. unfold Vector.ctor_copy, Vector.Size. rewrite Hs0.
    split; [done|]. split; [apply repr_default|]. split; [done|].
    split; [done|]. split; [done|]. split; [|done]. intros Hc. by vsimpl in Hc.
  - rewrite (ctor_copy_ok _ _ _ Hv Hs0 Hg Hok).
    pose proof (fresh_block_unused h) as Hfu.
    pose proof (fresh_block_nonzero h) as Hf0.
    pose proof (repr_capacity _ _ _ Hv) as [Hle Hmax].
    eexists _, _. split; [done|]. split; [|split; [|split; [|split; [|split]]]]; try done.
    + apply repr_intro; try done; [apply Hg|].
      blk. rewrite Hsz, Nat2N.id, Nat.sub_diag. simpl. by rewrite app_nil_r.
    + eapply repr_frame; [done|]. intros Hc.
      destruct (repr_block _ _ _ Hv Hc) as (_ & _ & Hb).
      rewrite blocks_upd_block_ne; [done|]. intros E. rewrite <- E in Hb. congruence.
    + intros _ Hc. vsimpl.
      destruct (repr_block _ _ _ Hv Hc) as (_ & _ & Hb). intros E. rewrite <- E in Hb.
      vsimpl in Hb. congruence.
Qed.

(** X7.  Copy construction from a non-empty vector when the allocation is
    refused or the copy constructor throws for one of the elements: the
    exception propagates and the heap is exactly as before; the copies made
    so far are destroyed and the buffer is released. *)
Theorem Vector_ctor_copy_failure {T : Type} {ET : Element T} (other : Vector.t) (h : heap T)
    (l : list T) :
  Vector.repr other h l → Vector.size_ other ≠ 0 →
  ¬ (Vector.grants h (Vector.size_ other) ∧ Forall (λ x, copy_ctor_throws x = false) l) →
  ∃ e, Vector.ctor_copy other h = Throw e h.
Proof. apply ctor_copy_throw. Qed.

(** X8.  The destructor of a valid vector returns normally: every element is
    destroyed (nothing is leaked), the buffer is released, and no other
    block changes. *)
Theorem Vector_dtor_spec {T : Type} {ET : Element T} (v : Vector.t) (h : heap T)
    (l : list T) :
  Vector.repr v h l →
  ∃ h',
    Vector.dtor v h = Ok tt h' ∧ leaked h' = leaked h ∧ limit h' = limit h
    ∧ (∀ r, r ≠ base (RawMemory.buffer_ (Vector.data_ v)) → blocks h' !! r = blocks h !! r)
    ∧ (RawMemory.capacity_ (Vector.data_ v) ≠ 0 →
       blocks h' !! base (RawMemory.buffer_ (Vector.data_ v)) = None).
Proof. apply dtor_ok. Qed.

(** X9.  After move construction from a valid vector the new vector holds the
    elements and the source is a valid empty vector; destroying the source
    and then the new vector releases the buffer once and leaks nothing. *)
Theorem Vector_move_ctor_then_dtors {T : Type} {ET : Element T} (other : Vector.t)
    (h : heap T) (l : list T) :
  Vector.repr other h l →
  let this := fst (Vector.ctor_move other) in
  let other' := snd (Vector.ctor_move other) in
  Vector.repr this h l ∧ Vector.repr other' h [] ∧
  ∃ h',
    (Vector.dtor other' ;;; Vector.dtor this) h = Ok tt h'
    ∧ leaked h' = leaked h
    ∧ (Vector.Capacity other ≠ 0 →
       blocks h' !! base (RawMemory.buffer_ (Vector.data_ other)) = None).
Proof.
  intros Hv.
  assert (Vector.ctor_move other = (other, Vector.default)) as -> by (by destruct other as [[? ?] ?]).
  cbn [fst snd]. split; [done|]. split; [apply repr_default|].
  destruct (dtor_ok _ _ _ Hv) as (h' & Heq & Hlk & _ & _ & Hrel).
  exists h'. unfold bind. by rewrite Vector_dtor_default.
Qed.

(** X10.  [Swap] exchanges the two vectors without touching the heap, and
    swapping twice restores both. *)
Theorem Vector_Swap_twice {T : Type} {ET : Element T} (v other : Vector.t) (h : heap T) :
  Vector.Swap other (Vector.State v h) = Ok v (Vector.State other h)
  ∧ (o <- Vector.Swap other ;; Vector.Swap o) (Vector.State v h)
    = Ok other (Vector.State v h).
Proof. by destruct v as [[? ?] ?], other as [[? ?] ?]. Qed.

(** X11.  [operator[]] on a valid vector holding [l]: for an index below the
    size it returns the address [begin() + i], at which the element
    [l !! i] lives, and changes nothing; for any other index the assertion
    fails. *)
Theorem Vector_index_spec {T : Type} {ET : Element T} (v : Vector.t) (h : heap T)
    (l : list T) (i : N) :
  Vector.repr v h l →
  match l !! N.to_nat i with
  | Some x =>
      Vector.index i (Vector.State v h) = Ok (ptr_add (Vector.begin v) i) (Vector.State v h)
      ∧ load (ptr_add (Vector.begin v) i) h = Ok x h
  | None => Vector.index i (Vector.State v h) = Fault
  end.
Proof.
  intros Hv. destruct (l !! N.to_nat i) as [x|] eqn:Hx.
  - by eapply index_in_range.
  - apply index_out_of_range. apply lookup_ge_None in Hx.
    rewrite (repr_size _ _ _ Hv). lia.
Qed.

(** ** Reserve and Resize *)

(** X12.  [Reserve(n)] beyond the capacity, for [n * sizeof(T)] within the
    range of [size_t], when the allocation is refused, or when the elements
    are relocated by copying and a copy constructor throws: the exception
    propagates and the vector and the heap are exactly as before. *)
Theorem Reserve_failure_keeps_vector {T : Type} {ET : Element T} (v : Vector.t) (h : heap T)
    (l : list T) (n : N) :
  Vector.repr v h l → Vector.Capacity v < n → n * N.pos sizeof_T < size_max →
  (n * N.pos sizeof_T ≤ limit h →
   is_nothrow_move_constructible || negb is_copy_constructible = false
   ∧ ¬ Forall (λ x, copy_ctor_throws x = false) l) →
  ∃ e, Vector.Reserve n (Vector.State v h) = Throw e (Vector.State v h).
Proof.
  intros Hv Hn Hfit Hfail.
  destruct (N.le_gt_cases (n * N.pos sizeof_T) (limit h)) as [Hlim|Hlim].
  - destruct (Hfail Hlim) as [Hpol Hnot]. exists element_error.
    by eapply Reserve_copy_throws.
  - exists bad_alloc. by apply Reserve_refused.
Qed.

(** X13.  [Resize(n)] with [n] at most the size keeps the first [n]
    elements and destroys the others; the buffer and its capacity stay, no
    block is allocated or released, nothing leaks. *)
Theorem Resize_shrinks_in_place {T : Type} {ET : Element T} (v : Vector.t) (h : heap T)
    (l : list T) (n : N) :
  Vector.repr v h l → n ≤ Vector.size_ v →
  ∃ h',
    Vector.Resize n (Vector.State v h)
    = Ok tt (Vector.State (Vector.Make (Vector.data_ v) n) h')
    ∧ Vector.repr (Vector.Make (Vector.data_ v) n) h' (take (N.to_nat n) l)
    ∧ Vector.same_blocks h h' ∧ leaked h' = leaked h.
Proof.
  intros Hv Hn.
  pose proof (repr_buffer_off _ _ _ Hv) as Hov.
  pose proof (repr_size _ _ _ Hv) as Hsv.
  pose proof (repr_capacity _ _ _ Hv) as [Hlev Hmaxv].
  pose proof (repr_fits _ _ _ Hv) as Hfit.
  destruct v as [[[r o] cap] size].
  cbn [Vector.data_ Vector.size_ RawMemory.buffer_ RawMemory.capacity_ base off] in *.
  subst o. unfold Vector.Resize. erewrite bind_ok by reflexivity. psimpl.
  destruct (N.leb_spec n size) as [_|]; [|lia].
  rewrite sub_sz_small by lia.
  destruct (N.eq_dec cap 0) as [Hc|Hc].
  - destruct (repr_null _ _ _ Hv Hc) as (Hnull & -> & Hs0).
    cbn [Vector.data_ Vector.size_ RawMemory.buffer_ RawMemory.capacity_] in Hs0, Hnull.
    assert (n = 0) as -> by lia. subst size.
    exists h. split; [done|]. split; [|done]. simpl. by eapply repr_frame.
  - destruct (repr_block _ _ _ Hv Hc) as (_ & Hr0 & Hb).
    cbn [Vector.data_ Vector.size_ RawMemory.buffer_ RawMemory.capacity_ base off] in Hb, Hr0.
    rewrite <- (take_drop (N.to_nat n) l) in Hb at 1.
    rewrite map_app, <- (assoc_L (++)) in Hb.
    assert (length (take (N.to_nat n) l) = N.to_nat n) as Htk by (rewrite length_take; lia).
    assert (length (drop (N.to_nat n) l) = (length l - N.to_nat n)%nat) as Hdr
      by (by rewrite length_drop).
    eexists. split; [|split; [|split]].
    + erewrite bind_ok; last first.
      { apply lift_ok.
        eapply (destroy_n_ok r n _ h (drop (N.to_nat n) l) (map Some (take (N.to_nat n) l)));
          [lia|exact Hb|]. rewrite length_map. lia. }
      reflexivity.
    + apply repr_intro; try done; try lia.
      cbn [Vector.mem]. blk. rewrite Htk, Hdr, <- replicate_add. do 3 f_equal. lia.
    + cbn [Vector.mem]. eapply same_blocks_upd; [exact Hb|].
      rewrite !length_app, !length_map, length_replicate. lia.
    + done.
Qed.

(** X14.  [Resize(n)] with [n] above the size, when the default constructor
    throws for none of the [n - size] new elements and, should [n] exceed
    the capacity, [n * sizeof(T)] is within the range of [size_t], the
    allocator grants that many bytes and the relocation does not throw: the
    vector keeps its elements and gets [n - size] value-initialised elements
    after them; the size is [n]. *)
Theorem Resize_appends_default_values {T : Type} {ET : Element T} (v : Vector.t)
    (h : heap T) (l : list T) (n : N) :
  Vector.repr v h l → Vector.size_ v < n →
  (Vector.Capacity v < n →
   n * N.pos sizeof_T < size_max ∧ n * N.pos sizeof_T ≤ limit h
   ∧ Vector.relocation_succeeds l) →
  (∀ i, (i < N.to_nat (n - Vector.size_ v))%nat → value_init_throws i = false) →
  ∃ v' h',
    Vector.Resize n (Vector.State v h) = Ok tt (Vector.State v' h')
    ∧ Vector.repr v' h' (l ++ replicate (N.to_nat n - length l) value_init)
    ∧ Vector.Size v' = n ∧ leaked h' = leaked h.
Proof.
  intros Hv Hn Hg Hnt.
  pose proof (repr_size _ _ _ Hv) as Hsv.
  assert (∃ v1 h1, Vector.Reserve n (Vector.State v h) = Ok tt (Vector.State v1 h1)
                   ∧ Vector.repr v1 h1 l ∧ n ≤ Vector.Capacity v1
                   ∧ Vector.size_ v1 = Vector.size_ v ∧ leaked h1 = leaked h)
    as (v1 & h1 & Hres & Hv1 & Hcap1 & Hs1 & Hlk1).
  { destruct (N.le_gt_cases n (Vector.Capacity v)) as [Hle|Hgt].
    - exists v, h. split; [by apply Reserve_noop|done].
    - destruct (Hg Hgt) as (Hfit & Hlim & Hrel).
      destruct (Reserve_grows v h l n Hv Hgt (conj Hfit Hlim) Hrel)
        as (h1 & Heq & Hv1 & Hlk & _).
      eexists _, h1. split; [exact Heq|]. split; [done|]. split; [vsimpl; lia|done]. }
  pose proof (repr_buffer_off _ _ _ Hv1) as Hov.
  pose proof (repr_capacity _ _ _ Hv1) as [Hlev Hmaxv].
  pose proof (repr_fits _ _ _ Hv1) as Hfit.
  destruct v1 as [[[r o] cap] size].
  cbn [Vector.data_ Vector.size_ RawMemory.buffer_ RawMemory.capacity_ base off] in *.
  vsimpl in Hcap1. subst o size.
  assert (cap ≠ 0) as Hc by lia.
  destruct (repr_block _ _ _ Hv1 Hc) as (_ & Hr0 & Hb).
  cbn [Vector.data_ Vector.size_ RawMemory.buffer_ RawMemory.capacity_ base off] in Hb, Hr0.
  assert (replicate (N.to_nat cap - length l) (@None T)
          = replicate (N.to_nat (n - Vector.size_ v)) None
            ++ replicate (N.to_nat cap - N.to_nat n) None) as Hsplit.
  { rewrite <- replicate_add. f_equal. lia. }
  rewrite Hsplit in Hb.
  exists (Vector.Make (RawMemory.Make (Ptr r 0) cap) n). eexists.
  split; [|split; [|split]].
  - unfold Vector.Resize. erewrite bind_ok by reflexivity.
    cbn [Vector.self].
    destruct (N.leb_spec n (Vector.size_ v)) as [|_]; [lia|].
    erewrite bind_ok; last first.
    { erewrite bind_ok by exact Hres. erewrite bind_ok by reflexivity. psimpl.
      apply lift_ok. rewrite sub_sz_small by lia.
      eapply (uninitialized_value_construct_n_ok r _ _ _ (map Some l)); [exact Hb| |done].
      rewrite length_map. lia. }
    reflexivity.
  - apply repr_intro; try done; try lia.
    + rewrite length_app, length_replicate. lia.
    + cbn [Vector.mem]. blk.
      rewrite map_app, map_Some_replicate, <- (assoc_L (++)).
      rewrite length_app, length_replicate.
      do 3 f_equal; f_equal; lia.
  - done.
  - done.
Qed.

(** X15.  [Resize(n)] with [n] above the size when the default constructor
    throws for one of the new elements, after [m] of them have been
    constructed (and, should [n] exceed the capacity, [n * sizeof(T)] is
    within the range of [size_t], the allocator grants that many bytes and
    the relocation does not throw): the exception propagates, the [m] new
    elements are destroyed again, and the vector is valid and holds exactly
    its elements, with the size unchanged (the capacity may have grown). *)
Theorem Resize_default_ctor_throws {T : Type} {ET : Element T} (v : Vector.t) (h : heap T)
    (l : list T) (n : N) (m : nat) :
  Vector.repr v h l → Vector.size_ v < n →
  (Vector.Capacity v < n →
   n * N.pos sizeof_T < size_max ∧ n * N.pos sizeof_T ≤ limit h
   ∧ Vector.relocation_succeeds l) →
  (m < N.to_nat (n - Vector.size_ v))%nat → value_init_throws m = true →
  (∀ i, (i < m)%nat → value_init_throws i = false) →
  ∃ v' h',
    Vector.Resize n (Vector.State v h) = Throw element_error (Vector.State v' h')
    ∧ Vector.repr v' h' l ∧ Vector.Size v' = Vector.Size v ∧ leaked h' = leaked h.
Proof.
  intros Hv Hn Hg Hm Hx Hok.
  pose proof (repr_size _ _ _ Hv) as Hsv.
  assert (∃ v1 h1, Vector.Reserve n (Vector.State v h) = Ok tt (Vector.State v1 h1)
                   ∧ Vector.repr v1 h1 l ∧ n ≤ Vector.Capacity v1
                   ∧ Vector.size_ v1 = Vector.size_ v ∧ leaked h1 = leaked h)
    as (v1 & h1 & Hres & Hv1 & Hcap1 & Hs1 & Hlk1).
  { destruct (N.le_gt_cases n (Vector.Capacity v)) as [Hle|Hgt].
    - exists v, h. split; [by apply Reserve_noop|done].
    - destruct (Hg Hgt) as (Hfit & Hlim & Hrel).
      destruct (Reserve_grows v h l n Hv Hgt (conj Hfit Hlim) Hrel)
        as (h1 & Heq & Hv1 & Hlk & _).
      eexists _, h1. split; [exact Heq|]. split; [done|]. split; [vsimpl; lia|done]. }
  pose proof (repr_buffer_off _ _ _ Hv1) as Hov.
  pose proof (repr_capacity _ _ _ Hv1) as [Hlev Hmaxv].
  destruct v1 as [[[r o] cap] size].
  cbn [Vector.data_ Vector.size_ RawMemory.buffer_ RawMemory.capacity_ base off] in *.
  vsimpl in Hcap1. subst o size.
  assert (cap ≠ 0) as Hc by lia.
  destruct (repr_block _ _ _ Hv1 Hc) as (_ & Hr0 & Hb).
  cbn [Vector.data_ Vector.size_ RawMemory.buffer_ RawMemory.capacity_ base off] in Hb, Hr0.
  assert (replicate (N.to_nat cap - length l) (@None T)
          = replicate m None ++ replicate (N.to_nat cap - length l - m) None) as Hsplit.
  { rewrite <- replicate_add. f_equal. lia. }
  exists (Vector.Make (RawMemory.Make (Ptr r 0) cap) (Vector.size_ v)), h1.
  split; [|done].
  unfold Vector.Resize. erewrite bind_ok by reflexivity. cbn [Vector.self].
  destruct (N.leb_spec n (Vector.size_ v)) as [|_]; [lia|].
  erewrite bind_throw; [done|].
  erewrite bind_ok by exact Hres. erewrite bind_ok by reflexivity. psimpl.
  apply lift_throw. rewrite sub_sz_small by lia.
  unfold uninitialized_value_construct_n.
  replace (N.to_nat (n - Vector.size_ v))
    with (m + S (N.to_nat (n - Vector.size_ v) - S m))%nat by lia.
  erewrite (uninitialized_value_construct_loop_throw m _ 0 (Ptr r (Vector.size_ v))
              (Ptr r (Vector.size_ v)) h1 (map Some l) 0
              (replicate (N.to_nat cap - length l - m) None)); vsimpl; try done.
  - f_equal. cbn [Nat.add]. rewrite <- Hsplit. by rewrite upd_block_same.
  - cbn [replicate app]. by rewrite <- Hsplit.
  - rewrite length_map. lia.
  - lia.
  - lia.
Qed.

(** ** Emplace, EmplaceBack and PushBack *)


(** X17.  [Emplace] on a full vector when the new buffer is refused or the
    constructor of the new element throws: the exception propagates and the
    vector and the heap are exactly as before. *)
Theorem Emplace_on_full_vector_failure {T : Type} {ET : Element T} (v : Vector.t)
    (h : heap T) (l : list T) (i : N) (a : ctor_args T) :
  Vector.repr v h l → Vector.size_ v = Vector.Capacity v → i ≤ Vector.size_ v →
  Vector.grown (Vector.size_ v) * N.pos sizeof_T < size_max →
  (Vector.grown (Vector.size_ v) * N.pos sizeof_T ≤ limit h →
   match a with
   | by_copy x => copy_ctor_throws x = true
   | by_move x => move_ctor_throws x = true ∧ is_nothrow_move_constructible = false
   end) →
  ∃ e, Vector.Emplace (ptr_add (Vector.begin v) i) a (Vector.State v h)
       = Throw e (Vector.State v h).
Proof.
  intros Hv Hfull Hi Hfit Hfail.
  rewrite (Emplace_full_unfold _ _ _ _ _ Hv Hfull Hi Hfit).
  pose proof (repr_capacity _ _ _ Hv) as [Hlev Hmaxv].
  destruct (grown_bounds (Vector.size_ v)) as [Hn0 Hsn].
  set (n := Vector.grown (Vector.size_ v)) in *.
  destruct (N.le_gt_cases (n * N.pos sizeof_T) (limit h)) as [Hlim|Hlim].
  - exists element_error.
    erewrite bind_throw; [done|].
    erewrite bind_ok by (by apply lift_ok, RawMemory_ctor_ok).
    erewrite bind_throw; [done|].
    eapply try_catch_throw.
    + unfold RawMemory.plus. vsimpl.
      destruct (N.leb_spec i n) as [_|]; [|lia].
      erewrite bind_ok by reflexivity.
      erewrite bind_throw; [done|].
      apply lift_throw. specialize (Hfail Hlim). unfold emplace_construct_at.
      destruct a as [x|x].
      * by rewrite Hfail.
      * destruct Hfail as [-> ->]. done.
    + unfold RawMemory.dtor, RawMemory.Deallocate. vsimpl.
      apply lift_ok, operator_delete_fresh.
  - exists bad_alloc.
    erewrite bind_throw; [done|].
    erewrite bind_throw; [done|].
    by apply lift_throw, RawMemory_ctor_refused.
Qed.


(** X19.  [Emplace] at index [i] of a vector with spare capacity, with
    constructor arguments that do not refer to an element of the vector
    itself, when no operation involved throws: the vector keeps its buffer,
    the size grows by one and the returned pointer is [pos]; the elements
    are those of [l] with the new one at index [i], except that the element
    that was last in [l] is left in its moved-from state. *)
Theorem Emplace_with_spare_capacity {T : Type} {ET : Element T} (v : Vector.t) (h : heap T)
    (l : list T) (i : nat) (a : ctor_args T) :
  Vector.repr v h l → Vector.size_ v < Vector.Capacity v → (i ≤ length l)%nat →
  args_throws a = false →
  (∀ z, last l = Some z → move_ctor_throws z = false) →
  (∀ d y, move_assign_throws d y = false) →
  let v' := Vector.Make (Vector.data_ v) (Vector.size_ v + 1) in
  let pos := ptr_add (Vector.begin v) (N.of_nat i) in
  ∃ h',
    Vector.Emplace pos a (Vector.State v h) = Ok pos (Vector.State v' h')
    ∧ Vector.repr v' h' (Vector.inserted i (args_value a) (Vector.last_moved_from l))
    ∧ Vector.same_blocks h h' ∧ leaked h' = leaked h.
Proof.
  intros Hv Hspare Hi Ha Hlast Hnt v' pos.
  destruct (Emplace_spare v h l i a Hv Hspare Hi Ha Hlast Hnt) as (h' & Heq & Hv' & Hs & Hlk & _).
  by exists h'.
Qed.


(** X21.  [Emplace] with spare capacity when the constructor of the new
    element throws, after the elements have been shifted: the exception
    propagates with the size unchanged, the slot at [pos] unconstructed and
    the elements from [pos] on one slot further up.  For [pos] before the
    end the class invariant no longer holds; for [pos] at the end it holds,
    with the last element in its moved-from state. *)
Theorem Emplace_ctor_throws_after_shift {T : Type} {ET : Element T} (v : Vector.t)
    (h : heap T) (l : list T) (i : nat) (a : ctor_args T) :
  Vector.repr v h l → Vector.size_ v < Vector.Capacity v → (i ≤ length l)%nat →
  match a with
  | by_copy x => copy_ctor_throws x = true
  | by_move x => move_ctor_throws x = true ∧ is_nothrow_move_constructible = false
  end →
  (∀ z, last l = Some z → move_ctor_throws z = false) →
  (∀ d y, move_assign_throws d y = false) →
  let l' := Vector.last_moved_from l in
  let pos := ptr_add (Vector.begin v) (N.of_nat i) in
  ∃ h',
    Vector.Emplace pos a (Vector.State v h) = Throw element_error (Vector.State v h')
    ∧ blocks h' !! base (Vector.begin v)
      = Some (map Some (take i l') ++ None :: map Some (drop i l')
                ++ replicate (N.to_nat (Vector.Capacity v) - S (length l)) None)
    ∧ leaked h' = leaked h
    ∧ if decide (i = length l) then Vector.repr v h' l'
      else ¬ ∃ l'', Vector.repr v h' l''.
Proof.
  intros Hv Hspare Hi Ha Hlast Hnt l' pos.
  destruct (Emplace_spare_ctor_throws v h l i a Hv Hspare Hi Ha Hlast Hnt)
    as (h' & Heq & Hb & Hsame & Hlk).
  fold l' in Hb.
  pose proof (repr_size _ _ _ Hv) as Hsv.
  pose proof (length_last_moved_from l) as Hlen'. fold l' in Hlen'.
  assert (Vector.Capacity v ≠ 0) as Hc by lia.
  exists h'. split; [done|]. split; [done|]. split; [done|].
  destruct (decide (i = length l)) as [->|Hne].
  - rewrite take_ge, drop_ge in Hb by lia. cbn [map app] in Hb.
    destruct v as [[[r o] cap] size].
    pose proof (repr_buffer_off _ _ _ Hv) as Hov.
    pose proof (repr_block _ _ _ Hv Hc) as (_ & Hr0 & _).
    pose proof (repr_fits _ _ _ Hv) as Hfit.
    cbn [Vector.data_ Vector.size_ RawMemory.buffer_ RawMemory.capacity_ base off] in *.
    vsimpl in Hb. vsimpl in Hspare. subst o.
    apply repr_intro; try done; try lia.
    rewrite Hb, Hlen'. do 2 f_equal.
    by replace (N.to_nat cap - length l)%nat with (S (N.to_nat cap - S (length l))) by lia.
  - eapply (repr_hole v h' (take i l')); [done|exact Hb|].
    rewrite length_take. lia.
Qed.

(** X22.  [EmplaceBack], for an element type that never throws, with
    constructor arguments that do not refer to an element of the vector
    itself and with the allocation granted when the vector is full, returns
    the address [begin() + size] in the vector as it is afterwards, where
    the new element lives; the size grows by one. *)
Theorem EmplaceBack_returns_new_element {T : Type} {ET : Element T} (v : Vector.t)
    (h : heap T) (l : list T) (a : ctor_args T) :
  Vector.repr v h l → never_throws →
  (Vector.size_ v = Vector.Capacity v → Vector.grants h (Vector.grown (Vector.size_ v))) →
  ∃ v' h',
    Vector.EmplaceBack a (Vector.State v h)
    = Ok (ptr_add (Vector.begin v') (Vector.size_ v)) (Vector.State v' h')
    ∧ load (ptr_add (Vector.begin v') (Vector.size_ v)) h' = Ok (args_value a) h'
    ∧ Vector.Size v' = Vector.Size v + 1.
Proof.
  intros Hv Hnt Hg.
  destruct (EmplaceBack_spec v h l a Hv Hnt Hg) as (v' & h' & Heq & Hload & _ & Hsz).
  by exists v', h'.
Qed.

(** X23.  [PushBack] of a value that is not an element of the vector itself,
    for an element type that never throws and with the allocation granted
    when the vector is full: the new element is last, the size grows by one,
    and the capacity becomes [1] or twice the size if the vector was full
    and is unchanged otherwise.  The elements before the new one are those
    of [l], except that on a vector with spare capacity the previous last
    element is left in its moved-from state. *)
Theorem PushBack_appends {T : Type} {ET : Element T} (v : Vector.t) (h : heap T)
    (l : list T) (a : ctor_args T) :
  Vector.repr v h l → never_throws →
  (Vector.size_ v = Vector.Capacity v → Vector.grants h (Vector.grown (Vector.size_ v))) →
  ∃ v' h',
    Vector.PushBack a (Vector.State v h) = Ok tt (Vector.State v' h')
    ∧ Vector.repr v' h'
        ((if Vector.size_ v =? Vector.Capacity v then l else Vector.last_moved_from l)
         ++ [args_value a])
    ∧ Vector.Size v' = Vector.Size v + 1
    ∧ Vector.Capacity v'
      = (if Vector.size_ v =? Vector.Capacity v then Vector.grown (Vector.size_ v)
         else Vector.Capacity v).
Proof.
  intros Hv Hnt Hg.
  destruct (PushBack_spec v h l a Hv Hnt Hg) as (v' & h' & Heq & Hv' & Hsz & Hcap & _).
  by exists v', h'.
Qed.



(** ** Insert and Erase *)


(** X27.  Positions outside the vector are rejected by the assertions:
    [Emplace] at [begin() + i] with [i] above the size and [Erase] at
    [begin() + i] with [i] at or above the size (so also at [end()]) fail
    without touching anything. *)
Theorem positions_out_of_range_fail {T : Type} {ET : Element T} (v : Vector.t) (h : heap T)
    (i : N) (a : ctor_args T) :
  Vector.size_ v ≤ i →
  Vector.Erase (ptr_add (Vector.begin v) i) (Vector.State v h) = Fault
  ∧ Vector.Emplace (ptr_add (Vector.begin v) (i + 1)) a (Vector.State v h) = Fault.
Proof.
  intros Hi. split.
  - by apply Erase_out_of_range.
  - apply Emplace_out_of_range. lia.
Qed.

(** ** Construction followed by destruction *)

(** X28.  Copy construction followed by the destruction of the copy gives
    back the heap exactly as it was: every copy is destroyed and the buffer
    of the copy is released. *)
Theorem Vector_ctor_copy_then_dtor {T : Type} {ET : Element T} (other : Vector.t)
    (h : heap T) (l : list T) :
  Vector.repr other h l → Vector.grants h (Vector.size_ other) →
  Forall (λ x, copy_ctor_throws x = false) l →
  (copy <- Vector.ctor_copy other ;; Vector.dtor copy) h = Ok tt h.
Proof.
  intros Hv Hg Hok.
  pose proof (repr_size _ _ _ Hv) as Hsz.
  destruct (N.eq_dec (Vector.size_ other) 0) as [Hs0|Hs0].
  - unfold bind, Vector.ctor_copy. by rewrite Hs0.
  - unfold bind at 1. rewrite (ctor_copy_ok _ _ _ Hv Hs0 Hg Hok).
    by apply dtor_fresh.
Qed.

(** X29.  [Vector(n)] followed by the destructor, when [n * sizeof(T)] is
    within the range of [size_t], the allocator grants that many bytes and
    the default constructor throws for none of the [n] elements, gives back
    the heap exactly as it was. *)
Theorem Vector_ctor_size_then_dtor {T : Type} {ET : Element T} (n : N) (h : heap T) :
  n * N.pos sizeof_T < size_max → n * N.pos sizeof_T ≤ limit h →
  (∀ i, (i < N.to_nat n)%nat → value_init_throws i = false) →
  (v <- Vector.ctor_size n ;; Vector.dtor v) h = Ok tt h.
Proof.
  intros Hfit Hlim Hnt.
  assert (Vector.grants h n) as Hg by done.
  destruct (N.eq_dec n 0) as [->|Hn0]; [done|].
  unfold bind at 1, Vector.ctor_size.
  erewrite bind_ok by (by apply RawMemory_ctor_ok). vsimpl.
  erewrite bind_ok; last first.
  { apply try_catch_ok.
    eapply (uninitialized_value_construct_n_ok _ 0 n _ [] []); [|done|done].
    blk. simpl. by rewrite app_nil_r. }
  unfold ret. rewrite upd_block_twice. cbn [app]. rewrite app_nil_r.
  rewrite <- map_Some_replicate. apply dtor_fresh.
  rewrite length_replicate. lia.
Qed.

(** ** Move assignment of RawMemory *)

(** X30.  Move assignment [a = std::move(b)] of a [RawMemory] [a] that owns
    a block: the block of [a] is released, [a] gets the buffer and the
    capacity of [b], and [b] is left with capacity 0 and the address of the
    block just released, not with the null pointer.  Only when [a] is empty
    (null buffer) is [b] left null, with the heap untouched; assigning an
    object to itself changes nothing. *)
Theorem RawMemory_move_assign_spec {T : Type} {ET : Element T} (a b : RawMemory.t)
    (h : heap T) (r : nat) (slots : list (option T)) :
  RawMemory.buffer_ a = Ptr r 0 → r ≠ 0%nat → blocks h !! r = Some slots →
  RawMemory.move_assign a (other_object b) h
  = Ok (RawMemory.Make (RawMemory.buffer_ b) (RawMemory.capacity_ b),
        other_object (RawMemory.Make (Ptr r 0) 0))
      (Heap (delete r (blocks h)) (live slots ++ leaked h) (limit h))
  ∧ RawMemory.move_assign RawMemory.default (other_object b) h
    = Ok (RawMemory.Make (RawMemory.buffer_ b) (RawMemory.capacity_ b),
          other_object RawMemory.default) h
  ∧ RawMemory.move_assign a same_object h = Ok (a, same_object) h.
Proof.
  destruct a as [buf cap], b as [bufb capb]. cbn [RawMemory.buffer_ RawMemory.capacity_].
  intros -> Hr Hb. split; [|split]; [| |done].
  - unfold RawMemory.move_assign, RawMemory.Deallocate, bind.
    cbn [RawMemory.buffer_]. by rewrite (operator_delete_ok _ _ _ Hr Hb).
  - unfold RawMemory.move_assign, RawMemory.Deallocate, bind.
    cbn [RawMemory.buffer_ RawMemory.default]. by rewrite operator_delete_null.
Qed.

(** ** The properties apply *)

(** [int] never throws and its moves leave the source unchanged. *)
Lemma int_never_throws : never_throws (ET := int_element).
Proof. by repeat split. Defined.

Lemma repr_1_2_3 : Vector.repr (ET := int_element) vector_1_2_3 heap_1_2_3 [1; 2; 3].
Proof. unfold Vector.repr. vm_compute. repeat split; congruence. Defined.

Lemma repr_full_1_2 : Vector.repr (ET := int_element) full_1_2 heap_1_2 [1; 2].
Proof. unfold Vector.repr. vm_compute. repeat split; congruence. Defined.

Lemma repr_full_1_13 :
  Vector.repr (ET := throwing_copy_element) (Vector.self full_1_13) (Vector.mem full_1_13)
    [1; 13].
Proof. unfold Vector.repr. vm_compute. repeat split; congruence. Defined.

Lemma repr_one_of_two :
  Vector.repr (ET := throwing_copy_element) (Vector.self one_of_two) (Vector.mem one_of_two)
    [1].
Proof. unfold Vector.repr. vm_compute. repeat split; congruence. Defined.

Lemma copy_of_13_throws :
  ¬ Forall (λ x, copy_ctor_throws (Element := throwing_copy_element) x = false) [1; 13].
Proof.
  intros H. apply Forall_cons in H as [_ H]. apply Forall_cons in H as [H _].
  discriminate H.
Defined.

(** [RawMemory<int>(3)] on the empty heap. *)
Lemma RawMemory_ctor_then_dtor_witness :
  3 * N.pos (sizeof_T (Element := int_element)) < size_max ∧
  3 * N.pos (sizeof_T (Element := int_element)) ≤ limit (empty_heap N) ∧
  ∃ m h1,
    RawMemory.ctor (ET := int_element) 3 (empty_heap N) = Ok m h1
    ∧ RawMemory.Capacity m = 3
    ∧ (RawMemory.GetAddress m = Ptr (fresh_block (empty_heap N)) 0
       ∧ fresh_block (empty_heap N) ≠ 0%nat
       ∧ blocks (empty_heap N) !! fresh_block (empty_heap N) = None
       ∧ h1 = upd_block (fresh_block (empty_heap N)) (replicate (N.to_nat 3) None)
                (empty_heap N))
    ∧ RawMemory.dtor m h1 = Ok tt (empty_heap N).
Proof.
  assert (3 * N.pos (sizeof_T (Element := int_element)) < size_max) as H1 by (by vm_compute).
  assert (3 * N.pos (sizeof_T (Element := int_element)) ≤ limit (empty_heap N)) as H2
    by (vm_compute; congruence).
  split; [exact H1|]. split; [exact H2|].
  exact (RawMemory_ctor_then_dtor (ET := int_element) 3 (empty_heap N) H1 H2).
Defined.

(** [RawMemory<int>(2^62)]: the request is for 0 bytes. *)
Lemma RawMemory_ctor_size_overflow_witness :
  huge_count < size_max ∧ size_max ≤ huge_count * N.pos (sizeof_T (Element := int_element)) ∧
  wrap (huge_count * N.pos (sizeof_T (Element := int_element))) ≤ limit (empty_heap N) ∧
  ∃ h1 b,
    RawMemory.ctor (ET := int_element) huge_count (empty_heap N)
    = Ok (RawMemory.Make (Ptr (fresh_block (empty_heap N)) 0) huge_count) h1
    ∧ blocks h1 !! fresh_block (empty_heap N) = Some b
    ∧ N.of_nat (length b) < huge_count.
Proof.
  assert (huge_count < size_max) as H1 by (by vm_compute).
  assert (size_max ≤ huge_count * N.pos (sizeof_T (Element := int_element))) as H2
    by (vm_compute; congruence).
  assert (wrap (huge_count * N.pos (sizeof_T (Element := int_element))) ≤ limit (empty_heap N))
    as H3 by (vm_compute; congruence).
  split; [exact H1|]. split; [exact H2|]. split; [exact H3|].
  exact (RawMemory_ctor_size_overflow (ET := int_element) huge_count (empty_heap N) H1 H2 H3).
Defined.

(** Move construction from a [RawMemory<int>] owning block 1. *)
Lemma RawMemory_move_ctor_single_release_witness :
  RawMemory.buffer_ raw_at_1 = Ptr 1 0 ∧ 1%nat ≠ 0%nat ∧
  blocks raw_heap !! 1%nat = Some [None; None] ∧
  (RawMemory.dtor (T := N) (snd (RawMemory.move_ctor raw_at_1)) ;;;
   RawMemory.dtor (T := N) (fst (RawMemory.move_ctor raw_at_1))) raw_heap
  = Ok tt (Heap (delete 1%nat (blocks raw_heap)) (live [None; None] ++ leaked raw_heap)
             (limit raw_heap)).
Proof.
  assert (blocks raw_heap !! 1%nat = Some [None; None]) as Hb by (by vm_compute).
  split; [reflexivity|]. split; [congruence|]. split; [exact Hb|].
  exact (proj1 (proj2 (proj2
    (RawMemory_move_ctor_single_release (ET := int_element) raw_at_1 raw_heap 1
       [None; None] eq_refl (Nat.neq_succ_0 0) Hb)))).
Defined.

(** [Vector<int>(3)] on the empty heap. *)
Lemma Vector_ctor_size_spec_witness :
  3 * N.pos (sizeof_T (Element := int_element)) < size_max ∧
  3 * N.pos (sizeof_T (Element := int_element)) ≤ limit (empty_heap N) ∧
  (∀ i, (i < N.to_nat 3)%nat → value_init_throws (Element := int_element) i = false) ∧
  ∃ v' h',
    Vector.ctor_size (ET := int_element) 3 (empty_heap N) = Ok v' h'
    ∧ Vector.repr (ET := int_element) v' h' [0; 0; 0]
    ∧ Vector.Size v' = 3 ∧ Vector.Capacity v' = 3 ∧ leaked h' = leaked (empty_heap N)
    ∧ (∀ r, r ≠ base (Vector.begin v') → blocks h' !! r = blocks (empty_heap N) !! r)
    ∧ ((3 : N) ≠ 0 → blocks (empty_heap N) !! base (Vector.begin v') = None).
Proof.
  assert (3 * N.pos (sizeof_T (Element := int_element)) < size_max) as H1 by (by vm_compute).
  assert (3 * N.pos (sizeof_T (Element := int_element)) ≤ limit (empty_heap N)) as H2
    by (vm_compute; congruence).
  split; [exact H1|]. split; [exact H2|]. split; [by intros i _|].
  exact (Vector_ctor_size_spec (ET := int_element) 3 (empty_heap N) H1 H2 (λ _ _, eq_refl)).
Defined.

(** [Vector<X>(3)] for an [X] whose default constructor throws for the
    second element: the first element is destroyed again and the buffer
    released. *)
Lemma Vector_ctor_size_failure_witness :
  (3 : N) ≠ 0 ∧ 3 * N.pos (sizeof_T (Element := throwing_default_element)) < size_max ∧
  value_init_throws (Element := throwing_default_element) 0 = false ∧
  value_init_throws (Element := throwing_default_element) 1 = true ∧
  ∃ e, Vector.ctor_size (ET := throwing_default_element) 3 (empty_heap N)
       = Throw e (empty_heap N).
Proof.
  assert ((3 : N) ≠ 0) as H1 by congruence.
  assert (3 * N.pos (sizeof_T (Element := throwing_default_element)) < size_max) as H2
    by (by vm_compute).
  split; [exact H1|]. split; [exact H2|]. split; [reflexivity|]. split; [reflexivity|].
  apply (Vector_ctor_size_failure (ET := throwing_default_element) 3 (empty_heap N) H1 H2).
  intros [_ H]. specialize (H 1%nat). simpl in H. discriminate H. lia.
Defined.

(** Copy construction from [[1; 2; 3]]. *)
Lemma Vector_ctor_copy_spec_witness :
  Vector.repr (ET := int_element) vector_1_2_3 heap_1_2_3 [1; 2; 3] ∧
  Vector.grants (ET := int_element) heap_1_2_3 (Vector.size_ vector_1_2_3) ∧
  Forall (λ x, copy_ctor_throws (Element := int_element) x = false) [1; 2; 3] ∧
  ∃ v' h',
    Vector.ctor_copy (ET := int_element) vector_1_2_3 heap_1_2_3 = Ok v' h'
    ∧ Vector.repr (ET := int_element) v' h' [1; 2; 3]
    ∧ Vector.repr (ET := int_element) vector_1_2_3 h' [1; 2; 3]
    ∧ Vector.Size v' = Vector.Size vector_1_2_3
    ∧ Vector.Capacity v' = Vector.Size vector_1_2_3
    ∧ Vector.separate v' vector_1_2_3 ∧ leaked h' = leaked heap_1_2_3.
Proof.
  assert (Vector.grants (ET := int_element) heap_1_2_3 (Vector.size_ vector_1_2_3)) as Hg.
  { split; vm_compute; congruence. }
  assert (Forall (λ x, copy_ctor_throws (Element := int_element) x = false) [1; 2; 3]) as Hok.
  { repeat constructor. }
  split; [exact repr_1_2_3|]. split; [exact Hg|]. split; [exact Hok|].
  exact (Vector_ctor_copy_spec (ET := int_element) _ _ _ repr_1_2_3 Hg Hok).
Defined.

(** Copy construction from [[1; 13]] when the copy of 13 throws. *)
Lemma Vector_ctor_copy_failure_witness :
  Vector.repr (ET := throwing_copy_element) (Vector.self full_1_13) (Vector.mem full_1_13)
    [1; 13] ∧
  Vector.size_ (Vector.self full_1_13) ≠ 0 ∧
  ∃ e, Vector.ctor_copy (ET := throwing_copy_element) (Vector.self full_1_13)
         (Vector.mem full_1_13)
       = Throw e (Vector.mem full_1_13).
Proof.
  assert (Vector.size_ (Vector.self full_1_13) ≠ 0) as Hs by (vm_compute; congruence).
  split; [exact repr_full_1_13|]. split; [exact Hs|].
  apply (Vector_ctor_copy_failure (ET := throwing_copy_element) _ _ _ repr_full_1_13 Hs).
  intros [_ H]. exact (copy_of_13_throws H).
Defined.

(** The destructor of [[1; 2; 3]]. *)
Lemma Vector_dtor_spec_witness :
  Vector.repr (ET := int_element) vector_1_2_3 heap_1_2_3 [1; 2; 3] ∧
  ∃ h',
    Vector.dtor (T := N) vector_1_2_3 heap_1_2_3 = Ok tt h'
    ∧ leaked h' = leaked heap_1_2_3 ∧ limit h' = limit heap_1_2_3
    ∧ (∀ r, r ≠ base (RawMemory.buffer_ (Vector.data_ vector_1_2_3)) →
         blocks h' !! r = blocks heap_1_2_3 !! r)
    ∧ (RawMemory.capacity_ (Vector.data_ vector_1_2_3) ≠ 0 →
       blocks h' !! base (RawMemory.buffer_ (Vector.data_ vector_1_2_3)) = None).
Proof.
  split; [exact repr_1_2_3|].
  exact (Vector_dtor_spec (ET := int_element) _ _ _ repr_1_2_3).
Defined.

(** Move construction from [[1; 2; 3]], then both destructors. *)
Lemma Vector_move_ctor_then_dtors_witness :
  Vector.repr (ET := int_element) vector_1_2_3 heap_1_2_3 [1; 2; 3] ∧
  ∃ h',
    (Vector.dtor (T := N) (snd (Vector.ctor_move vector_1_2_3)) ;;;
     Vector.dtor (T := N) (fst (Vector.ctor_move vector_1_2_3))) heap_1_2_3
    = Ok tt h'
    ∧ leaked h' = leaked heap_1_2_3
    ∧ (Vector.Capacity vector_1_2_3 ≠ 0 →
       blocks h' !! base (RawMemory.buffer_ (Vector.data_ vector_1_2_3)) = None).
Proof.
  split; [exact repr_1_2_3|].
  exact (proj2 (proj2 (Vector_move_ctor_then_dtors (ET := int_element) _ _ _ repr_1_2_3))).
Defined.

(** [operator[]] at index 1 of [[1; 2; 3]]. *)
Lemma Vector_index_spec_witness :
  Vector.repr (ET := int_element) vector_1_2_3 heap_1_2_3 [1; 2; 3] ∧
  Vector.index (T := N) 1 (Vector.State vector_1_2_3 heap_1_2_3)
  = Ok (ptr_add (Vector.begin vector_1_2_3) 1) (Vector.State vector_1_2_3 heap_1_2_3)
  ∧ load (ptr_add (Vector.begin vector_1_2_3) 1) heap_1_2_3 = Ok 2 heap_1_2_3.
Proof.
  split; [exact repr_1_2_3|].
  exact (Vector_index_spec (ET := int_element) _ _ _ 1 repr_1_2_3).
Defined.

Lemma repr_1_2_3_throwing_default :
  Vector.repr (ET := throwing_default_element) vector_1_2_3 heap_1_2_3 [1; 2; 3].
Proof. unfold Vector.repr. vm_compute. repeat split; congruence. Defined.

Lemma repr_two_owners :
  Vector.repr (ET := unique_ptr_element) (Vector.self two_owners) (Vector.mem two_owners)
    [Some 1; Some 2].
Proof. unfold Vector.repr. vm_compute. repeat split; congruence. Defined.

(** [Reserve(5)] on the full vector [[1; 13]] whose copy of 13 throws. *)
Lemma Reserve_failure_keeps_vector_witness :
  Vector.repr (ET := throwing_copy_element) (Vector.self full_1_13) (Vector.mem full_1_13)
    [1; 13] ∧
  Vector.Capacity (Vector.self full_1_13) < 5 ∧
  5 * N.pos (sizeof_T (Element := throwing_copy_element)) < size_max ∧
  ∃ e, Vector.Reserve (ET := throwing_copy_element) 5 full_1_13 = Throw e full_1_13.
Proof.
  assert (Vector.Capacity (Vector.self full_1_13) < 5) as H1 by (by vm_compute).
  assert (5 * N.pos (sizeof_T (Element := throwing_copy_element)) < size_max) as H2
    by (by vm_compute).
  split; [exact repr_full_1_13|]. split; [exact H1|]. split; [exact H2|].
  apply (Reserve_failure_keeps_vector (ET := throwing_copy_element) _ _ _ 5
           repr_full_1_13 H1 H2).
  intros _. split; [reflexivity|exact copy_of_13_throws].
Defined.

(** [Resize(1)] on [[1; 2; 3]]. *)
Lemma Resize_shrinks_in_place_witness :
  Vector.repr (ET := int_element) vector_1_2_3 heap_1_2_3 [1; 2; 3] ∧
  1 ≤ Vector.size_ vector_1_2_3 ∧
  ∃ h',
    Vector.Resize (ET := int_element) 1 (Vector.State vector_1_2_3 heap_1_2_3)
    = Ok tt (Vector.State (Vector.Make (Vector.data_ vector_1_2_3) 1) h')
    ∧ Vector.repr (ET := int_element) (Vector.Make (Vector.data_ vector_1_2_3) 1) h' [1]
    ∧ Vector.same_blocks heap_1_2_3 h' ∧ leaked h' = leaked heap_1_2_3.
Proof.
  assert (1 ≤ Vector.size_ vector_1_2_3) as H1 by (vm_compute; congruence).
  split; [exact repr_1_2_3|]. split; [exact H1|].
  exact (Resize_shrinks_in_place (ET := int_element) _ _ _ 1 repr_1_2_3 H1).
Defined.

(** [Resize(6)] on [[1; 2; 3]] with capacity 4. *)
Lemma Resize_appends_default_values_witness :
  Vector.repr (ET := int_element) vector_1_2_3 heap_1_2_3 [1; 2; 3] ∧
  Vector.size_ vector_1_2_3 < 6 ∧
  6 * N.pos (sizeof_T (Element := int_element)) < size_max ∧
  6 * N.pos (sizeof_T (Element := int_element)) ≤ limit heap_1_2_3 ∧
  Vector.relocation_succeeds (ET := int_element) [1; 2; 3] ∧
  ∃ v' h',
    Vector.Resize (ET := int_element) 6 (Vector.State vector_1_2_3 heap_1_2_3)
    = Ok tt (Vector.State v' h')
    ∧ Vector.repr (ET := int_element) v' h' [1; 2; 3; 0; 0; 0]
    ∧ Vector.Size v' = 6 ∧ leaked h' = leaked heap_1_2_3.
Proof.
  assert (Vector.size_ vector_1_2_3 < 6) as H1 by (by vm_compute).
  assert (6 * N.pos (sizeof_T (Element := int_element)) < size_max) as H2 by (by vm_compute).
  assert (6 * N.pos (sizeof_T (Element := int_element)) ≤ limit heap_1_2_3) as H3
    by (vm_compute; congruence).
  assert (Vector.relocation_succeeds (ET := int_element) [1; 2; 3]) as H4
    by (repeat constructor).
  split; [exact repr_1_2_3|]. split; [exact H1|]. split; [exact H2|]. split; [exact H3|].
  split; [exact H4|].
  exact (Resize_appends_default_values (ET := int_element) _ _ _ 6 repr_1_2_3 H1
           (λ _, conj H2 (conj H3 H4)) (λ _ _, eq_refl)).
Defined.

(** [Resize(6)] on [[1; 2; 3]] with capacity 4 for an element type whose
    default constructor throws for the second new element: the vector is
    reallocated, the first new element is constructed and destroyed again. *)
Lemma Resize_default_ctor_throws_witness :
  Vector.repr (ET := throwing_default_element) vector_1_2_3 heap_1_2_3 [1; 2; 3] ∧
  Vector.size_ vector_1_2_3 < 6 ∧
  6 * N.pos (sizeof_T (Element := throwing_default_element)) < size_max ∧
  6 * N.pos (sizeof_T (Element := throwing_default_element)) ≤ limit heap_1_2_3 ∧
  Vector.relocation_succeeds (ET := throwing_default_element) [1; 2; 3] ∧
  (1 < N.to_nat (6 - Vector.size_ vector_1_2_3))%nat ∧
  value_init_throws (Element := throwing_default_element) 1 = true ∧
  (∀ i, (i < 1)%nat → value_init_throws (Element := throwing_default_element) i = false) ∧
  ∃ v' h',
    Vector.Resize (ET := throwing_default_element) 6 (Vector.State vector_1_2_3 heap_1_2_3)
    = Throw element_error (Vector.State v' h')
    ∧ Vector.repr (ET := throwing_default_element) v' h' [1; 2; 3]
    ∧ Vector.Size v' = Vector.Size vector_1_2_3
    ∧ leaked h' = leaked heap_1_2_3.
Proof.
  assert (Vector.size_ vector_1_2_3 < 6) as H1 by (by vm_compute).
  assert (6 * N.pos (sizeof_T (Element := throwing_default_element)) < size_max) as H2
    by (by vm_compute).
  assert (6 * N.pos (sizeof_T (Element := throwing_default_element)) ≤ limit heap_1_2_3) as H3
    by (vm_compute; congruence).
  assert (Vector.relocation_succeeds (ET := throwing_default_element) [1; 2; 3]) as H4
    by (repeat constructor).
  assert (1 < N.to_nat (6 - Vector.size_ vector_1_2_3))%nat as H5 by (vm_compute; lia).
  assert (∀ i, (i < 1)%nat → value_init_throws (Element := throwing_default_element) i = false)
    as H6.
  { intros i Hi. assert (i = 0)%nat as -> by lia. reflexivity. }
  split; [exact repr_1_2_3_throwing_default|]. split; [exact H1|]. split; [exact H2|].
  split; [exact H3|]. split; [exact H4|]. split; [exact H5|]. split; [reflexivity|].
  split; [exact H6|].
  exact (Resize_default_ctor_throws (ET := throwing_default_element) _ _ _ 6 1
           repr_1_2_3_throwing_default H1 (λ _, conj H2 (conj H3 H4)) H5 eq_refl H6).
Defined.


(** [Emplace] at index 1 of the full vector [[1; 13]] of a copy of 13, which
    throws. *)
Lemma Emplace_on_full_vector_failure_witness :
  Vector.repr (ET := throwing_copy_element) (Vector.self full_1_13) (Vector.mem full_1_13)
    [1; 13] ∧
  Vector.size_ (Vector.self full_1_13) = Vector.Capacity (Vector.self full_1_13) ∧
  1 ≤ Vector.size_ (Vector.self full_1_13) ∧
  Vector.grown (Vector.size_ (Vector.self full_1_13))
    * N.pos (sizeof_T (Element := throwing_copy_element)) < size_max ∧
  copy_ctor_throws (Element := throwing_copy_element) 13 = true ∧
  ∃ e, Vector.Emplace (ET := throwing_copy_element)
         (ptr_add (Vector.begin (Vector.self full_1_13)) 1) (by_copy 13) full_1_13
       = Throw e full_1_13.
Proof.
  assert (1 ≤ Vector.size_ (Vector.self full_1_13)) as H1 by (vm_compute; congruence).
  assert (Vector.grown (Vector.size_ (Vector.self full_1_13))
            * N.pos (sizeof_T (Element := throwing_copy_element)) < size_max) as H2
    by (by vm_compute).
  split; [exact repr_full_1_13|]. split; [reflexivity|]. split; [exact H1|].
  split; [exact H2|]. split; [reflexivity|].
  exact (Emplace_on_full_vector_failure (ET := throwing_copy_element) _ _ _ 1 (by_copy 13)
           repr_full_1_13 eq_refl H1 H2 (λ _, eq_refl)).
Defined.


(** [Emplace] of a pointer to 9 at the front of the owning pointers
    [[1; 2]] with capacity 4. *)
Lemma Emplace_with_spare_capacity_witness :
  Vector.repr (ET := unique_ptr_element) (Vector.self two_owners) (Vector.mem two_owners)
    [Some 1; Some 2] ∧
  Vector.size_ (Vector.self two_owners) < Vector.Capacity (Vector.self two_owners) ∧
  (0 ≤ length [Some 1; Some 2])%nat ∧
  args_throws (ET := unique_ptr_element) (by_move (Some 9)) = false ∧
  ∃ h',
    Vector.Emplace (ET := unique_ptr_element) (ptr_add (Vector.begin (Vector.self two_owners)) 0)
      (by_move (Some 9)) two_owners
    = Ok (ptr_add (Vector.begin (Vector.self two_owners)) 0)
        (Vector.State (Vector.Make (Vector.data_ (Vector.self two_owners)) 3) h')
    ∧ Vector.repr (ET := unique_ptr_element)
        (Vector.Make (Vector.data_ (Vector.self two_owners)) 3) h' [Some 9; Some 1; None]
    ∧ Vector.same_blocks (Vector.mem two_owners) h'
    ∧ leaked h' = leaked (Vector.mem two_owners).
Proof.
  assert (Vector.size_ (Vector.self two_owners) < Vector.Capacity (Vector.self two_owners))
    as H1 by (by vm_compute).
  assert (0 ≤ length [Some 1; Some 2])%nat as H2 by (simpl; lia).
  split; [exact repr_two_owners|]. split; [exact H1|]. split; [exact H2|].
  split; [reflexivity|].
  exact (Emplace_with_spare_capacity (ET := unique_ptr_element) _ _ _ 0 (by_move (Some 9))
           repr_two_owners H1 H2 eq_refl (λ _ _, eq_refl) (λ _ _, eq_refl)).
Defined.


(** [Emplace] at the front of [[1]] with capacity 2 of a copy of 13, which
    throws. *)
Lemma Emplace_ctor_throws_after_shift_witness :
  Vector.repr (ET := throwing_copy_element) (Vector.self one_of_two) (Vector.mem one_of_two)
    [1] ∧
  Vector.size_ (Vector.self one_of_two) < Vector.Capacity (Vector.self one_of_two) ∧
  (0 ≤ length [1])%nat ∧
  copy_ctor_throws (Element := throwing_copy_element) 13 = true ∧
  ∃ h',
    Vector.Emplace (ET := throwing_copy_element)
      (ptr_add (Vector.begin (Vector.self one_of_two)) 0) (by_copy 13) one_of_two
    = Throw element_error (Vector.State (Vector.self one_of_two) h')
    ∧ blocks h' !! 1%nat = Some [None; Some 1]
    ∧ leaked h' = leaked (Vector.mem one_of_two)
    ∧ ¬ ∃ l'', Vector.repr (ET := throwing_copy_element) (Vector.self one_of_two) h' l''.
Proof.
  assert (Vector.size_ (Vector.self one_of_two) < Vector.Capacity (Vector.self one_of_two))
    as H1 by (by vm_compute).
  assert (0 ≤ length [1])%nat as H2 by (simpl; lia).
  split; [exact repr_one_of_two|]. split; [exact H1|]. split; [exact H2|].
  split; [reflexivity|].
  exact (Emplace_ctor_throws_after_shift (ET := throwing_copy_element) _ _ _ 0 (by_copy 13)
           repr_one_of_two H1 H2 eq_refl (λ _ _, eq_refl) (λ _ _, eq_refl)).
Defined.

(** [EmplaceBack] of 4 on [[1; 2; 3]] with capacity 4. *)
Lemma EmplaceBack_returns_new_element_witness :
  Vector.repr (ET := int_element) vector_1_2_3 heap_1_2_3 [1; 2; 3] ∧
  never_throws (ET := int_element) ∧
  ∃ v' h',
    Vector.EmplaceBack (ET := int_element) (by_copy 4) (Vector.State vector_1_2_3 heap_1_2_3)
    = Ok (ptr_add (Vector.begin v') 3) (Vector.State v' h')
    ∧ load (ptr_add (Vector.begin v') 3) h' = Ok 4 h'
    ∧ Vector.Size v' = 4.
Proof.
  split; [exact repr_1_2_3|]. split; [exact int_never_throws|].
  apply (EmplaceBack_returns_new_element (ET := int_element) _ _ _ (by_copy 4)
           repr_1_2_3 int_never_throws).
  intros H. vm_compute in H. discriminate H.
Defined.

(** [PushBack] of 3 on the full vector [[1; 2]]. *)
Lemma PushBack_appends_witness :
  Vector.repr (ET := int_element) full_1_2 heap_1_2 [1; 2] ∧
  never_throws (ET := int_element) ∧
  Vector.grants (ET := int_element) heap_1_2 (Vector.grown (Vector.size_ full_1_2)) ∧
  ∃ v' h',
    Vector.PushBack (ET := int_element) (by_copy 3) (Vector.State full_1_2 heap_1_2)
    = Ok tt (Vector.State v' h')
    ∧ Vector.repr (ET := int_element) v' h' [1; 2; 3]
    ∧ Vector.Size v' = 3
    ∧ Vector.Capacity v' = 4.
Proof.
  assert (Vector.grants (ET := int_element) heap_1_2 (Vector.grown (Vector.size_ full_1_2)))
    as Hg.
  { split; vm_compute; congruence. }
  split; [exact repr_full_1_2|]. split; [exact int_never_throws|]. split; [exact Hg|].
  exact (PushBack_appends (ET := int_element) _ _ _ (by_copy 3)
           repr_full_1_2 int_never_throws (λ _, Hg)).
Defined.




(** [Erase] at [end()] and [Emplace] beyond [end()] on [[1; 2; 3]]. *)
Lemma positions_out_of_range_fail_witness :
  Vector.size_ vector_1_2_3 ≤ 3 ∧
  Vector.Erase (ET := int_element) (ptr_add (Vector.begin vector_1_2_3) 3)
    (Vector.State vector_1_2_3 heap_1_2_3) = Fault
  ∧ Vector.Emplace (ET := int_element) (ptr_add (Vector.begin vector_1_2_3) (3 + 1)) (by_copy 9)
      (Vector.State vector_1_2_3 heap_1_2_3) = Fault.
Proof.
  assert (Vector.size_ vector_1_2_3 ≤ 3) as H1 by (vm_compute; congruence).
  split; [exact H1|].
  exact (positions_out_of_range_fail (ET := int_element) vector_1_2_3 heap_1_2_3 3 (by_copy 9) H1).
Defined.

(** A copy of [[1; 2; 3]], destroyed. *)
Lemma Vector_ctor_copy_then_dtor_witness :
  Vector.repr (ET := int_element) vector_1_2_3 heap_1_2_3 [1; 2; 3] ∧
  Vector.grants (ET := int_element) heap_1_2_3 (Vector.size_ vector_1_2_3) ∧
  Forall (λ x, copy_ctor_throws (Element := int_element) x = false) [1; 2; 3] ∧
  (copy <- Vector.ctor_copy (ET := int_element) vector_1_2_3 ;; Vector.dtor copy) heap_1_2_3
  = Ok tt heap_1_2_3.
Proof.
  assert (Vector.grants (ET := int_element) heap_1_2_3 (Vector.size_ vector_1_2_3)) as Hg.
  { split; vm_compute; congruence. }
  assert (Forall (λ x, copy_ctor_throws (Element := int_element) x = false) [1; 2; 3]) as Hok.
  { repeat constructor. }
  split; [exact repr_1_2_3|]. split; [exact Hg|]. split; [exact Hok|].
  exact (Vector_ctor_copy_then_dtor (ET := int_element) _ _ _ repr_1_2_3 Hg Hok).
Defined.

(** [Vector<int>(3)], destroyed. *)
Lemma Vector_ctor_size_then_dtor_witness :
  3 * N.pos (sizeof_T (Element := int_element)) < size_max ∧
  3 * N.pos (sizeof_T (Element := int_element)) ≤ limit (empty_heap N) ∧
  (∀ i, (i < N.to_nat 3)%nat → value_init_throws (Element := int_element) i = false) ∧
  (v <- Vector.ctor_size (ET := int_element) 3 ;; Vector.dtor v) (empty_heap N)
  = Ok tt (empty_heap N).
Proof.
  assert (3 * N.pos (sizeof_T (Element := int_element)) < size_max) as H1 by (by vm_compute).
  assert (3 * N.pos (sizeof_T (Element := int_element)) ≤ limit (empty_heap N)) as H2
    by (vm_compute; congruence).
  split; [exact H1|]. split; [exact H2|]. split; [by intros i _|].
  exact (Vector_ctor_size_then_dtor (ET := int_element) 3 (empty_heap N) H1 H2
           (λ _ _, eq_refl)).
Defined.

(** [a = std::move(b)] for [a] owning block 1 and an empty [b]. *)
Lemma RawMemory_move_assign_spec_witness :
  RawMemory.buffer_ raw_at_1 = Ptr 1 0 ∧ 1%nat ≠ 0%nat ∧
  blocks raw_heap !! 1%nat = Some [None; None] ∧
  RawMemory.move_assign (T := N) raw_at_1 (other_object RawMemory.default) raw_heap
  = Ok (RawMemory.Make nullptr 0, other_object (RawMemory.Make (Ptr 1 0) 0))
      (Heap (delete 1%nat (blocks raw_heap)) (live [None; None] ++ leaked raw_heap)
         (limit raw_heap)).
Proof.
  assert (blocks raw_heap !! 1%nat = Some [None; None]) as Hb by (by vm_compute).
  split; [reflexivity|]. split; [congruence|]. split; [exact Hb|].
  exact (proj1 (RawMemory_move_assign_spec (ET := int_element) raw_at_1 RawMemory.default
                  raw_heap 1 [None; None] eq_refl (Nat.neq_succ_0 0) Hb)).
Defined.
